(** * 8-puzzle solver: breadth-first, uniform-cost, greedy and A* search

    A shallow embedding of [solver.py].  Python exceptions are carried by
    the [res] monad, the [while] loops take fuel, the solver object is an
    explicit record threaded through the methods. *)

From Stdlib Require Import ZArith String Ascii List Lia.
From stdpp Require Import base gmap sets list strings.

Local Open Scope Z_scope.
Set Warnings "-clear-no-such-hyp".

(** ** Exceptions and the result monad *)

Inductive exn : Type :=
| KeyError           (* missing dictionary key *)
| IndexError         (* list index out of range *)
| ValueError         (* int() of a non digit, unknown flavor, bad unpacking *)
| TypeError          (* arithmetic or ordering on None *)
| EmptyFrontierError (* pop on an empty frontier *)
| KeyNotFoundError   (* priority of a state that is not in the frontier *)
| OutOfFuel.         (* the loop did not finish with the fuel given *)

Inductive res (A : Type) : Type :=
| Ok (a : A)
| Raise (e : exn).
Arguments Ok {A} a.
Arguments Raise {A} e.

#[global] Instance res_ret : MRet res := fun A a => Ok a.
#[global] Instance res_bind : MBind res := fun A B f m =>
  match m with
  | Ok a => f a
  | Raise e => Raise e
  end.

Definition of_option {A} (e : exn) (o : option A) : res A :=
  match o with
  | Some a => Ok a
  | None => Raise e
  end.

(** [cost = 0; for i in l: cost = body(cost, i)] *)
Fixpoint for_acc {A B} (body : B -> A -> res B) (acc : B) (l : list A) : res B :=
  match l with
  | [] => Ok acc
  | i :: l' => acc' ← body acc i; for_acc body acc' l'
  end.

(** [[f(i) for i in l]] *)
Fixpoint comprehension {A B} (f : A -> res B) (l : list A) : res (list B) :=
  match l with
  | [] => Ok []
  | i :: l' => b ← f i; bs ← comprehension f l'; Ok (b :: bs)
  end.

(** [range(lo, hi)] *)
Definition range (lo hi : nat) : list nat := seq lo (hi - lo).

(** [int(tile)] on a one character string *)
Definition int (t : ascii) : res Z :=
  let n := Z.of_nat (nat_of_ascii t) in
  if (48 <=? n) && (n <=? 57) then Ok (n - 48) else Raise ValueError.

(** ** The board *)

Abbreviation Board := (list ascii).

Module puzz.

(** Modelled from the spec: the module [puzz] with the class
    [EightPuzzleBoard] is not among the sources.  A board is the list of
    the nine characters of its tile string, digits 0-8 with 0 the blank;
    two boards are equal when their layouts are.  Coordinates have their
    origin at the bottom left (the comment in [_transition_cost]); the
    string lists the rows from the top one. *)
Definition EightPuzzleBoard (board_string : string) : Board :=
  list_ascii_of_string board_string.

Definition blank : ascii := "0"%char.

Definition in_board (x y : Z) : bool :=
  (0 <=? x) && (x <=? 2) && (0 <=? y) && (y <=? 2).

Definition cell (x y : Z) : nat := Z.to_nat (6 - y * 3 + x).

(** Modelled from the spec: [get_tile(x, y)] returns the tile value at a
    coordinate; a coordinate outside the board is an [IndexError]. *)
Definition get_tile (b : Board) (x y : Z) : res ascii :=
  if in_board x y then of_option IndexError (b !! cell x y)
  else Raise IndexError.

Definition _set_tile (b : Board) (x y : Z) (val : ascii) : Board :=
  <[cell x y := val]> b.

(** Modelled from the spec: [find(tile_or_blank)] returns the (x, y)
    coordinate of a tile value, [None] standing for the blank. *)
Definition find (b : Board) (tile : option ascii) : res (Z * Z) :=
  match list_find (fun c => c = default blank tile) b with
  | Some (pos, _) => Ok (Z.of_nat pos mod 3, 2 - Z.of_nat pos / 3)
  | None => Raise ValueError
  end.

(** The board after the tile at offset (dx, dy) from the blank slid into
    the blank; [None] when that cell is off the board. *)
Definition _create_successor (b : Board) (dx dy : Z) : option Board :=
  match find b None with
  | Ok (x, y) =>
      let move_x := x + dx in
      let move_y := y + dy in
      match get_tile b move_x move_y with
      | Ok t => Some (_set_tile (_set_tile b x y t) move_x move_y blank)
      | Raise _ => None
      end
  | Raise _ => None
  end.

(** "up": the tile under the blank moves up; "down": the tile above it
    moves down; "left": the tile to its right moves left; "right": the
    tile to its left moves right (the comments of [_transition_cost]). *)
Definition success_up (b : Board) := _create_successor b 0 (-1).
Definition success_down (b : Board) := _create_successor b 0 1.
Definition success_left (b : Board) := _create_successor b 1 0.
Definition success_right (b : Board) := _create_successor b (-1) 0.

Definition entry (move : string) (o : option Board) : list (string * Board) :=
  match o with
  | Some s => [(move, s)]
  | None => []
  end.

(** Modelled from the spec: [successors()] maps each move name to the
    resulting board, for all legal slides from the blank position.  The
    dictionary is the list of its items in insertion order. *)
Definition successors (b : Board) : list (string * Board) :=
  entry "up" (success_up b) ++ entry "down" (success_down b)
  ++ entry "left" (success_left b) ++ entry "right" (success_right b).

(** Modelled from the spec: [get_move(other)] is the move name that
    transforms the board into [other]; Python's [None] when there is
    none. *)
Definition get_move (b other : Board) : option string :=
  match list_find (fun ms => ms.2 = other) (successors b) with
  | Some (_, ms) => Some ms.1
  | None => None
  end.

(** The layouts the constructor is meant for: the nine digits 0-8, each
    once. *)
Definition is_layout (b : Board) : Prop :=
  b ≡ₚ EightPuzzleBoard "012345678".

End puzz.

Definition GOAL_STATE : Board := puzz.EightPuzzleBoard "012345678".

(** ** The frontier *)

Module pdqpq.

(** Modelled from the spec: the module [pdqpq] with the classes
    [FifoQueue] and [PriorityQueue] is not among the sources.  The queue
    is the list of its (state, priority) items in insertion order; [fifo]
    tells the two classes apart.  [added] is a history, read by no
    operation: every state ever passed to [add], in call order. *)
Record Queue : Type := mkQueue {
  fifo : bool;
  items : list (Board * Z);
  added : list Board
}.

Definition FifoQueue : Queue := mkQueue true [] [].
Definition PriorityQueue : Queue := mkQueue false [] [].

Definition keys (q : Queue) : list Board := (items q).*1.

Definition is_empty (q : Queue) : bool := bool_decide (items q = []).

(** [state in queue] *)
Definition contains (q : Queue) (s : Board) : bool := bool_decide (s ∈ keys q).

(** [get(state)]: the priority stored for a state of the frontier. *)
Definition get (q : Queue) (s : Board) : res Z :=
  match list_find (fun e => e.1 = s) (items q) with
  | Some (_, e) => Ok e.2
  | None => Raise KeyNotFoundError
  end.

(** [remove(state)]: deletes the state wherever it is in the order. *)
Definition remove (q : Queue) (s : Board) : Queue :=
  mkQueue (fifo q) (filter (fun e => e.1 <> s) (items q)) (added q).

(** [add(state, priority=0)]: the FIFO queue ignores the priority; the
    priority queue replaces the item of a state it already holds. *)
Definition add (q : Queue) (s : Board) (priority : Z) : Queue :=
  if fifo q then mkQueue true (items q ++ [(s, 0)]) (added q ++ [s])
  else mkQueue false (items (remove q s) ++ [(s, priority)]) (added q ++ [s]).

(** The first item of least priority among [best :: l]. *)
Fixpoint least (best : Board * Z) (l : list (Board * Z)) : Board * Z :=
  match l with
  | [] => best
  | e :: l' => least (if e.2 <? best.2 then e else best) l'
  end.

(** [pop()]: removes and returns the oldest state (FIFO) or the state of
    least priority, the earliest added among equals. *)
Definition pop (q : Queue) : res (Board * Queue) :=
  match items q with
  | [] => Raise EmptyFrontierError
  | e :: l =>
      if fifo q then Ok (e.1, mkQueue true l (added q))
      else let m := least e l in Ok (m.1, remove q m.1)
  end.

End pdqpq.

(** ** The solver object and the result dictionary *)

Record Solver : Type := mkSolver {
  goal : Board;
  parents : gmap Board (option Board);   (* state -> parent state or None *)
  frontier : pdqpq.Queue;
  explored : gset Board;
  frontier_count : Z;
  expanded_count : Z
}.

Definition set_parents (self : Solver) (p : gmap Board (option Board)) : Solver :=
  mkSolver (goal self) p (frontier self) (explored self)
           (frontier_count self) (expanded_count self).
Definition set_frontier (self : Solver) (q : pdqpq.Queue) : Solver :=
  mkSolver (goal self) (parents self) q (explored self)
           (frontier_count self) (expanded_count self).
Definition set_explored (self : Solver) (e : gset Board) : Solver :=
  mkSolver (goal self) (parents self) (frontier self) e
           (frontier_count self) (expanded_count self).
Definition set_frontier_count (self : Solver) (n : Z) : Solver :=
  mkSolver (goal self) (parents self) (frontier self) (explored self)
           n (expanded_count self).
Definition set_expanded_count (self : Solver) (n : Z) : Solver :=
  mkSolver (goal self) (parents self) (frontier self) (explored self)
           (frontier_count self) n.

(** Values of the result dictionary: the counters and the cost are
    integers, the path is a list of (move, state) pairs. *)
Inductive value : Type :=
| VInt (n : Z)
| VPath (path : list (option string * Board)).

Abbreviation results := (gmap string value).

(** What a loop body hands back: a [return] of the enclosing function, or
    the solver to go on with. *)
Inductive flow : Type :=
| Return (r : results)
| Next (self : Solver).

(** [for move, succ in succs.items(): body] *)
Fixpoint for_items (body : Solver -> string -> Board -> res flow)
    (self : Solver) (succs : list (string * Board)) : res flow :=
  match succs with
  | [] => Ok (Next self)
  | (move, succ) :: rest =>
      fl ← body self move succ;
      match fl with
      | Return r => Ok (Return r)
      | Next self' => for_items body self' rest
      end
  end.

(** [while not self.frontier.is_empty(): body] *)
Fixpoint while_frontier (fuel : nat) (body : Solver -> res flow)
    (self : Solver) : res flow :=
  if pdqpq.is_empty (frontier self) then Ok (Next self)
  else match fuel with
       | O => Raise OutOfFuel
       | S fuel' =>
           fl ← body self;
           match fl with
           | Return r => Ok (Return r)
           | Next self' => while_frontier fuel' body self'
           end
       end.

(** ** Breadth-first search *)

Module BreadthFirstSolver.

Definition __init__ : Solver :=
  mkSolver GOAL_STATE ∅ pdqpq.FifoQueue ∅ 0 0.

(** Add state to frontier and increase the frontier count. *)
Definition add_to_frontier (self : Solver) (node : Board) : Solver :=
  let self := set_frontier self (pdqpq.add (frontier self) node 0) in
  set_frontier_count self (frontier_count self + 1).

(** Mark the node explored, increase the expanded count, return its
    successors. *)
Definition expand_node (self : Solver) (node : Board)
    : Solver * list (string * Board) :=
  let self := set_explored self ({[node]} ∪ explored self) in
  let self := set_expanded_count self (expanded_count self + 1) in
  (self, puzz.successors node).

(** [while state is not None: path.append(state); state = parents[state]].
    A walk longer than the parent map has entries is in a cycle, where
    Python would not come back: [OutOfFuel]. *)
Fixpoint walk (fuel : nat) (ps : gmap Board (option Board))
    (state : option Board) (path : list Board) : res (list Board) :=
  match state with
  | None => Ok path
  | Some s =>
      match fuel with
      | O => Raise OutOfFuel
      | S fuel' =>
          match ps !! s with
          | None => Raise KeyError
          | Some p => walk fuel' ps p (path ++ [s])
          end
      end
  end.

Definition get_path (self : Solver) (state : option Board) : res (list Board) :=
  path ← walk (S (size (parents self))) (parents self) state [];
  Ok (reverse path).

(** The body of the loop of [get_cost], at index [i] of [path]. *)
Definition cost_step (path : list Board) (cost : Z) (i : nat) : res Z :=
  prev ← of_option IndexError (path !! (i - 1)%nat);
  '(x, y) ← puzz.find prev None;
  cur ← of_option IndexError (path !! i);
  tile ← puzz.get_tile cur x y;
  n ← int tile;
  Ok (cost + n ^ 2).

Definition get_cost (self : Solver) (state : Board) : res Z :=
  path ← get_path self (Some state);
  for_acc (cost_step path) 0 (range 1 (length path)).

(** [state] is [None] or a board; a board is true in [if state:]. *)
Definition get_results_dict (self : Solver) (state : option Board) : res results :=
  let results : results := ∅ in
  let results := <["frontier_count" := VInt (frontier_count self)]> results in
  let results := <["expanded_count" := VInt (expanded_count self)]> results in
  match state with
  | Some s =>
      cost ← get_cost self s;
      let results := <["path_cost" := VInt cost]> results in
      path ← get_path self (Some s);
      moves ← comprehension (fun i =>
                 prev ← of_option IndexError (path !! (i - 1)%nat);
                 cur ← of_option IndexError (path !! i);
                 Ok (puzz.get_move prev cur)) (range 1 (length path));
      Ok (<["path" := VPath (zip (Some "start" :: moves) path)]> results)
  | None => Ok results
  end.

(** The body of [for move, succ in succs.items()]. *)
Definition visit (node : Board) (self : Solver) (move : string) (succ : Board)
    : res flow :=
  if negb (pdqpq.contains (frontier self) succ)
     && negb (bool_decide (succ ∈ explored self)) then
    let self := set_parents self (<[succ := Some node]> (parents self)) in
    if bool_decide (succ = goal self) then
      r ← get_results_dict self (Some succ); Ok (Return r)
    else Ok (Next (add_to_frontier self succ))
  else Ok (Next self).

(** The body of [while not self.frontier.is_empty()]. *)
Definition iteration (self : Solver) : res flow :=
  '(node, q) ← pdqpq.pop (frontier self);
  let self := set_frontier self q in
  let '(self, succs) := expand_node self node in
  for_items (visit node) self succs.

Definition start (self : Solver) (start_state : Board) : Solver :=
  let self := set_parents self (<[start_state := None]> (parents self)) in
  add_to_frontier self start_state.

Definition finish (fl : flow) : res results :=
  match fl with
  | Return r => Ok r
  | Next self => get_results_dict self None
  end.

Definition solve (self : Solver) (fuel : nat) (start_state : Board) : res results :=
  let self := start self start_state in
  if bool_decide (start_state = goal self) then
    get_results_dict self (Some start_state)
  else
    fl ← while_frontier fuel iteration self; finish fl.

End BreadthFirstSolver.

(** [a + b] where [b] may be Python's [None]. *)
Definition plus (a : Z) (b : option Z) : res Z :=
  match b with
  | Some b => Ok (a + b)
  | None => Raise TypeError
  end.

(** ** Uniform-cost search *)

Module UniformCostSolver.
Import BreadthFirstSolver.

Definition __init__ : Solver :=
  set_frontier BreadthFirstSolver.__init__ pdqpq.PriorityQueue.

(** The last branch prints a message and falls off the end: [None]. *)
Definition _transition_cost (state : Board) (move : string) : res (option Z) :=
  '(x, _) ← puzz.find state (Some "0"%char);
  '(_, y) ← puzz.find state (Some "0"%char);
  if bool_decide (move = "up") then
    t ← puzz.get_tile state x (y - 1); n ← int t; Ok (Some (n ^ 2))
  else if bool_decide (move = "down") then
    t ← puzz.get_tile state x (y + 1); n ← int t; Ok (Some (n ^ 2))
  else if bool_decide (move = "left") then
    t ← puzz.get_tile state (x + 1) y; n ← int t; Ok (Some (n ^ 2))
  else if bool_decide (move = "right") then
    t ← puzz.get_tile state (x - 1) y; n ← int t; Ok (Some (n ^ 2))
  else Ok None.

Definition visit (node : Board) (self : Solver) (move : string) (succ : Board)
    : res flow :=
  cost ← get_cost self node;
  t ← _transition_cost node move;
  alt_cost ← plus cost t;
  if bool_decide (succ ∈ explored self) then Ok (Next self)
  else if pdqpq.contains (frontier self) succ then
    cur_front_cost ← pdqpq.get (frontier self) succ;
    if cur_front_cost >? alt_cost then
      let self := set_parents self (<[succ := Some node]> (parents self)) in
      let self := set_frontier self (pdqpq.remove (frontier self) succ) in
      c ← get_cost self succ;
      Ok (Next (set_frontier self (pdqpq.add (frontier self) succ c)))
    else Ok (Next self)
  else
    let self := set_parents self (<[succ := Some node]> (parents self)) in
    let self := set_frontier_count self (frontier_count self + 1) in
    c ← get_cost self succ;
    Ok (Next (set_frontier self (pdqpq.add (frontier self) succ c))).

Definition iteration (self : Solver) : res flow :=
  '(node, q) ← pdqpq.pop (frontier self);
  let self := set_frontier self q in
  let '(self, succs) := expand_node self node in
  if bool_decide (node = goal self) then
    r ← get_results_dict self (Some node); Ok (Return r)
  else for_items (visit node) self succs.

Definition solve (self : Solver) (fuel : nat) (start_state : Board) : res results :=
  let self := start self start_state in
  if bool_decide (start_state = goal self) then
    get_results_dict self (Some start_state)
  else
    fl ← while_frontier fuel iteration self; finish fl.

End UniformCostSolver.

(** ** Greedy best-first search and the heuristics *)

Module GreedySolver.
Import BreadthFirstSolver.

Definition __init__ : Solver :=
  set_frontier UniformCostSolver.__init__ pdqpq.PriorityQueue.

Definition abs_diff (a : nat) (b : Z) : Z := Z.abs (Z.of_nat a - b).

Definition _num_misplaced_tiles (state : Board) : res Z :=
  for_acc (fun acc x =>
    for_acc (fun num_misplaced_tiles y =>
      t ← puzz.get_tile state (Z.of_nat x) (Z.of_nat y);
      num_tile ← int t;
      if bool_decide (num_tile <> 0) then
        t' ← puzz.get_tile state (Z.of_nat x) (Z.of_nat y);
        g ← puzz.get_tile GOAL_STATE (Z.of_nat x) (Z.of_nat y);
        if bool_decide (t' <> g) then Ok (num_misplaced_tiles + 1)
        else Ok num_misplaced_tiles
      else Ok num_misplaced_tiles) acc (range 0 3)) 0 (range 0 3).

Definition _manhattan_distance (state : Board) : res Z :=
  for_acc (fun acc x =>
    for_acc (fun manhattan_distance y =>
      cur_tile ← puzz.get_tile state (Z.of_nat x) (Z.of_nat y);
      '(x_coords, _) ← puzz.find GOAL_STATE (Some cur_tile);
      '(_, y_coords) ← puzz.find GOAL_STATE (Some cur_tile);
      num_tile ← int cur_tile;
      if bool_decide (num_tile <> 0) then
        Ok (manhattan_distance + (abs_diff x x_coords + abs_diff y y_coords))
      else Ok manhattan_distance) acc (range 0 3)) 0 (range 0 3).

Definition _worse_manhattan (state : Board) : res Z :=
  for_acc (fun acc x =>
    for_acc (fun manhattan_distance y =>
      cur_tile ← puzz.get_tile state (Z.of_nat x) (Z.of_nat y);
      '(x_coords, _) ← puzz.find GOAL_STATE (Some cur_tile);
      '(_, y_coords) ← puzz.find GOAL_STATE (Some cur_tile);
      let diff := abs_diff x x_coords + abs_diff y y_coords in
      num_tile ← int cur_tile;
      Ok (manhattan_distance + num_tile ^ 2 * diff)) acc (range 0 3)) 0 (range 0 3).

(** The last branch prints a message and falls off the end: [None]. *)
Definition _heuristic (trans : Board) (heur : option string) : res (option Z) :=
  if bool_decide (heur = Some "h1") then n ← _num_misplaced_tiles trans; Ok (Some n)
  else if bool_decide (heur = Some "h2") then n ← _manhattan_distance trans; Ok (Some n)
  else if bool_decide (heur = Some "h3") then n ← _worse_manhattan trans; Ok (Some n)
  else Ok None.

(** Modelled from the spec: the frontier orders its states by a number; a
    priority that is Python's [None] is taken to be a [TypeError]. *)
Definition add_value (q : pdqpq.Queue) (s : Board) (priority : option Z)
    : res pdqpq.Queue :=
  match priority with
  | Some p => Ok (pdqpq.add q s p)
  | None => Raise TypeError
  end.

Definition visit (heur : option string) (node : Board) (self : Solver)
    (move : string) (succ : Board) : res flow :=
  if negb (pdqpq.contains (frontier self) succ)
     && negb (bool_decide (succ ∈ explored self)) then
    heuristic ← _heuristic succ heur;
    let self := set_parents self (<[succ := Some node]> (parents self)) in
    let self := set_frontier_count self (frontier_count self + 1) in
    q ← add_value (frontier self) succ heuristic;
    Ok (Next (set_frontier self q))
  else Ok (Next self).

Definition iteration (heur : option string) (self : Solver) : res flow :=
  '(node, q) ← pdqpq.pop (frontier self);
  let self := set_frontier self q in
  let '(self, succs) := expand_node self node in
  if bool_decide (node = goal self) then
    r ← get_results_dict self (Some node); Ok (Return r)
  else for_items (visit heur node) self succs.

Definition solve (self : Solver) (fuel : nat) (start_state : Board)
    (heur : option string) : res results :=
  let self := start self start_state in
  if bool_decide (start_state = goal self) then
    get_results_dict self (Some start_state)
  else
    fl ← while_frontier fuel (iteration heur) self; finish fl.

End GreedySolver.

(** ** A* search *)

Module AStarSolver.
Import BreadthFirstSolver.

Definition __init__ : Solver :=
  set_frontier GreedySolver.__init__ pdqpq.PriorityQueue.

Definition visit (heur : option string) (node : Board) (self : Solver)
    (move : string) (succ : Board) : res flow :=
  if negb (bool_decide (succ ∈ explored self)) then
    if pdqpq.contains (frontier self) succ then
      succ_heuristic ← GreedySolver._heuristic succ heur;
      trans_to_succ ← UniformCostSolver._transition_cost node move;
      cost ← get_cost self node;
      a ← plus cost succ_heuristic;
      alt_priority ← plus a trans_to_succ;
      cur ← pdqpq.get (frontier self) succ;
      if alt_priority <? cur then
        let self := set_parents self (<[succ := Some node]> (parents self)) in
        let self := set_frontier self (pdqpq.remove (frontier self) succ) in
        Ok (Next (set_frontier self (pdqpq.add (frontier self) succ alt_priority)))
      else Ok (Next self)
    else
      let self := set_parents self (<[succ := Some node]> (parents self)) in
      cost_to_succ ← get_cost self succ;
      succ_heuristic ← GreedySolver._heuristic succ heur;
      succ_priority ← plus cost_to_succ succ_heuristic;
      let self := set_frontier_count self (frontier_count self + 1) in
      Ok (Next (set_frontier self (pdqpq.add (frontier self) succ succ_priority)))
  else Ok (Next self).

Definition iteration (heur : option string) (self : Solver) : res flow :=
  '(node, q) ← pdqpq.pop (frontier self);
  let self := set_frontier self q in
  let '(self, succs) := expand_node self node in
  if bool_decide (node = goal self) then
    r ← get_results_dict self (Some node); Ok (Return r)
  else for_items (visit heur node) self succs.

Definition solve (self : Solver) (fuel : nat) (start_state : Board)
    (heur : option string) : res results :=
  let self := start self start_state in
  if bool_decide (start_state = goal self) then
    get_results_dict self (Some start_state)
  else
    fl ← while_frontier fuel (iteration heur) self; finish fl.

End AStarSolver.

(** ** The entry point *)

(** [s.split(sep)] for a one character separator *)
Fixpoint split (sep : ascii) (s : string) : list string :=
  match s with
  | EmptyString => [EmptyString]
  | String c s' =>
      if bool_decide (c = sep) then EmptyString :: split sep s'
      else match split sep s' with
           | w :: ws => String c w :: ws
           | [] => [String c EmptyString]
           end
  end.

(** [strat, heur = flavor.split('-')] unpacks a list of exactly two. *)
Definition parse_flavor (flavor : string) : res (string * option string) :=
  if bool_decide ("-"%char ∈ list_ascii_of_string flavor) then
    match split "-" flavor with
    | [strat; heur] => Ok (strat, Some heur)
    | _ => Raise ValueError
    end
  else Ok (flavor, None).

Definition solve_puzzle (fuel : nat) (start_state : Board) (flavor : string)
    : res results :=
  '(strat, heur) ← parse_flavor flavor;
  if bool_decide (strat = "bfs") then
    BreadthFirstSolver.solve BreadthFirstSolver.__init__ fuel start_state
  else if bool_decide (strat = "ucost") then
    UniformCostSolver.solve UniformCostSolver.__init__ fuel start_state
  else if bool_decide (strat = "greedy") then
    GreedySolver.solve GreedySolver.__init__ fuel start_state heur
  else if bool_decide (strat = "astar") then
    AStarSolver.solve AStarSolver.__init__ fuel start_state heur
  else Raise ValueError.

(** ** The four strategies side by side *)

Inductive strategy : Type :=
| BFS
| UCS
| Greedy (heur : option string)
| AStar (heur : option string).

(** The solver object [solve_puzzle] constructs for a strategy. *)
Definition fresh (s : strategy) : Solver :=
  match s with
  | BFS => BreadthFirstSolver.__init__
  | UCS => UniformCostSolver.__init__
  | Greedy _ => GreedySolver.__init__
  | AStar _ => AStarSolver.__init__
  end.

Definition solve_of (s : strategy) (self : Solver) (fuel : nat)
    (start_state : Board) : res results :=
  match s with
  | BFS => BreadthFirstSolver.solve self fuel start_state
  | UCS => UniformCostSolver.solve self fuel start_state
  | Greedy heur => GreedySolver.solve self fuel start_state heur
  | AStar heur => AStarSolver.solve self fuel start_state heur
  end.

Definition iteration_of (s : strategy) : Solver -> res flow :=
  match s with
  | BFS => BreadthFirstSolver.iteration
  | UCS => UniformCostSolver.iteration
  | Greedy heur => GreedySolver.iteration heur
  | AStar heur => AStarSolver.iteration heur
  end.

Definition visit_of (s : strategy) : Board -> Solver -> string -> Board -> res flow :=
  match s with
  | BFS => BreadthFirstSolver.visit
  | UCS => UniformCostSolver.visit
  | Greedy heur => GreedySolver.visit heur
  | AStar heur => AStarSolver.visit heur
  end.

(** Which [solve] tests the popped node against the goal. *)
Definition tests_popped (s : strategy) : bool :=
  match s with
  | BFS => false
  | _ => true
  end.

(** The result dictionary of a search that found nothing. *)
Definition failure (self : Solver) : results :=
  <["expanded_count" := VInt (expanded_count self)]>
    (<["frontier_count" := VInt (frontier_count self)]> ∅).

(** The result dictionary of a search whose start state is the goal. *)
Definition trivial_success (self : Solver) (start_state : Board) : results :=
  <["path" := VPath [(Some "start", start_state)]]>
    (<["path_cost" := VInt 0]> (failure self)).

(** ** Vocabulary of the properties *)

(** The offset, from the blank, of the tile each move slides. *)
Definition offsets : list (string * (Z * Z)) :=
  [("up", (0, -1)); ("down", (0, 1)); ("left", (1, 0)); ("right", (-1, 0))].

(** [succ] is [b] after [move], and [t] is the tile that slid: it stood
    next to the blank of [b], in the direction of the move, and stands in
    [succ] where the blank of [b] was. *)
Definition slides (b : Board) (move : string) (succ : Board) (t : ascii) : Prop :=
  exists x y dx dy,
    (move, (dx, dy)) ∈ offsets
    /\ puzz.find b None = Ok (x, y)
    /\ puzz.find b (Some "0"%char) = Ok (x, y)
    /\ puzz.get_tile b (x + dx) (y + dy) = Ok t
    /\ puzz.get_tile succ x y = Ok t
    /\ t <> puzz.blank.

(** The coordinates of the board, in the order the heuristics scan them. *)
Definition coordinates : list (Z * Z) :=
  [(0, 0); (0, 1); (0, 2); (1, 0); (1, 1); (1, 2); (2, 0); (2, 1); (2, 2)].

Definition tile_at (state : Board) (c : Z * Z) : ascii :=
  default puzz.blank (state !! puzz.cell c.1 c.2).

(** The number written on a tile. *)
Definition tile_value (t : ascii) : Z := Z.of_nat (nat_of_ascii t) - 48.

(** Where a tile stands in the goal state. *)
Definition goal_coordinate (t : ascii) : Z * Z :=
  match puzz.find GOAL_STATE (Some t) with
  | Ok c => c
  | Raise _ => (0, 0)
  end.

Definition manhattan (c g : Z * Z) : Z := Z.abs (c.1 - g.1) + Z.abs (c.2 - g.2).

Definition Zsum (l : list Z) : Z := foldr Z.add 0 l.

(** The h3 of the specification: over the tiles that are not the blank,
    the sum of the squared tile value times its Manhattan distance from
    the goal coordinate. *)
Definition weighted (state : Board) (c : Z * Z) : Z :=
  tile_value (tile_at state c) ^ 2
  * manhattan c (goal_coordinate (tile_at state c)).

Definition h3_spec (state : Board) : Z :=
  Zsum (weighted state <$> filter (fun c => tile_at state c <> puzz.blank) coordinates).

(** The tile that moved between two consecutive states of a path: the tile
    standing, in [q], where the blank of [p] was. *)
Definition moved_tile (p q : Board) : res ascii :=
  '(x, y) ← puzz.find p None; puzz.get_tile q x y.

(** The consecutive pairs of a path. *)
Definition pairs (path : list Board) : list (Board * Board) :=
  zip path (tail path).

(** The path cost of the specification: over the consecutive pairs of the
    path, the sum of the squared number of the tile that moved. *)
Definition path_cost_spec (path : list Board) : res Z :=
  for_acc (fun cost pq => t ← moved_tile pq.1 pq.2; n ← int t; Ok (cost + n ^ 2))
          0 (pairs path).

(** The states from [s] up to the root of the parent map, in the order
    [get_path] walks them. *)
Inductive chain (ps : gmap Board (option Board)) : Board -> list Board -> Prop :=
| chain_root s :
    ps !! s = Some None -> chain ps s [s]
| chain_step s p l :
    ps !! s = Some (Some p) -> chain ps p l -> chain ps s (s :: l).

(** Where a run of [solve] stands. *)
Inductive point : Type :=
| Fresh                       (* the solver as constructed *)
| Started                     (* after [add_to_frontier(start_state)] *)
| Head                        (* at the test of the [while] loop *)
| Expanded (node : Board)     (* after [expand_node(node)] *)
| Visiting (node : Board) (rest : list (string * Board))
                              (* in the [for] loop, [rest] still to visit *)
| Found (node succ : Board).  (* breadth-first search: the goal [succ] has
                                 [node] for parent, the result is next *)

(** The solver objects a run of [solve] on a fresh solver goes through. *)
Inductive reach (s : strategy) (start_state : Board) : point -> Solver -> Prop :=
| reach_fresh :
    reach s start_state Fresh (fresh s)
| reach_started :
    reach s start_state Started (BreadthFirstSolver.start (fresh s) start_state)
| reach_head self :
    reach s start_state Started self ->
    start_state <> goal self ->
    reach s start_state Head self
| reach_expanded self node q :
    reach s start_state Head self ->
    pdqpq.is_empty (frontier self) = false ->
    pdqpq.pop (frontier self) = Ok (node, q) ->
    reach s start_state (Expanded node)
          (BreadthFirstSolver.expand_node (set_frontier self q) node).1
| reach_visiting self node :
    reach s start_state (Expanded node) self ->
    (tests_popped s = true -> node <> goal self) ->
    reach s start_state (Visiting node (puzz.successors node)) self
| reach_visit self node move succ rest self' :
    reach s start_state (Visiting node ((move, succ) :: rest)) self ->
    visit_of s node self move succ = Ok (Next self') ->
    reach s start_state (Visiting node rest) self'
| reach_next self node :
    reach s start_state (Visiting node []) self ->
    reach s start_state Head self
| reach_found self node move succ rest :
    reach s start_state (Visiting node ((move, succ) :: rest)) self ->
    s = BFS ->
    pdqpq.contains (frontier self) succ = false ->
    succ ∉ explored self ->
    succ = goal self ->
    reach s start_state (Found node succ)
          (set_parents self (<[succ := Some node]> (parents self))).

(** What visiting a successor does to the solver when the loop goes on:
    nothing, a first discovery, or the replacement of a frontier item. *)
Inductive visit_effect (node succ : Board) (self self' : Solver) : Prop :=
| effect_skip :
    self' = self ->
    visit_effect node succ self self'
| effect_new c :
    succ ∉ explored self ->
    pdqpq.contains (frontier self) succ = false ->
    self' = mkSolver (goal self) (<[succ := Some node]> (parents self))
                     (pdqpq.add (frontier self) succ c) (explored self)
                     (frontier_count self + 1) (expanded_count self) ->
    visit_effect node succ self self'
| effect_replace c :
    succ ∉ explored self ->
    pdqpq.contains (frontier self) succ = true ->
    self' = mkSolver (goal self) (<[succ := Some node]> (parents self))
                     (pdqpq.add (pdqpq.remove (frontier self) succ) succ c)
                     (explored self)
                     (frontier_count self) (expanded_count self) ->
    visit_effect node succ self self'.

(** The states ever added to the frontier, as a set. *)
Definition ever_added (self : Solver) : gset Board :=
  list_to_set (pdqpq.added (frontier self)).

(** The bookkeeping the counters rest on. *)
Record counted (self : Solver) : Prop := mkCounted {
  counted_nodup : NoDup (pdqpq.keys (frontier self));
  counted_disjoint : forall s, s ∈ pdqpq.keys (frontier self) -> s ∉ explored self;
  counted_added :
    ever_added self = list_to_set (pdqpq.keys (frontier self)) ∪ explored self;
  counted_frontier : frontier_count self = Z.of_nat (size (ever_added self));
  counted_expanded : expanded_count self = Z.of_nat (size (explored self))
}.

(** The shape of the parent map of a run: its states are layouts, every
    parent is an expanded state one slide away, every state has a walk to
    the root that does not repeat, and the frontier and the explored set
    have parents. *)
Record tree (self : Solver) : Prop := mkTree {
  tree_layout : forall s, is_Some (parents self !! s) -> puzz.is_layout s;
  tree_edge : forall s p, parents self !! s = Some (Some p) ->
    p ∈ explored self /\ exists move, (move, s) ∈ puzz.successors p;
  tree_chain : forall s, is_Some (parents self !! s) ->
    exists l, chain (parents self) s l /\ NoDup l;
  tree_frontier : forall s, s ∈ pdqpq.keys (frontier self) ->
    is_Some (parents self !! s);
  tree_explored : forall s, s ∈ explored self -> is_Some (parents self !! s)
}.

(** Every two neighbours of a list are related. *)
Inductive adjacent {A} (R : A -> A -> Prop) : list A -> Prop :=
| adjacent_nil : adjacent R []
| adjacent_one x : adjacent R [x]
| adjacent_cons x y l : R x y -> adjacent R (y :: l) -> adjacent R (x :: y :: l).

(** The four ways a run of [solve] on a fresh solver hands back a result:
    the start state is the goal; the frontier ran empty; the goal was
    popped (uniform-cost, greedy and A-star search); the goal was generated
    (breadth-first). *)
Inductive ends (s : strategy) (start_state : Board) (r : results) : Prop :=
| ends_trivial :
    start_state = goal (fresh s) ->
    BreadthFirstSolver.get_results_dict
      (BreadthFirstSolver.start (fresh s) start_state) (Some start_state) = Ok r ->
    ends s start_state r
| ends_failure self :
    reach s start_state Head self ->
    pdqpq.is_empty (frontier self) = true ->
    BreadthFirstSolver.get_results_dict self None = Ok r ->
    ends s start_state r
| ends_popped self node :
    reach s start_state (Expanded node) self ->
    tests_popped s = true ->
    node = goal self ->
    BreadthFirstSolver.get_results_dict self (Some node) = Ok r ->
    ends s start_state r
| ends_generated self node succ :
    reach s start_state (Found node succ) self ->
    s = BFS ->
    succ = goal self ->
    BreadthFirstSolver.get_results_dict self (Some succ) = Ok r ->
    ends s start_state r.

(** A solver that has been around: its explored set already holds the
    successors of the board 142375608. *)
Definition used_solver : Solver :=
  set_explored BreadthFirstSolver.__init__
    (list_to_set (puzz.successors (puzz.EightPuzzleBoard "142375608")).*2).

(** The solver a loop leaves behind, [self] when it does not leave one. *)
Definition left_by (self : Solver) (fl : res flow) : Solver :=
  match fl with
  | Ok (Next self') => self'
  | _ => self
  end.

(** What is known of the node in hand at each point of a run. *)
Definition at_point (pt : point) (self : Solver) : Prop :=
  match pt with
  | Expanded node => node ∈ explored self
  | Visiting node rest =>
      node ∈ explored self
      /\ forall move succ, (move, succ) ∈ rest -> (move, succ) ∈ puzz.successors node
  | _ => True
  end.

(** [n] turns of the [while] loop; [None] when one of them returns or
    raises. *)
Fixpoint turns (s : strategy) (n : nat) (self : Solver) : option Solver :=
  match n with
  | O => Some self
  | S n' =>
      match iteration_of s self with
      | Ok (Next self') => turns s n' self'
      | _ => None
      end
  end.

(** The solver after [pop] and [expand_node] and the visits of the first
    [k] successors of the node popped. *)
Definition into_turn (s : strategy) (k : nat) (self : Solver) : option (Board * Solver) :=
  match pdqpq.pop (frontier self) with
  | Ok (node, q) =>
      let self := (BreadthFirstSolver.expand_node (set_frontier self q) node).1 in
      match for_items (visit_of s node) self (take k (puzz.successors node)) with
      | Ok (Next self') => Some (node, self')
      | _ => None
      end
  | Raise _ => None
  end.

(** A run stopped after [n] turns and [k] visits of the next one. *)
Definition stopped (s : strategy) (start_state : Board) (n k : nat)
    : option (Board * Solver) :=
  self ← turns s n (BreadthFirstSolver.start (fresh s) start_state);
  into_turn s k self.

(** The solver of a run stopped on the way, the fresh one when the run
    does not get there. *)
Definition stopped_solver (s : strategy) (start_state : Board) (n k : nat) : Solver :=
  match stopped s start_state n k with
  | Some (_, self) => self
  | None => fresh s
  end.

(** Uniform-cost search from 048612753, stopped in its 26th turn before
    the last successor of the node popped, 648103725, is visited: the
    successor 648013725 is in the frontier at the cost 112, and costs 80
    through the node. *)
Definition replacing_solver : Solver :=
  stopped_solver UCS (puzz.EightPuzzleBoard "048612753") 25 3.

(** Breadth-first search from 102345678, stopped in its first turn before
    the last successor of the start state, the goal, is visited. *)
Definition generating_solver : Solver :=
  stopped_solver BFS (puzz.EightPuzzleBoard "102345678") 0 2.

(** A-star search with h1 from 102345678 after one turn: the goal is next
    to be popped. *)
Definition popping_solver : Solver :=
  default (fresh (AStar (Some "h1")))
    (turns (AStar (Some "h1")) 1
       (BreadthFirstSolver.start (fresh (AStar (Some "h1")))
          (puzz.EightPuzzleBoard "102345678"))).

(** The goal is neither in the frontier nor explored. *)
Definition goal_unseen (self : Solver) : Prop :=
  (goal self ∉ pdqpq.keys (frontier self)) /\ (goal self ∉ explored self).

(** The points of a run in and after the [while] loop. *)
Definition in_loop (pt : point) : Prop :=
  match pt with
  | Fresh | Started => False
  | _ => True
  end.

(** The sample start states of [get_test_puzzles]. *)
Definition get_test_puzzles : Board * Board * Board :=
  (puzz.EightPuzzleBoard "142375608",
   puzz.EightPuzzleBoard "314072685",
   puzz.EightPuzzleBoard "802356174").

(** The rows [print_table] prints for a result: length, cost, frontier,
    expanded. *)
Definition path_length (r : results) : option nat :=
  match r !! "path" with
  | Some (VPath p) => Some (length p)
  | _ => None
  end.

Definition table_column (r : res results)
    : res (option nat * option value * option value * option value) :=
  r ← r;
  Ok (path_length r, r !! "path_cost", r !! "frontier_count", r !! "expanded_count").

(** ** Vocabulary of the further properties *)

(** A sum over the cells of a board, of a term in the coordinate and the
    tile that stands there. *)
Definition cell_sum (f : Z * Z -> ascii -> Z) (state : Board) : Z :=
  Zsum ((fun c => f c (tile_at state c)) <$> coordinates).

(** The terms of the three heuristics for the tile [t] standing at [c]. *)
Definition misplaced (c : Z * Z) (t : ascii) : Z :=
  if decide (t <> puzz.blank /\ t <> tile_at GOAL_STATE c) then 1 else 0.

Definition distance (c : Z * Z) (t : ascii) : Z :=
  if decide (t <> puzz.blank) then manhattan c (goal_coordinate t) else 0.

Definition weighted_distance (c : Z * Z) (t : ascii) : Z :=
  tile_value t ^ 2 * manhattan c (goal_coordinate t).

(** h1 and h2 as the docstring of [solve_puzzle] names them: the count of
    misplaced tiles and the Manhattan distance, the blank left out. *)
Definition h1_spec (state : Board) : Z :=
  Z.of_nat (length (filter (fun c => tile_at state c <> puzz.blank
                                     /\ tile_at state c <> tile_at GOAL_STATE c)
                           coordinates)).

Definition h2_spec (state : Board) : Z :=
  Zsum ((fun c => manhattan c (goal_coordinate (tile_at state c)))
          <$> filter (fun c => tile_at state c <> puzz.blank) coordinates).

Definition valid_heur (heur : option string) : Prop :=
  heur = Some "h1" \/ heur = Some "h2" \/ heur = Some "h3".

(** The term of the heuristic a valid tag names. *)
Definition term_of (heur : option string) : Z * Z -> ascii -> Z :=
  if bool_decide (heur = Some "h1") then misplaced
  else if bool_decide (heur = Some "h2") then distance
  else weighted_distance.

(** An entry of a result path follows another: its move is legal on the
    state of the other and leads to its own state. *)
Definition legal_step (a b : option string * Board) : Prop :=
  exists move, b.1 = Some move /\ (move, b.2) ∈ puzz.successors a.2.

(** The states a search has met: those of the frontier and the explored
    ones. *)
Definition met (self : Solver) : gset Board :=
  list_to_set (pdqpq.keys (frontier self)) ∪ explored self.

(** The start state at a point of a run: explored, or alone in the
    frontier with nothing explored yet. *)
Definition start_seen (start_state : Board) (self : Solver) : Prop :=
  start_state ∈ explored self
  \/ (pdqpq.keys (frontier self) = [start_state] /\ explored self = ∅).

(** The strategies that replace a frontier item when they find a cheaper
    way to its state. *)
Definition tests_replace (s : strategy) : bool :=
  match s with
  | UCS | AStar _ => true
  | BFS | Greedy _ => false
  end.

(** What the priority [c] of a state [k] of the frontier is to each
    strategy: the cost of the path to it, its heuristic, or the sum of
    the two; the queue of breadth-first search has none. *)
Definition priority_of (s : strategy) (self : Solver) (k : Board) (c : Z) : Prop :=
  match s with
  | BFS => True
  | UCS => BreadthFirstSolver.get_cost self k = Ok c
  | Greedy heur => GreedySolver._heuristic k heur = Ok (Some c)
  | AStar heur =>
      exists g h,
        BreadthFirstSolver.get_cost self k = Ok g
        /\ GreedySolver._heuristic k heur = Ok (Some h)
        /\ c = g + h
  end.

(** The start state is added without a priority, the default 0. *)
Definition prioritised (s : strategy) (start_state : Board) (self : Solver) : Prop :=
  forall k c, (k, c) ∈ pdqpq.items (frontier self) ->
    if decide (k = start_state) then c = 0 else priority_of s self k c.

(** The strategies [solve_puzzle] documents: greedy and A-star search
    come with one of the heuristics h1, h2 and h3. *)
Definition valid_strategy (s : strategy) : Prop :=
  match s with
  | BFS | UCS => True
  | Greedy heur | AStar heur => valid_heur heur
  end.

(** All the layouts of the board. *)
Definition layouts : gset Board := list_to_set (permutations GOAL_STATE).

(** One legal move leads from [a] to [b]. *)
Definition move_step (a b : Board) : Prop :=
  exists move, (move, b) ∈ puzz.successors a.

(** Some sequence of legal moves leads from [a] to [b]. *)
Definition reachable (a b : Board) : Prop := rtc move_step a b.

(** The successors of the explored states have been met, but those the
    expansion in hand has not visited yet. *)
Definition closed (pt : point) (self : Solver) : Prop :=
  forall k move k', k ∈ explored self -> (move, k') ∈ puzz.successors k ->
    k' ∈ met self
    \/ match pt with
       | Expanded node => k = node
       | Visiting node rest => k = node /\ (move, k') ∈ rest
       | Found _ _ => True
       | _ => False
       end.

(** The goal is not explored, unless it is the node just popped. *)
Definition goal_kept (pt : point) (self : Solver) : Prop :=
  match pt with
  | Expanded node => forall k, k ∈ explored self -> k = goal self -> k = node
  | Found _ _ => True
  | _ => goal self ∉ explored self
  end.

(** Following the parents from [s] comes, after [n] states that have
    one, to a state the parent map has no entry for. *)
Inductive dangling (ps : gmap Board (option Board)) : Board -> nat -> Prop :=
| dangling_here s :
    ps !! s = None -> dangling ps s 0
| dangling_step s p n :
    ps !! s = Some (Some p) -> dangling ps p n -> dangling ps s (S n).

(** The number of dashes of a flavor tag. *)
Definition dashes (flavor : string) : nat :=
  length (filter (fun c => c = "-"%char) (list_ascii_of_string flavor)).

(** The strategy the [if] chain of [solve_puzzle] picks for a tag. *)
Definition strategy_named (strat : string) (heur : option string) : option strategy :=
  if bool_decide (strat = "bfs") then Some BFS
  else if bool_decide (strat = "ucost") then Some UCS
  else if bool_decide (strat = "greedy") then Some (Greedy heur)
  else if bool_decide (strat = "astar") then Some (AStar heur)
  else None.

(** The search [solve_puzzle] runs once the flavor is taken apart. *)
Definition run (fuel : nat) (start_state : Board) (strat : string)
    (heur : option string) : res results :=
  match strategy_named strat heur with
  | Some s => solve_of s (fresh s) fuel start_state
  | None => Raise ValueError
  end.

(** The flavors the script runs for the argument [all], those the
    docstring of [solve_puzzle] lists. *)
Definition flavors : list string :=
  ["bfs"; "ucost"; "greedy-h1"; "greedy-h2"; "greedy-h3";
   "astar-h1"; "astar-h2"; "astar-h3"].

(** [n] legal moves lead from [a] to [b]. *)
Inductive steps : nat -> Board -> Board -> Prop :=
| steps_none a : steps 0 a a
| steps_more n a b c : steps n a b -> move_step b c -> steps (S n) a c.

(** The number of moves of the walk from [k] to the root of the parent
    map. *)
Definition depth (ps : gmap Board (option Board)) (k : Board) (d : nat) : Prop :=
  exists l, chain ps k l /\ length l = S d.

(** Breadth-first search at level [L]: the explored states are no deeper
    than [L]; the frontier holds states of depth [L] and behind them
    states of depth [L + 1]; the depth of a state met is the least number
    of moves that lead to it; and the states up to [L] moves away have
    been met. *)
Record bfs_level (start_state : Board) (L : nat) (self : Solver) : Prop := mkLevel {
  level_explored : forall e, e ∈ explored self ->
    exists d, depth (parents self) e d /\ (d <= L)%nat;
  level_frontier : exists F1 F2,
    pdqpq.keys (frontier self) = F1 ++ F2
    /\ (forall k, k ∈ F1 -> depth (parents self) k L)
    /\ (forall k, k ∈ F2 -> depth (parents self) k (S L));
  level_optimal : forall x, x ∈ met self ->
    exists d, depth (parents self) x d
      /\ forall n, steps n start_state x -> (d <= n)%nat;
  level_covered : forall n x, steps n start_state x -> (n <= L)%nat -> x ∈ met self
}.

Definition bfs_inv (start_state : Board) (pt : point) (self : Solver) : Prop :=
  match pt with
  | Fresh | Found _ _ => True
  | Started | Head => exists L, bfs_level start_state L self
  | Expanded node | Visiting node _ =>
      exists L, bfs_level start_state L self /\ depth (parents self) node L
  end.

(** A sequence of legal moves from [a] to [b], and the sum of the squares
    of the tiles it moves. *)
Inductive costs (a : Board) : Z -> Board -> Prop :=
| costs_none : costs a 0 a
| costs_more c b move succ t :
    costs a c b -> (move, succ) ∈ puzz.successors b -> slides b move succ t ->
    costs a (c + tile_value t ^ 2) succ.

(** The expansion in hand has not visited this successor yet. *)
Definition pending (pt : point) (e : Board) (move : string) (y : Board) : Prop :=
  match pt with
  | Expanded node => e = node
  | Visiting node rest => e = node /\ (move, y) ∈ rest
  | _ => False
  end.

(** Uniform-cost search along a run: no sequence of moves to an explored
    state costs less than the path to it in the parent map; and the cost
    of a state of the frontier is at most that of an explored state it is
    a successor of, plus the cost of the move. *)
Record ucs_inv (start_state : Board) (pt : point) (self : Solver) : Prop := mkUcs {
  ucs_explored : forall e c, e ∈ explored self -> costs start_state c e ->
    exists g, BreadthFirstSolver.get_cost self e = Ok g /\ g <= c;
  ucs_relaxed : forall e move y t,
    e ∈ explored self -> (move, y) ∈ puzz.successors e -> slides e move y t ->
    y ∈ pdqpq.keys (frontier self) ->
    pending pt e move y
    \/ exists ge gy,
         BreadthFirstSolver.get_cost self e = Ok ge
         /\ BreadthFirstSolver.get_cost self y = Ok gy
         /\ gy <= ge + tile_value t ^ 2
}.

(** * Properties *)

(** ** The result monad *)

Lemma bind_Ok {A B} (m : res A) (f : A -> res B) (b : B) :
  m ≫= f = Ok b <-> exists a, m = Ok a /\ f a = Ok b.
Proof.
  destruct m as [a|e]; simpl; split.
  - intros H. by exists a.
  - by intros (a' & [= <-] & H).
  - discriminate.
  - by intros (a' & [=] & _).
Qed.

Lemma of_option_Ok {A} (e : exn) (o : option A) (a : A) :
  of_option e o = Ok a <-> o = Some a.
Proof. destruct o; simpl; split; congruence. Qed.

(** ** Boards *)

Section board_facts.
Import puzz.

Lemma layout_length (b : Board) : is_layout b -> length b = 9%nat.
Proof. unfold is_layout. intros H. by rewrite H. Qed.

Lemma layout_NoDup (b : Board) : is_layout b -> NoDup b.
Proof.
  unfold is_layout. intros H. rewrite H. apply (bool_decide_unpack _). by vm_compute.
Qed.

Lemma layout_elem (b : Board) (t : ascii) :
  is_layout b -> t ∈ b <-> t ∈ GOAL_STATE.
Proof. unfold is_layout. intros H. by rewrite H. Qed.

Lemma layout_goal : is_layout GOAL_STATE.
Proof. unfold is_layout, GOAL_STATE. reflexivity. Qed.

(** The digit a tile of a layout stands for. *)
Lemma goal_tile_int (t : ascii) :
  t ∈ GOAL_STATE -> exists n, int t = Ok n /\ 0 <= n <= 8 /\ (n = 0 <-> t = blank).
Proof.
  unfold GOAL_STATE, EightPuzzleBoard. simpl. intros H.
  repeat (apply elem_of_cons in H as [-> | H];
          [eexists; split; [vm_compute; reflexivity |];
           split; [lia | unfold blank; split; intros [=]; done] |]).
  by apply elem_of_nil in H.
Qed.

Lemma pos_coords (pos : nat) :
  (pos < 9)%nat ->
  let x := Z.of_nat pos mod 3 in
  let y := 2 - Z.of_nat pos / 3 in
  in_board x y = true /\ cell x y = pos.
Proof.
  intros H. do 9 (destruct pos as [|pos]; [by vm_compute |]). lia.
Qed.

Lemma cell_lt (x y : Z) : in_board x y = true -> (cell x y < 9)%nat.
Proof. unfold in_board, cell. intros H. lia. Qed.

Lemma cell_inj (x y x' y' : Z) :
  in_board x y = true -> in_board x' y' = true ->
  cell x y = cell x' y' -> x = x' /\ y = y'.
Proof. unfold in_board, cell. intros H H'. lia. Qed.

(** Where the blank of a layout is, for [find(None)] and [find("0")]. *)
Lemma layout_blank (b : Board) :
  is_layout b ->
  exists pos, (pos < 9)%nat /\ b !! pos = Some blank
    /\ (forall j, b !! j = Some blank -> j = pos)
    /\ forall tile, default blank tile = blank ->
         find b tile = Ok (Z.of_nat pos mod 3, 2 - Z.of_nat pos / 3).
Proof.
  intros Hb.
  assert (blank ∈ b) as [pos Hpos]%list_elem_of_lookup.
  { apply (layout_elem b blank Hb). by vm_compute; left. }
  exists pos. split; [|split; [done|split]].
  - apply lookup_lt_Some in Hpos. by rewrite (layout_length b Hb) in Hpos.
  - intros j Hj. by apply (NoDup_lookup b j pos blank (layout_NoDup b Hb)).
  - intros tile Ht. unfold find. rewrite Ht.
    destruct (list_find (fun c => c = blank) b) as [[i c]|] eqn:Hf.
    + apply list_find_Some in Hf as (Hi & -> & _).
      by rewrite (NoDup_lookup b i pos blank (layout_NoDup b Hb) Hi Hpos).
    + apply list_find_None in Hf. rewrite Forall_forall in Hf.
      exfalso. apply (Hf blank); [|done]. by apply list_elem_of_lookup_2 in Hpos.
Qed.

End board_facts.

Section slide_facts.
Import puzz.

Lemma successors_offsets (b : Board) (move : string) (succ : Board) :
  (move, succ) ∈ successors b ->
  exists dx dy, (move, (dx, dy)) ∈ offsets /\ _create_successor b dx dy = Some succ.
Proof.
  unfold successors, success_up, success_down, success_left, success_right, entry.
  intros H.
  repeat (apply elem_of_app in H as [H | H]);
    [exists 0, (-1) | exists 0, 1 | exists 1, 0 | exists (-1), 0];
    (destruct (_create_successor b _ _) as [s|] eqn:E;
     [apply list_elem_of_singleton in H as [= -> ->]; split; [|done];
      unfold offsets; set_solver
     | by apply elem_of_nil in H]).
Qed.

Lemma create_successor_layout (b : Board) (move : string) (dx dy : Z) (succ : Board) :
  is_layout b ->
  (move, (dx, dy)) ∈ offsets ->
  _create_successor b dx dy = Some succ ->
  is_layout succ /\ exists t, slides b move succ t.
Proof.
  intros Hb Hoff Hs.
  destruct (layout_blank b Hb) as (pos & Hlt & Hpos & Huniq & Hfind).
  destruct (pos_coords pos Hlt) as [Hin Hcell].
  unfold _create_successor in Hs. rewrite (Hfind None eq_refl) in Hs.
  set (x := Z.of_nat pos mod 3) in *. set (y := 2 - Z.of_nat pos / 3) in *.
  destruct (get_tile b (x + dx) (y + dy)) as [t|] eqn:Ht; [|done].
  injection Hs as <-.
  unfold get_tile in Ht.
  destruct (in_board (x + dx) (y + dy)) eqn:Hin'; [|done].
  apply of_option_Ok in Ht.
  assert (cell (x + dx) (y + dy) <> pos) as Hne.
  { rewrite <- Hcell. intros Heq.
    apply cell_inj in Heq as [? ?]; [|done..].
    unfold offsets in Hoff.
    repeat (apply elem_of_cons in Hoff as [[= _ -> ->] | Hoff]; [lia |]).
    by apply elem_of_nil in Hoff. }
  unfold _set_tile. rewrite Hcell. split; [|exists t].
  - unfold is_layout. etrans; [|exact Hb].
    by apply Permutation_insert_swap.
  - exists x, y, dx, dy. repeat split; try done.
    + by apply Hfind.
    + by apply Hfind.
    + unfold get_tile. rewrite Hin'. by rewrite Ht.
    + unfold get_tile. rewrite Hin, Hcell.
      rewrite list_lookup_insert_ne by done.
      rewrite list_lookup_insert_eq; [done|].
      by rewrite (layout_length b Hb).
    + intros ->. by apply Huniq in Ht.
Qed.

Lemma successors_slides (b : Board) (move : string) (succ : Board) :
  is_layout b -> (move, succ) ∈ successors b ->
  is_layout succ /\ exists t, slides b move succ t.
Proof.
  intros Hb (dx & dy & Hoff & Hs)%successors_offsets.
  by apply (create_successor_layout b move dx dy).
Qed.
End slide_facts.

Section cost_facts.
Import puzz BreadthFirstSolver.

Lemma get_tile_elem (b : Board) (x y : Z) (t : ascii) :
  get_tile b x y = Ok t -> t ∈ b.
Proof.
  unfold get_tile. destruct (in_board x y); [|done].
  intros H%of_option_Ok. by apply list_elem_of_lookup_2 in H.
Qed.

Lemma slides_int (b : Board) (move : string) (succ : Board) (t : ascii) :
  is_layout b -> slides b move succ t ->
  exists n, int t = Ok n /\ 1 <= n <= 8.
Proof.
  intros Hb (x & y & dx & dy & _ & _ & _ & Ht & _ & Hne).
  apply get_tile_elem in Ht. apply (layout_elem b t Hb) in Ht.
  destruct (goal_tile_int t Ht) as (n & Hn & Hr & Hz).
  exists n. split; [done|]. assert (n <> 0) by (intros ?; apply Hne; by apply Hz). lia.
Qed.

Lemma slides_transition_cost (b : Board) (move : string) (succ : Board)
    (t : ascii) (n : Z) :
  slides b move succ t -> int t = Ok n ->
  UniformCostSolver._transition_cost b move = Ok (Some (n ^ 2)).
Proof.
  intros (x & y & dx & dy & Hoff & _ & Hf & Ht & _ & _) Hn.
  unfold UniformCostSolver._transition_cost. rewrite Hf. simpl.
  unfold offsets in Hoff.
  repeat (apply elem_of_cons in Hoff as [[= -> -> ->] | Hoff];
          [repeat (rewrite bool_decide_eq_false_2 by done);
           rewrite bool_decide_eq_true_2 by done;
           replace (y - 1) with (y + -1) by lia;
           replace (x - 1) with (x + -1) by lia;
           replace (y + 0) with y in Ht by lia; replace (x + 0) with x in Ht by lia;
           rewrite Ht; simpl; rewrite Hn; done |]).
  by apply elem_of_nil in Hoff.
Qed.

Lemma slides_cost_step (b : Board) (move : string) (succ : Board)
    (t : ascii) (n : Z) (path : list Board) (cost : Z) (i : nat) :
  slides b move succ t -> int t = Ok n ->
  path !! (i - 1)%nat = Some b -> path !! i = Some succ ->
  cost_step path cost i = Ok (cost + n ^ 2).
Proof.
  intros (x & y & dx & dy & _ & Hf & _ & _ & Ht & _) Hn Hp Hc.
  unfold cost_step. rewrite Hp. simpl. rewrite Hf. simpl.
  rewrite Hc. simpl. rewrite Ht. simpl. by rewrite Hn.
Qed.
End cost_facts.

(** C5: for a board and a move that has a successor, [_transition_cost]
    finds the blank, reads the tile next to it in the direction of the move
    and returns the square of its number; that tile is the one that slid
    into the place of the blank, so the value is the cost the loop of
    [get_cost] adds for the edge from the board to that successor. *)
Theorem transition_cost_is_edge_cost (state : Board) (move : string) (succ : Board) :
  puzz.is_layout state ->
  (move, succ) ∈ puzz.successors state ->
  exists t n,
    slides state move succ t
    /\ int t = Ok n /\ 1 <= n <= 8
    /\ UniformCostSolver._transition_cost state move = Ok (Some (n ^ 2))
    /\ forall path cost i,
         path !! (i - 1)%nat = Some state -> path !! i = Some succ ->
         BreadthFirstSolver.cost_step path cost i = Ok (cost + n ^ 2).
Proof.
  intros Hb Hs.
  destruct (successors_slides state move succ Hb Hs) as [_ [t Ht]].
  destruct (slides_int state move succ t Hb Ht) as (n & Hn & Hr).
  exists t, n. repeat split; try done; try lia.
  - by apply (slides_transition_cost state move succ t).
  - intros path cost i Hp Hc. by apply (slides_cost_step state move succ t).
Qed.

Lemma transition_cost_is_edge_cost_witness :
  exists t n,
    slides (puzz.EightPuzzleBoard "102345678") "right" GOAL_STATE t
    /\ int t = Ok n /\ 1 <= n <= 8
    /\ UniformCostSolver._transition_cost (puzz.EightPuzzleBoard "102345678") "right"
       = Ok (Some (n ^ 2))
    /\ forall path cost i,
         path !! (i - 1)%nat = Some (puzz.EightPuzzleBoard "102345678") ->
         path !! i = Some GOAL_STATE ->
         BreadthFirstSolver.cost_step path cost i = Ok (cost + n ^ 2).
Proof.
  apply (transition_cost_is_edge_cost (puzz.EightPuzzleBoard "102345678") "right" GOAL_STATE).
  - apply (bool_decide_unpack _). by vm_compute.
  - apply (bool_decide_unpack _). by vm_compute.
Defined.

Section heuristic_facts.
Import puzz GreedySolver.

Lemma goal_tile_facts (t : ascii) :
  t ∈ GOAL_STATE ->
  find GOAL_STATE (Some t) = Ok (goal_coordinate t)
  /\ int t = Ok (tile_value t)
  /\ (t = blank -> tile_value t = 0).
Proof.
  unfold GOAL_STATE, EightPuzzleBoard. simpl. intros H.
  repeat (apply elem_of_cons in H as [-> | H];
          [split; [by vm_compute | split; [by vm_compute | by intros [=]]] |]).
  by apply elem_of_nil in H.
Qed.

Lemma Zsum_filter {A} (f : A -> Z) (P : A -> Prop) `{!forall a, Decision (P a)}
    (l : list A) :
  (forall a, a ∈ l -> ~ P a -> f a = 0) ->
  Zsum (f <$> filter P l) = Zsum (f <$> l).
Proof.
  induction l as [|a l IH]; intros Hz; [done|].
  assert (Zsum (f <$> filter P l) = Zsum (f <$> l)) as IH'.
  { apply IH. intros a' ?. apply Hz. by right. }
  rewrite filter_cons. destruct (decide (P a)).
  - rewrite !fmap_cons. unfold Zsum in *. simpl. by rewrite IH'.
  - rewrite fmap_cons. unfold Zsum in *. simpl. rewrite IH'.
    rewrite (Hz a); [done | by left | done].
Qed.

Lemma worse_step (state : Board) (x y : nat) (acc : Z) :
  is_layout state -> in_board (Z.of_nat x) (Z.of_nat y) = true ->
  (cur_tile ← get_tile state (Z.of_nat x) (Z.of_nat y);
   '(x_coords, _) ← find GOAL_STATE (Some cur_tile);
   '(_, y_coords) ← find GOAL_STATE (Some cur_tile);
   let diff := abs_diff x x_coords + abs_diff y y_coords in
   num_tile ← int cur_tile;
   Ok (acc + num_tile ^ 2 * diff))
  = Ok (acc + weighted state (Z.of_nat x, Z.of_nat y)).
Proof.
  intros Hb Hin. unfold get_tile. rewrite Hin.
  destruct (state !! cell (Z.of_nat x) (Z.of_nat y)) as [t|] eqn:Ht.
  - assert (t ∈ GOAL_STATE) as Hg.
    { apply (layout_elem state t Hb). by apply list_elem_of_lookup_2 in Ht. }
    destruct (goal_tile_facts t Hg) as (Hf & Hi & _).
    simpl. rewrite Hf. simpl. destruct (goal_coordinate t) as [gx gy] eqn:Hgc.
    simpl. rewrite Hi. simpl.
    unfold weighted, tile_at, manhattan, abs_diff. simpl. rewrite Ht. simpl.
    by rewrite Hgc.
  - apply lookup_ge_None in Ht. rewrite (layout_length state Hb) in Ht.
    pose proof (cell_lt _ _ Hin). lia.
Qed.

Lemma for_acc_ext {A B} (body body' : B -> A -> res B) (acc : B) (l : list A) :
  (forall acc i, i ∈ l -> body acc i = body' acc i) ->
  for_acc body acc l = for_acc body' acc l.
Proof.
  revert acc. induction l as [|i l IH]; intros acc Hb; [done|].
  simpl. rewrite Hb by left. destruct (body' acc i); simpl; [|done].
  apply IH. intros acc' j ?. apply Hb. by right.
Qed.

Lemma for_acc_sum {A} (f : A -> Z) (acc : Z) (l : list A) :
  for_acc (fun acc i => Ok (acc + f i)) acc l = Ok (acc + Zsum (f <$> l)).
Proof.
  revert acc. induction l as [|i l IH]; intros acc.
  - unfold Zsum. simpl. f_equal. lia.
  - transitivity (for_acc (fun acc i => Ok (acc + f i)) (acc + f i) l); [done|].
    rewrite IH, fmap_cons. unfold Zsum. rewrite foldr_cons. f_equal. lia.
Qed.
End heuristic_facts.

(** C4: on every board, h3 ([_worse_manhattan]) is the sum, over the tiles
    that are not the blank, of the squared tile value times the Manhattan
    distance of the tile from its goal coordinate; the term of the blank
    is zero. *)
Theorem worse_manhattan_spec (state : Board) :
  puzz.is_layout state ->
  GreedySolver._worse_manhattan state = Ok (h3_spec state)
  /\ forall c, tile_at state c = puzz.blank -> weighted state c = 0.
Proof.
  intros Hb.
  assert (forall c, tile_at state c = puzz.blank -> weighted state c = 0) as Hz.
  { intros c Hc. unfold weighted. rewrite Hc. by vm_compute. }
  split; [|done].
  unfold h3_spec. rewrite Zsum_filter.
  2:{ intros c _ Hc. apply Hz. by apply dec_stable in Hc. }
  unfold GreedySolver._worse_manhattan.
  rewrite (for_acc_ext _ (fun acc x =>
             Ok (acc + Zsum ((fun y => weighted state (Z.of_nat x, Z.of_nat y))
                             <$> range 0 3)))).
  - rewrite for_acc_sum. generalize (weighted state). intros w.
    unfold coordinates, Zsum, range. simpl. f_equal.
    change (Z.of_nat 0) with 0. change (Z.of_nat 1) with 1. change (Z.of_nat 2) with 2.
    lia.
  - intros acc x Hx. rewrite <- for_acc_sum. apply for_acc_ext.
    intros acc' y Hy. apply worse_step; [done|].
    apply elem_of_seq in Hx, Hy. unfold puzz.in_board. lia.
Qed.

Lemma worse_manhattan_spec_witness :
  GreedySolver._worse_manhattan (puzz.EightPuzzleBoard "142375608")
  = Ok (h3_spec (puzz.EightPuzzleBoard "142375608"))
  /\ forall c, tile_at (puzz.EightPuzzleBoard "142375608") c = puzz.blank ->
       weighted (puzz.EightPuzzleBoard "142375608") c = 0.
Proof.
  apply (worse_manhattan_spec (puzz.EightPuzzleBoard "142375608")).
  apply (bool_decide_unpack _). by vm_compute.
Defined.

(** ** Paths through the parent map *)

Section path_facts.
Import BreadthFirstSolver.
Implicit Types (ps : gmap Board (option Board)) (s : Board) (l : list Board).

Lemma walk_chain ps s l (fuel : nat) (acc : list Board) :
  chain ps s l -> (length l <= fuel)%nat ->
  walk fuel ps (Some s) acc = Ok (acc ++ l).
Proof.
  intros Hc. revert fuel acc.
  induction Hc as [s Hs | s p l Hs Hc IH]; intros fuel acc Hlen;
    (destruct fuel as [|fuel]; [simpl in Hlen; lia |]); simpl; rewrite Hs.
  - by destruct fuel.
  - rewrite IH by (simpl in Hlen; lia). by rewrite <- app_assoc.
Qed.

Lemma walk_inv (fuel : nat) ps s (acc r : list Board) :
  walk fuel ps (Some s) acc = Ok r -> exists l, r = acc ++ l /\ chain ps s l.
Proof.
  revert s acc. induction fuel as [|fuel IH]; intros s acc; simpl; [done|].
  destruct (ps !! s) as [[p|]|] eqn:Hs; [| |done].
  - intros (l & -> & Hl)%IH. exists (s :: l). split.
    + by rewrite <- app_assoc.
    + by apply (chain_step ps s p).
  - destruct fuel; simpl; intros [= <-]; exists [s]; split; try done;
      by apply chain_root.
Qed.

Lemma chain_head ps s l : chain ps s l -> exists l', l = s :: l'.
Proof. destruct 1; eauto. Qed.

Lemma chain_dom ps s l x : chain ps s l -> x ∈ l -> is_Some (ps !! x).
Proof.
  induction 1 as [s Hs | s p l Hs Hc IH]; intros Hx.
  - apply list_elem_of_singleton in Hx as ->. eauto.
  - apply elem_of_cons in Hx as [-> | Hx]; eauto.
Qed.

Lemma chain_unique ps s l l' : chain ps s l -> chain ps s l' -> l = l'.
Proof.
  intros Hc. revert l'. induction Hc as [s Hs | s p l Hs Hc IH];
    intros l' Hc'; destruct Hc' as [s Hs' | s p' l' Hs' Hc']; try congruence.
  assert (p' = p) as -> by congruence. f_equal. by apply IH.
Qed.

Lemma chain_length ps s l :
  chain ps s l -> NoDup l -> (length l <= size ps)%nat.
Proof.
  intros Hc Hnd.
  rewrite <- (size_dom (D := gset Board)).
  rewrite <- (size_list_to_set (C := gset Board) l Hnd).
  apply subseteq_size. intros x Hx. apply elem_of_list_to_set in Hx.
  apply elem_of_dom. by apply (chain_dom ps s l).
Qed.

Lemma get_path_chain (self : Solver) s l :
  chain (parents self) s l -> NoDup l ->
  get_path self (Some s) = Ok (reverse l).
Proof.
  intros Hc Hnd. unfold get_path.
  rewrite (walk_chain _ s l); [done | done |].
  pose proof (chain_length _ s l Hc Hnd). lia.
Qed.

Lemma get_path_inv (self : Solver) s (path : list Board) :
  get_path self (Some s) = Ok path ->
  exists l, path = reverse l /\ chain (parents self) s l.
Proof.
  unfold get_path. intros (r & Hw & [= <-])%bind_Ok.
  apply walk_inv in Hw as (l & -> & Hl). by exists l.
Qed.

(** A chain keeps its walk when the parent of a state off it changes. *)
Lemma chain_insert ps s l (x : Board) (v : option Board) :
  chain ps s l -> x ∉ l -> chain (<[x := v]> ps) s l.
Proof.
  induction 1 as [s Hs | s p l Hs Hc IH]; intros Hx.
  - apply chain_root. rewrite lookup_insert_ne; [done|]. set_solver.
  - apply (chain_step _ s p).
    + rewrite lookup_insert_ne; [done|]. set_solver.
    + apply IH. set_solver.
Qed.

Lemma chain_adjacent ps s l :
  chain ps s l -> adjacent (fun a b => ps !! a = Some (Some b)) l.
Proof.
  induction 1 as [s Hs | s p l Hs Hc IH]; [constructor|].
  destruct (chain_head ps p l Hc) as [l' ->]. by constructor.
Qed.
End path_facts.

Section adjacent_facts.
Context {A : Type}.
Implicit Types R : A -> A -> Prop.

Lemma adjacent_snoc R (l : list A) (x y : A) :
  adjacent R (l ++ [x]) -> R x y -> adjacent R (l ++ [x; y]).
Proof.
  induction l as [|a l IH]; simpl; intros Hl Hxy.
  - constructor; [done | constructor].
  - destruct l as [|b l]; simpl in *.
    + inversion Hl; subst. constructor; [done|]. constructor; [done | constructor].
    + inversion Hl; subst. constructor; [done|]. by apply IH.
Qed.

Lemma adjacent_reverse R (l : list A) :
  adjacent R l -> adjacent (flip R) (reverse l).
Proof.
  induction 1 as [|x|x y l Hxy Hl IH]; [constructor | constructor |].
  rewrite reverse_cons in IH. rewrite !reverse_cons, <- app_assoc. simpl.
  by apply adjacent_snoc.
Qed.

Lemma adjacent_pairs R (l : list A) :
  adjacent R l -> Forall (fun pq => R pq.1 pq.2) (zip l (tail l)).
Proof.
  induction 1 as [|x|x y l Hxy Hl IH]; simpl; [constructor | constructor |].
  constructor; [done|]. exact IH.
Qed.
End adjacent_facts.

(** ** The cost of a path *)

Section cost_loop.
Import BreadthFirstSolver.

Lemma for_acc_cons {A B} (body : B -> A -> res B) (acc : B) (i : A) (l : list A) :
  for_acc body acc (i :: l) = body acc i ≫= fun acc' => for_acc body acc' l.
Proof. done. Qed.

Lemma cost_step_middle (done_ : list Board) (p q : Board) (rest : list Board) (acc : Z) :
  cost_step (done_ ++ p :: q :: rest) acc (S (length done_))
  = t ← moved_tile p q; n ← int t; Ok (acc + n ^ 2).
Proof.
  unfold cost_step, moved_tile.
  replace (S (length done_) - 1)%nat with (length done_) by lia.
  rewrite (list_lookup_middle done_ (q :: rest) p (length done_)) by done.
  replace (done_ ++ p :: q :: rest) with ((done_ ++ [p]) ++ q :: rest)
    by (by rewrite <- app_assoc).
  rewrite (list_lookup_middle (done_ ++ [p]) rest q (S (length done_)))
    by (rewrite length_app; simpl; lia).
  simpl. destruct (puzz.find p None) as [[x y]|]; simpl; [|done].
  by destruct (puzz.get_tile q x y) as [t|].
Qed.

Lemma cost_loop_pairs (done_ : list Board) (p : Board) (rest : list Board) (acc : Z) :
  for_acc (cost_step (done_ ++ p :: rest)) acc
          (seq (S (length done_)) (length rest))
  = for_acc (fun cost pq => t ← moved_tile pq.1 pq.2; n ← int t; Ok (cost + n ^ 2))
            acc (zip (p :: rest) rest).
Proof.
  revert done_ p acc. induction rest as [|q rest IH]; intros done_ p acc; [done|].
  change (zip (p :: q :: rest) (q :: rest)) with ((p, q) :: zip (q :: rest) rest).
  cbn [length seq]. rewrite !for_acc_cons, cost_step_middle. cbn [fst snd].
  destruct (t ← moved_tile p q; n ← int t; Ok (acc + n ^ 2)) as [acc'|]; [|done].
  simpl mbind at 1. cbn [res_bind].
  specialize (IH (done_ ++ [p]) q acc').
  rewrite length_app, <- app_assoc in IH. simpl in IH.
  replace (length done_ + 1)%nat with (S (length done_)) in IH by lia.
  exact IH.
Qed.

(** [get_cost] adds up over the consecutive pairs of the path. *)
Lemma get_cost_pairs (self : Solver) (s : Board) :
  get_cost self s = path ← get_path self (Some s); path_cost_spec path.
Proof.
  unfold get_cost. destruct (get_path self (Some s)) as [path|]; simpl; [|done].
  destruct path as [|p rest]; [done|].
  unfold range, path_cost_spec, pairs. simpl length. simpl tail.
  replace (S (length rest) - 1)%nat with (length rest) by lia.
  apply (cost_loop_pairs [] p rest 0).
Qed.

(** Along slides the tile that moved is never the blank. *)
Lemma path_cost_slides (path : list Board) (acc : Z) :
  Forall (fun pq => puzz.is_layout pq.1 /\ exists move, (move, pq.2) ∈ puzz.successors pq.1)
         (pairs path) ->
  exists tiles,
    Forall2 (fun pq t => moved_tile pq.1 pq.2 = Ok t /\ t <> puzz.blank)
            (pairs path) tiles
    /\ for_acc (fun cost pq => t ← moved_tile pq.1 pq.2; n ← int t; Ok (cost + n ^ 2))
               acc (pairs path)
       = Ok (acc + Zsum ((fun t => tile_value t ^ 2) <$> tiles)).
Proof.
  generalize (pairs path). intros l. revert acc.
  induction l as [|[p q] l IH]; intros acc Hl.
  - exists []. split; [constructor|]. unfold Zsum. simpl. f_equal. lia.
  - apply Forall_cons in Hl as [[Hp [move Hm]] Hl]. simpl in Hp, Hm.
    destruct (successors_slides p move q Hp Hm) as [_ [t Ht]].
    destruct (slides_int p move q t Hp Ht) as (n & Hn & _).
    assert (moved_tile p q = Ok t /\ t <> puzz.blank) as [Hmt Hne].
    { destruct Ht as (x & y & dx & dy & _ & Hf & _ & _ & Hg & Hne).
      split; [|done]. unfold moved_tile. rewrite Hf. done. }
    assert (n = tile_value t) as ->.
    { unfold int in Hn. unfold tile_value. by case_match; simplify_eq. }
    destruct (IH (acc + tile_value t ^ 2) Hl) as (tiles & Hts & Hsum).
    exists (t :: tiles). split; [by constructor|].
    etrans; [|etrans; [exact Hsum|]].
    + rewrite for_acc_cons. cbn [fst snd]. rewrite Hmt. simpl. by rewrite Hn.
    + rewrite fmap_cons. unfold Zsum. rewrite foldr_cons. f_equal. lia.
Qed.
End cost_loop.

(** ** What a visit does *)

Ltac invert_bind :=
  repeat match goal with
         | H : _ ≫= _ = Ok _ |- _ => apply bind_Ok in H as (? & ? & H)
         end.

Section visit_facts.
Import BreadthFirstSolver.

Lemma visit_next (s : strategy) (node : Board) (self : Solver)
    (move : string) (succ : Board) (self' : Solver) :
  visit_of s node self move succ = Ok (Next self') ->
  visit_effect node succ self self'.
Proof.
  destruct s as [| |heur|heur]; simpl.
  - unfold visit.
    destruct (pdqpq.contains (frontier self) succ) eqn:Hc; simpl.
    { intros [= <-]. by apply effect_skip. }
    case_bool_decide as He; simpl.
    { intros [= <-]. by apply effect_skip. }
    case_bool_decide as Hg; [intros H; by invert_bind|].
    intros [= <-]. by apply (effect_new _ _ _ _ 0).
  - unfold UniformCostSolver.visit. intros H. invert_bind.
    case_bool_decide as He; [injection H as <-; by apply effect_skip|].
    destruct (pdqpq.contains (frontier self) succ) eqn:Hc.
    + invert_bind. case_match.
      * invert_bind. injection H as <-. by eapply effect_replace.
      * injection H as <-. by apply effect_skip.
    + invert_bind. injection H as <-. by eapply effect_new.
  - unfold GreedySolver.visit.
    destruct (pdqpq.contains (frontier self) succ) eqn:Hc; simpl.
    { intros [= <-]. by apply effect_skip. }
    case_bool_decide as He; simpl.
    { intros [= <-]. by apply effect_skip. }
    intros H. invert_bind. injection H as <-.
    unfold GreedySolver.add_value in *. case_match; [|done]. simplify_eq.
    by eapply effect_new.
  - unfold AStarSolver.visit.
    case_bool_decide as He; simpl; [intros [= <-]; by apply effect_skip|].
    destruct (pdqpq.contains (frontier self) succ) eqn:Hc.
    + intros H. invert_bind. case_match.
      * injection H as <-. by eapply effect_replace.
      * injection H as <-. by apply effect_skip.
    + intros H. invert_bind. injection H as <-. by eapply effect_new.
Qed.

(** Only breadth-first search returns from inside the [for] loop: on a
    successor that is new and the goal. *)
Lemma visit_return (s : strategy) (node : Board) (self : Solver)
    (move : string) (succ : Board) (r : results) :
  visit_of s node self move succ = Ok (Return r) ->
  s = BFS /\ (pdqpq.contains (frontier self) succ = false)
  /\ (succ ∉ explored self) /\ succ = goal self
  /\ get_results_dict (set_parents self (<[succ := Some node]> (parents self)))
                      (Some succ) = Ok r.
Proof.
  destruct s as [| |heur|heur]; simpl.
  - unfold visit.
    destruct (pdqpq.contains (frontier self) succ) eqn:Hc; simpl; [done|].
    case_bool_decide as He; simpl; [done|].
    case_bool_decide as Hg; [|done].
    intros (r' & Hr & [= <-])%bind_Ok. by repeat split.
  - unfold UniformCostSolver.visit. intros H. invert_bind.
    repeat (case_bool_decide || case_match || invert_bind); done.
  - unfold GreedySolver.visit. intros H.
    repeat (case_bool_decide || case_match || invert_bind || simpl in H); done.
  - unfold AStarSolver.visit. intros H.
    repeat (case_bool_decide || case_match || invert_bind || simpl in H); done.
Qed.
End visit_facts.

(** ** The frontier *)

Section frontier_facts.
Import pdqpq.
Implicit Types (q : Queue) (s k : Board).

Lemma contains_true q s : contains q s = true <-> s ∈ keys q.
Proof. unfold contains. by rewrite bool_decide_eq_true. Qed.

Lemma contains_false q s : contains q s = false <-> s ∉ keys q.
Proof. unfold contains. by rewrite bool_decide_eq_false. Qed.

Lemma elem_of_keys_filter (P : Board * Z -> Prop) `{!forall e, Decision (P e)}
    (l : list (Board * Z)) k :
  k ∈ (filter P l).*1 -> k ∈ l.*1.
Proof.
  intros ([k' c] & -> & [_ He]%list_elem_of_filter)%list_elem_of_fmap.
  apply list_elem_of_fmap. by exists (k', c).
Qed.

Lemma NoDup_keys_filter (P : Board * Z -> Prop) `{!forall e, Decision (P e)}
    (l : list (Board * Z)) :
  NoDup l.*1 -> NoDup (filter P l).*1.
Proof.
  induction l as [|e l IH]; [done|]. rewrite fmap_cons, filter_cons.
  intros [Hne Hnd]%NoDup_cons. destruct (decide (P e)); [|by apply IH].
  rewrite fmap_cons. apply NoDup_cons. split; [|by apply IH].
  intros Hin. apply Hne. by apply elem_of_keys_filter in Hin.
Qed.

Lemma elem_of_keys_remove q s k : k ∈ keys (remove q s) <-> k ∈ keys q /\ k <> s.
Proof.
  unfold keys, remove. simpl. rewrite !list_elem_of_fmap. split.
  - intros ([k' c] & -> & [Hne He]%list_elem_of_filter). split; [|done].
    by exists (k', c).
  - intros [([k' c] & -> & He) Hne]. exists (k', c). split; [done|].
    by apply list_elem_of_filter.
Qed.

Lemma NoDup_keys_remove q s : NoDup (keys q) -> NoDup (keys (remove q s)).
Proof. apply NoDup_keys_filter. Qed.

Lemma added_remove q s : added (remove q s) = added q.
Proof. done. Qed.

Lemma keys_remove_absent q s : s ∉ keys q -> keys (remove q s) = keys q.
Proof.
  unfold keys, remove. simpl. intros Hs. f_equal.
  induction (items q) as [|e l IH]; [done|].
  rewrite fmap_cons in Hs. apply not_elem_of_cons in Hs as [Hne Hs].
  rewrite filter_cons. rewrite decide_True by done. f_equal. by apply IH.
Qed.

Lemma keys_add q s (c : Z) : s ∉ keys q -> keys (add q s c) = keys q ++ [s].
Proof.
  intros Hs. unfold add. destruct (fifo q); unfold keys at 1; simpl.
  - by rewrite fmap_app.
  - rewrite fmap_app. simpl. f_equal. by apply keys_remove_absent.
Qed.

Lemma added_add q s (c : Z) : added (add q s c) = added q ++ [s].
Proof. unfold add. by destruct (fifo q). Qed.

Lemma least_elem (best : Board * Z) (l : list (Board * Z)) :
  least best l ∈ best :: l.
Proof.
  revert best. induction l as [|e l IH]; intros best; simpl; [by left|].
  specialize (IH (if e.2 <? best.2 then e else best)).
  apply elem_of_cons in IH as [-> | IH].
  - case_match; [right; by left | by left].
  - right. by right.
Qed.

(** The state popped was in the frontier; what is left is the frontier
    without it. *)
Lemma pop_keys q (node : Board) q' :
  pop q = Ok (node, q') ->
  node ∈ keys q /\ added q' = added q
  /\ (NoDup (keys q) ->
      NoDup (keys q') /\ forall k, k ∈ keys q' <-> k ∈ keys q /\ k <> node).
Proof.
  unfold pop. destruct (items q) as [|e l] eqn:Hi; [done|].
  destruct (fifo q) eqn:Hf.
  - intros [= <- <-]. unfold keys. simpl. rewrite Hi, fmap_cons.
    split; [by left|]. split; [done|].
    intros [Hne Hnd]%NoDup_cons. split; [done|]. intros k.
    rewrite elem_of_cons. split; [|tauto]. intros Hk. split; [by right|].
    by intros ->.
  - intros [= <- <-]. split; [|split; [done|]].
    + unfold keys. rewrite Hi. apply list_elem_of_fmap.
      exists (least e l). split; [done|]. apply least_elem.
    + intros Hnd. split; [by apply NoDup_keys_remove|].
      intros k. apply elem_of_keys_remove.
Qed.

Lemma is_empty_keys q : is_empty q = true <-> keys q = [].
Proof.
  unfold is_empty, keys. rewrite bool_decide_eq_true.
  destruct (items q); [done|]. split; discriminate.
Qed.
End frontier_facts.

(** ** The counters *)

Section counting.
Import BreadthFirstSolver.

Lemma size_add_fresh (X : gset Board) (s : Board) :
  s ∉ X -> size (X ∪ {[s]}) = S (size X).
Proof.
  intros Hs. rewrite size_union by set_solver. rewrite size_singleton. lia.
Qed.

Lemma counted_fresh (s : strategy) : counted (fresh s).
Proof.
  destruct s; (split; simpl; [constructor | set_solver | set_solver | done | done]).
Qed.

Lemma counted_new (self : Solver) (ps : gmap Board (option Board))
    (succ : Board) (c : Z) :
  counted self ->
  succ ∉ explored self -> succ ∉ pdqpq.keys (frontier self) ->
  counted (mkSolver (goal self) ps (pdqpq.add (frontier self) succ c)
                    (explored self) (frontier_count self + 1)
                    (expanded_count self)).
Proof.
  intros [Hnd Hdis Hadd Hfc Hec] He Hk.
  assert (succ ∉ ever_added self) as Hfresh by (rewrite Hadd; set_solver).
  assert (ever_added (mkSolver (goal self) ps (pdqpq.add (frontier self) succ c)
                        (explored self) (frontier_count self + 1)
                        (expanded_count self))
          = ever_added self ∪ {[succ]}) as Hev.
  { unfold ever_added. simpl. rewrite added_add, list_to_set_app_L. set_solver. }
  split; simpl.
  - rewrite keys_add by done. apply NoDup_app. split; [done|].
    split; [|apply NoDup_singleton]. set_solver.
  - rewrite keys_add by done. set_solver.
  - rewrite Hev, Hadd, keys_add by done. rewrite list_to_set_app_L. set_solver.
  - rewrite Hev, size_add_fresh by done. lia.
  - done.
Qed.

Lemma counted_start (s : strategy) (start_state : Board) :
  counted (start (fresh s) start_state).
Proof.
  pose proof (counted_new (fresh s) (<[start_state := None]> (parents (fresh s)))
                start_state 0 (counted_fresh s)) as H.
  destruct s; apply H; set_solver.
Qed.

Lemma counted_expand (self : Solver) (node : Board) (q : pdqpq.Queue) :
  counted self -> pdqpq.pop (frontier self) = Ok (node, q) ->
  counted (expand_node (set_frontier self q) node).1.
Proof.
  intros [Hnd Hdis Hadd Hfc Hec] (Hin & Ha & Hk)%pop_keys.
  destruct (Hk Hnd) as [Hnd' Hk']. clear Hk.
  split; unfold ever_added in *; simpl.
  - done.
  - intros k [Hk Hne]%Hk'. apply Hdis in Hk. set_solver.
  - rewrite Ha, Hadd. apply set_eq. intros k.
    rewrite !elem_of_union, !elem_of_list_to_set, Hk', elem_of_singleton.
    destruct (decide (k = node)) as [->|]; tauto.
  - by rewrite Ha.
  - rewrite Hec. rewrite (union_comm_L {[node]}), size_add_fresh by auto. lia.
Qed.

Lemma counted_effect (node succ : Board) (self self' : Solver) :
  counted self -> visit_effect node succ self self' -> counted self'.
Proof.
  intros Hc [-> | c He Hk -> | c He Hk ->]; [done | |].
  - apply counted_new; [done | done | by apply contains_false].
  - destruct Hc as [Hnd Hdis Hadd Hfc Hec]. apply contains_true in Hk.
    assert (succ ∉ pdqpq.keys (pdqpq.remove (frontier self) succ)) as Hs.
    { rewrite elem_of_keys_remove. tauto. }
    split; unfold ever_added in *; simpl.
    + rewrite keys_add by done. apply NoDup_app.
      split; [by apply NoDup_keys_remove|]. split; [|apply NoDup_singleton].
      set_solver.
    + rewrite keys_add by done. intros k [Hin | ->%list_elem_of_singleton]%elem_of_app;
        [|done]. apply elem_of_keys_remove in Hin as [Hin _]. by apply Hdis.
    + rewrite added_add, added_remove, keys_add by done.
      rewrite !list_to_set_app_L, Hadd. apply set_eq. intros k.
      rewrite !elem_of_union, !elem_of_list_to_set, elem_of_keys_remove.
      rewrite !list_elem_of_singleton.
      destruct (decide (k = succ)) as [->|]; tauto.
    + rewrite added_add, added_remove, list_to_set_app_L, Hfc. do 2 f_equal.
      rewrite Hadd. set_solver.
    + done.
Qed.

Lemma reach_counted (s : strategy) (start_state : Board) (pt : point)
    (self : Solver) :
  reach s start_state pt self -> counted self.
Proof.
  induction 1 as [| |self Hr IH Hne|self node q Hr IH He Hp|self node Hr IH Hg
                  |self node move succ rest self' Hr IH Hv|self node Hr IH
                  |self node move succ rest Hr IH Hb Hc He Hg]; try done.
  - apply counted_fresh.
  - apply counted_start.
  - by apply counted_expand.
  - apply visit_next in Hv. by apply (counted_effect node succ self).
  - by destruct IH.
Qed.

Lemma counted_bounds (self : Solver) :
  counted self -> 0 <= expanded_count self <= frontier_count self.
Proof.
  intros [Hnd Hdis Hadd Hfc Hec]. rewrite Hfc, Hec. split; [lia|].
  apply inj_le. apply subseteq_size. rewrite Hadd. set_solver.
Qed.
End counting.

(** ** How a run ends *)

Section run_facts.
Import BreadthFirstSolver.

Lemma results_failure (self : Solver) :
  get_results_dict self None = Ok (failure self).
Proof. done. Qed.

Lemma results_counters (self : Solver) (state : option Board) (r : results) :
  get_results_dict self state = Ok r ->
  r !! "frontier_count" = Some (VInt (frontier_count self))
  /\ r !! "expanded_count" = Some (VInt (expanded_count self)).
Proof.
  unfold get_results_dict. destruct state as [s|].
  - intros (c & _ & (path & _ & (moves & _ & [= <-])%bind_Ok)%bind_Ok)%bind_Ok.
    by split.
  - by intros [= <-].
Qed.

Lemma solve_of_unfold (s : strategy) (self : Solver) (fuel : nat)
    (start_state : Board) :
  solve_of s self fuel start_state
  = let self := start self start_state in
    if bool_decide (start_state = goal self) then
      get_results_dict self (Some start_state)
    else fl ← while_frontier fuel (iteration_of s) self; finish fl.
Proof. by destruct s. Qed.

Lemma iteration_of_unfold (s : strategy) (self : Solver) :
  iteration_of s self
  = '(node, q) ← pdqpq.pop (frontier self);
    let self := (expand_node (set_frontier self q) node).1 in
    if tests_popped s && bool_decide (node = goal self) then
      r ← get_results_dict self (Some node); Ok (Return r)
    else for_items (visit_of s node) self (puzz.successors node).
Proof.
  destruct s; unfold iteration_of, iteration, UniformCostSolver.iteration,
    GreedySolver.iteration, AStarSolver.iteration;
    by destruct (pdqpq.pop (frontier self)) as [[node q]|].
Qed.

Lemma goal_fresh (s : strategy) : goal (fresh s) = GOAL_STATE.
Proof. by destruct s. Qed.

Lemma goal_effect (node succ : Board) (self self' : Solver) :
  visit_effect node succ self self' -> goal self' = goal self.
Proof. by intros [-> | c _ _ -> | c _ _ ->]. Qed.

Lemma reach_goal (s : strategy) (start_state : Board) (pt : point) (self : Solver) :
  reach s start_state pt self -> goal self = GOAL_STATE.
Proof.
  induction 1 as [| |self Hr IH Hne|self node q Hr IH He Hp|self node Hr IH Hg
                  |self node move succ rest self' Hr IH Hv|self node Hr IH
                  |self node move succ rest Hr IH Hb Hc He Hg]; try done.
  - apply goal_fresh.
  - apply goal_fresh.
  - apply visit_next, goal_effect in Hv. congruence.
Qed.

Lemma for_items_run (s : strategy) (start_state node : Board)
    (succs : list (string * Board)) (self : Solver) (fl : flow) :
  reach s start_state (Visiting node succs) self ->
  for_items (visit_of s node) self succs = Ok fl ->
  match fl with
  | Next self' => reach s start_state (Visiting node []) self'
  | Return r => ends s start_state r
  end.
Proof.
  revert self. induction succs as [|[move succ] rest IH]; intros self Hr; simpl.
  - by intros [= <-].
  - intros ([r | self'] & Hv & Hf)%bind_Ok.
    + injection Hf as <-.
      apply visit_return in Hv as (-> & Hc & He & Hg & Hres).
      apply (ends_generated BFS start_state r
               (set_parents self (<[succ := Some node]> (parents self))) node succ);
        try done.
      by apply (reach_found BFS start_state self node move succ rest).
    + apply (IH self'); [|done].
      by apply (reach_visit s start_state self node move succ rest).
Qed.

Lemma while_run (s : strategy) (start_state : Board) (fuel : nat)
    (self : Solver) (fl : flow) :
  reach s start_state Head self ->
  while_frontier fuel (iteration_of s) self = Ok fl ->
  match fl with
  | Next self' =>
      reach s start_state Head self' /\ pdqpq.is_empty (frontier self') = true
  | Return r => ends s start_state r
  end.
Proof.
  revert self. induction fuel as [|fuel IH]; intros self Hr; simpl;
    destruct (pdqpq.is_empty (frontier self)) eqn:He;
    try (intros [= <-]; by split); try done.
  intros (fl' & Hit & Hw)%bind_Ok. rewrite iteration_of_unfold in Hit.
  apply bind_Ok in Hit as ([node q] & Hp & Hit).
  pose proof (reach_expanded s start_state self node q Hr He Hp) as Hx.
  set (self1 := (expand_node (set_frontier self q) node).1) in *.
  cbv zeta in Hit. fold self1 in Hit.
  destruct (tests_popped s && bool_decide (node = goal self1)) eqn:Ht.
  - apply andb_prop in Ht as [Ht Hg%bool_decide_eq_true].
    apply bind_Ok in Hit as (r & Hres & [= <-]). injection Hw as <-.
    by apply (ends_popped s start_state r self1 node).
  - assert (reach s start_state (Visiting node (puzz.successors node)) self1) as Hv.
    { apply reach_visiting; [done|]. intros Htp. rewrite Htp in Ht.
      by apply bool_decide_eq_false in Ht. }
    pose proof (for_items_run s start_state node _ self1 fl' Hv Hit) as Hfl.
    destruct fl' as [r | self'].
    + by injection Hw as <-.
    + apply (IH self'); [|done]. by apply (reach_next s start_state self' node).
Qed.

(** Every result of a run on a fresh solver comes about in one of the
    four ways. *)
Lemma solve_ends (s : strategy) (fuel : nat) (start_state : Board) (r : results) :
  solve_of s (fresh s) fuel start_state = Ok r -> ends s start_state r.
Proof.
  rewrite solve_of_unfold. cbv zeta.
  assert (goal (start (fresh s) start_state) = goal (fresh s)) as Hg by done.
  case_bool_decide as Hsg.
  - intros Hres. apply ends_trivial; [congruence | done].
  - intros (fl & Hw & Hf)%bind_Ok.
    assert (reach s start_state Head (start (fresh s) start_state)) as Hr.
    { apply reach_head; [apply reach_started | done]. }
    pose proof (while_run s start_state fuel _ fl Hr Hw) as Hfl.
    destruct fl as [r' | self']; simpl in Hf.
    + by injection Hf as <-.
    + destruct Hfl as [Hr' He']. by apply (ends_failure s start_state r self').
Qed.
End run_facts.

(** ** The claims on the counters and on failure *)

(** C8: at every point of a run of any strategy from any start state, and
    in the result, both counters are non-negative and [frontier_count] is at
    least [expanded_count]; [frontier_count] is the number of distinct
    states ever added to the frontier, and a visit that finds its successor
    in the frontier (where uniform-cost and A-star search may remove and
    re-add it) leaves the counter as it is. *)
Theorem counters_invariant (s : strategy) (start_state : Board) (pt : point)
    (self : Solver) :
  reach s start_state pt self ->
  0 <= expanded_count self <= frontier_count self
  /\ frontier_count self = Z.of_nat (size (ever_added self))
  /\ (forall node move succ rest self',
        pt = Visiting node ((move, succ) :: rest) ->
        visit_of s node self move succ = Ok (Next self') ->
        pdqpq.contains (frontier self) succ = true ->
        frontier_count self' = frontier_count self
        /\ ever_added self' = ever_added self)
  /\ (forall fuel r,
        solve_of s (fresh s) fuel start_state = Ok r ->
        exists fc ec,
          r !! "frontier_count" = Some (VInt fc)
          /\ r !! "expanded_count" = Some (VInt ec)
          /\ 0 <= ec <= fc).
Proof.
  intros Hr. pose proof (reach_counted s start_state pt self Hr) as Hc.
  split; [by apply counted_bounds|]. split; [by destruct Hc|]. split.
  - intros node move succ rest self' -> Hv Hin.
    assert (counted self') as Hc'.
    { apply (reach_counted s start_state (Visiting node rest)).
      by apply (reach_visit s start_state self node move succ rest). }
    apply visit_next in Hv as [-> | c _ Hk _ | c _ _ ->]; [done | congruence |].
    split; [done|]. unfold ever_added. simpl. rewrite added_add, added_remove.
    rewrite list_to_set_app_L.
    assert (succ ∈ ever_added self) as Hs.
    { destruct Hc as [_ _ -> _ _]. apply contains_true in Hin. set_solver. }
    unfold ever_added in Hs. set_solver.
  - intros fuel r Hs. apply solve_ends in Hs.
    assert (forall self' state, counted self' ->
              BreadthFirstSolver.get_results_dict self' state = Ok r ->
              exists fc ec, r !! "frontier_count" = Some (VInt fc)
                /\ r !! "expanded_count" = Some (VInt ec) /\ 0 <= ec <= fc) as Hres.
    { intros self' state Hc' [Hf He]%results_counters.
      exists (frontier_count self'), (expanded_count self').
      split; [done|]. split; [done|]. by apply counted_bounds. }
    destruct Hs as [_ Hd | self' Hr' _ Hd | self' node Hr' _ _ Hd
                    | self' node succ Hr' _ _ Hd].
    + apply (Hres _ _ (counted_start s start_state) Hd).
    + apply (Hres _ _ (reach_counted _ _ _ _ Hr') Hd).
    + apply (Hres _ _ (reach_counted _ _ _ _ Hr') Hd).
    + apply (Hres _ _ (reach_counted _ _ _ _ Hr') Hd).
Qed.

Lemma while_next_empty (fuel : nat) (body : Solver -> res flow) (self self' : Solver) :
  while_frontier fuel body self = Ok (Next self') ->
  pdqpq.is_empty (frontier self') = true.
Proof.
  revert self. induction fuel as [|fuel IH]; intros self; simpl;
    destruct (pdqpq.is_empty (frontier self)) eqn:He; try done;
    try (by intros [= <-]).
  intros ([r | self1] & Hb & Hw)%bind_Ok; [done|]. by apply (IH self1).
Qed.

(** C7: on every strategy, when the loop of [solve] ends because the
    frontier is empty, no goal having been returned, [solve] returns
    normally a dictionary without 'path' and 'path_cost' that holds the
    final 'frontier_count' and 'expanded_count'. *)
Theorem exhausted_frontier_result (s : strategy) (self : Solver) (fuel : nat)
    (start_state : Board) (self' : Solver) :
  start_state <> goal self ->
  while_frontier fuel (iteration_of s) (BreadthFirstSolver.start self start_state)
  = Ok (Next self') ->
  pdqpq.is_empty (frontier self') = true
  /\ exists r,
       solve_of s self fuel start_state = Ok r
       /\ r !! "path" = None
       /\ r !! "path_cost" = None
       /\ r !! "frontier_count" = Some (VInt (frontier_count self'))
       /\ r !! "expanded_count" = Some (VInt (expanded_count self'))
       /\ dom r = {["frontier_count"; "expanded_count"]}.
Proof.
  intros Hne Hw. split; [by apply while_next_empty in Hw|].
  exists (failure self'). rewrite solve_of_unfold. cbv zeta.
  rewrite bool_decide_eq_false_2 by done. rewrite Hw. simpl.
  repeat split; done.
Qed.

Lemma exhausted_frontier_result_witness :
  let start_state := puzz.EightPuzzleBoard "142375608" in
  let self' :=
    left_by used_solver
      (while_frontier 1 (iteration_of BFS)
         (BreadthFirstSolver.start used_solver start_state)) in
  pdqpq.is_empty (frontier self') = true
  /\ exists r,
       solve_of BFS used_solver 1 start_state = Ok r
       /\ r !! "path" = None
       /\ r !! "path_cost" = None
       /\ r !! "frontier_count" = Some (VInt (frontier_count self'))
       /\ r !! "expanded_count" = Some (VInt (expanded_count self'))
       /\ dom r = {["frontier_count"; "expanded_count"]}.
Proof.
  apply (exhausted_frontier_result BFS used_solver 1 (puzz.EightPuzzleBoard "142375608")).
  - by vm_compute.
  - by vm_compute.
Defined.

(** ** The start state is the goal *)

Section trivial_run.
Import BreadthFirstSolver.

Lemma get_path_root (self : Solver) (s : Board) :
  parents self !! s = Some None -> get_path self (Some s) = Ok [s].
Proof.
  intros Hs. rewrite (get_path_chain self s [s]); [done | |].
  - by apply chain_root.
  - apply NoDup_singleton.
Qed.

Lemma results_root (self : Solver) (s : Board) :
  parents self !! s = Some None ->
  get_results_dict self (Some s) = Ok (trivial_success self s).
Proof.
  intros Hs. unfold get_results_dict, get_cost.
  rewrite (get_path_root self s Hs). done.
Qed.
End trivial_run.

(** C9: on every strategy, with any heuristic, when the start state is the
    goal state [solve] returns a success whose path is the single pair
    ('start', start_state) and whose path cost is 0. *)
Theorem start_is_goal (s : strategy) (self : Solver) (fuel : nat)
    (start_state : Board) :
  start_state = goal self ->
  exists r,
    solve_of s self fuel start_state = Ok r
    /\ r !! "path" = Some (VPath [(Some "start", start_state)])
    /\ r !! "path_cost" = Some (VInt 0)
    /\ r !! "frontier_count" = Some (VInt (frontier_count self + 1))
    /\ r !! "expanded_count" = Some (VInt (expanded_count self)).
Proof.
  intros Hg. exists (trivial_success (BreadthFirstSolver.start self start_state) start_state).
  rewrite solve_of_unfold. cbv zeta.
  rewrite bool_decide_eq_true_2 by done.
  rewrite results_root; [by repeat split|].
  unfold BreadthFirstSolver.start. simpl. apply lookup_insert_eq.
Qed.

Lemma start_is_goal_witness :
  exists r,
    solve_of (AStar (Some "h2")) (fresh (AStar (Some "h2"))) 0 GOAL_STATE = Ok r
    /\ r !! "path" = Some (VPath [(Some "start", GOAL_STATE)])
    /\ r !! "path_cost" = Some (VInt 0)
    /\ r !! "frontier_count" = Some (VInt (frontier_count (fresh (AStar (Some "h2"))) + 1))
    /\ r !! "expanded_count" = Some (VInt (expanded_count (fresh (AStar (Some "h2"))))).
Proof.
  apply (start_is_goal (AStar (Some "h2")) (fresh (AStar (Some "h2"))) 0 GOAL_STATE).
  reflexivity.
Defined.

(** C6 (the code departs from it): [_heuristic] answers a tag that is not
    h1, h2 or h3 with [None], raising nothing.  From the goal state,
    [solve_puzzle] with the tag h4 returns the success dictionary; from
    another state A-star search expands the start state and then fails on
    [int + None]. *)
Theorem invalid_heuristic_not_reported :
  (forall state, GreedySolver._heuristic state (Some "h4") = Ok None)
  /\ (forall fuel,
        solve_puzzle fuel GOAL_STATE "greedy-h4"
        = Ok (trivial_success
                (BreadthFirstSolver.start GreedySolver.__init__ GOAL_STATE) GOAL_STATE))
  /\ (forall fuel,
        solve_puzzle fuel GOAL_STATE "astar-h4"
        = Ok (trivial_success
                (BreadthFirstSolver.start AStarSolver.__init__ GOAL_STATE) GOAL_STATE))
  /\ solve_puzzle 1 (puzz.EightPuzzleBoard "102345678") "astar-h4" = Raise TypeError.
Proof.
  split; [done|]. split; [|split].
  - intros fuel. unfold solve_puzzle. simpl.
    change (solve_of (Greedy (Some "h4")) (fresh (Greedy (Some "h4"))) fuel GOAL_STATE = 
            Ok (trivial_success (BreadthFirstSolver.start GreedySolver.__init__ GOAL_STATE) GOAL_STATE)).
    rewrite solve_of_unfold. cbv zeta. rewrite bool_decide_eq_true_2 by done.
    by rewrite results_root.
  - intros fuel. unfold solve_puzzle. simpl.
    change (solve_of (AStar (Some "h4")) (fresh (AStar (Some "h4"))) fuel GOAL_STATE = 
            Ok (trivial_success (BreadthFirstSolver.start AStarSolver.__init__ GOAL_STATE) GOAL_STATE)).
    rewrite solve_of_unfold. cbv zeta. rewrite bool_decide_eq_true_2 by done.
    by rewrite results_root.
  - by vm_compute.
Qed.

(** ** The parent map of a run *)

Section tree_facts.
Import BreadthFirstSolver.

Lemma chain_explored (ps : gmap Board (option Board)) (ex : gset Board)
    (s : Board) (l : list Board) :
  (forall a p, ps !! a = Some (Some p) -> p ∈ ex) ->
  chain ps s l -> forall x, x ∈ tail l -> x ∈ ex.
Proof.
  intros Hex. induction 1 as [s Hs | s p l Hs Hc IH]; simpl; intros x Hx.
  - by apply elem_of_nil in Hx.
  - destruct (chain_head ps p l Hc) as [l' ->].
    apply elem_of_cons in Hx as [-> | Hx]; [by apply (Hex s)|]. by apply IH.
Qed.

Lemma tree_fresh (s : strategy) : tree (fresh s).
Proof.
  destruct s; (split; simpl;
    [intros ? [? [=]] | intros ? ? [=] | intros ? [? [=]]
    | intros ? []%elem_of_nil | set_solver]).
Qed.

(** Binding [succ] to the expanded [node] it is one slide away from. *)
Lemma tree_insert (self : Solver) (node succ : Board) (move : string)
    (q : pdqpq.Queue) (fc : Z) :
  tree self ->
  node ∈ explored self -> succ ∉ explored self ->
  (move, succ) ∈ puzz.successors node ->
  (forall k, k ∈ pdqpq.keys q -> k ∈ pdqpq.keys (frontier self) \/ k = succ) ->
  tree (mkSolver (goal self) (<[succ := Some node]> (parents self)) q
                 (explored self) fc (expanded_count self)).
Proof.
  intros [Hlay Hedge Hchain Hfr Hex] Hnode Hsucc Hmove Hq.
  assert (puzz.is_layout node) as Hln by (by apply Hlay, Hex).
  assert (forall s, is_Some (parents self !! s) ->
            is_Some (<[succ := Some node]> (parents self) !! s)) as Hmono.
  { intros s Hs. rewrite lookup_insert_is_Some. destruct (decide (succ = s)); auto. }
  assert (forall s l, chain (parents self) s l -> s <> succ ->
            chain (<[succ := Some node]> (parents self)) s l) as Hkeep.
  { intros s l Hc Hne. apply chain_insert; [done|].
    destruct (chain_head _ s l Hc) as [l' ->].
    apply not_elem_of_cons. split; [done|]. intros Hin. apply Hsucc.
    apply (chain_explored (parents self) (explored self) s (s :: l')); [|done..].
    intros a p Hap. by apply (Hedge a p). }
  split; simpl.
  - intros s [Hs | Hs]%lookup_insert_is_Some'.
    + subst. by apply (successors_slides node move s).
    + by apply Hlay.
  - intros s p. rewrite lookup_insert. case_decide as Hd.
    + intros [= <-]. subst. split; [done|]. by exists move.
    + apply Hedge.
  - intros s Hs. destruct (decide (s = succ)) as [-> | Hne].
    + destruct (Hchain node (Hex node Hnode)) as (l & Hc & Hnd).
      exists (succ :: l). split.
      * apply (chain_step _ succ node); [apply lookup_insert_eq|].
        apply Hkeep; [done|]. by intros ->.
      * apply NoDup_cons. split; [|done].
        destruct (chain_head _ node l Hc) as [l' ->].
        apply not_elem_of_cons. split; [by intros ->|]. intros Hin. apply Hsucc.
        apply (chain_explored (parents self) (explored self) node (node :: l'));
          [|done..]. intros a p Hap. by apply (Hedge a p).
    + rewrite lookup_insert_ne in Hs by done.
      destruct (Hchain s Hs) as (l & Hc & Hnd). exists l. split; [|done].
      by apply Hkeep.
  - intros k [Hk | ->]%Hq; [by apply Hmono, Hfr|].
    rewrite lookup_insert_eq. eauto.
  - intros k Hk. by apply Hmono, Hex.
Qed.

Lemma tree_start (s : strategy) (start_state : Board) :
  puzz.is_layout start_state -> tree (start (fresh s) start_state).
Proof.
  intros Hl.
  assert (parents (start (fresh s) start_state) = {[start_state := None]}) as Hp
    by (by destruct s).
  assert (pdqpq.keys (frontier (start (fresh s) start_state)) = [start_state]) as Hk
    by (by destruct s).
  assert (explored (start (fresh s) start_state) = ∅) as He by (by destruct s).
  split; rewrite ?Hp, ?Hk, ?He.
  - intros k [v [<- _]%lookup_singleton_Some]. done.
  - intros k p [_ [=]]%lookup_singleton_Some.
  - intros k [v [<- _]%lookup_singleton_Some]. exists [start_state].
    split; [|apply NoDup_singleton]. apply chain_root. apply lookup_singleton_eq.
  - intros k ->%list_elem_of_singleton. rewrite lookup_singleton_eq. eauto.
  - set_solver.
Qed.

Lemma tree_expand (self : Solver) (node : Board) (q : pdqpq.Queue) :
  tree self -> NoDup (pdqpq.keys (frontier self)) ->
  pdqpq.pop (frontier self) = Ok (node, q) ->
  tree (expand_node (set_frontier self q) node).1
  /\ node ∈ explored (expand_node (set_frontier self q) node).1.
Proof.
  intros [Hlay Hedge Hchain Hfr Hex] Hnd (Hin & _ & Hk)%pop_keys.
  destruct (Hk Hnd) as [_ Hk']. split; [|simpl; set_solver].
  split; simpl; try done.
  - intros s p Hs. destruct (Hedge s p Hs) as [Hp Hm]. split; [set_solver | done].
  - intros k [Hk'' _]%Hk'. by apply Hfr.
  - intros k [->%elem_of_singleton | Hk'']%elem_of_union; [by apply Hfr | by apply Hex].
Qed.

Lemma tree_effect (node succ : Board) (move : string) (self self' : Solver) :
  tree self -> node ∈ explored self ->
  (move, succ) ∈ puzz.successors node ->
  visit_effect node succ self self' -> tree self'.
Proof.
  intros Ht Hn Hm [-> | c He Hk -> | c He Hk ->]; [done | |].
  - apply (tree_insert self node succ move); try done.
    intros k. apply contains_false in Hk. rewrite keys_add by done.
    rewrite elem_of_app, list_elem_of_singleton. tauto.
  - apply (tree_insert self node succ move); try done.
    intros k. rewrite keys_add by (rewrite elem_of_keys_remove; tauto).
    rewrite elem_of_app, list_elem_of_singleton, elem_of_keys_remove. tauto.
Qed.

End tree_facts.

Section reach_facts.
Import BreadthFirstSolver.

Lemma explored_effect (node succ : Board) (self self' : Solver) :
  visit_effect node succ self self' -> explored self' = explored self.
Proof. by intros [-> | c _ _ -> | c _ _ ->]. Qed.

Lemma reach_tree (s : strategy) (start_state : Board) (pt : point) (self : Solver) :
  puzz.is_layout start_state ->
  reach s start_state pt self -> tree self /\ at_point pt self.
Proof.
  intros Hl.
  induction 1 as [| |self Hr IH Hne|self node q Hr IH He Hp|self node Hr IH Hg
                  |self node move succ rest self' Hr IH Hv|self node Hr IH
                  |self node move succ rest Hr IH Hb Hc He Hg]; simpl.
  - split; [apply tree_fresh | done].
  - split; [by apply tree_start | done].
  - by destruct IH.
  - destruct IH as [Ht _]. apply tree_expand; [done | | done].
    by destruct (reach_counted _ _ _ _ Hr).
  - destruct IH as [Ht Hn]. done.
  - destruct IH as [Ht [Hn Hrest]]. apply visit_next in Hv.
    split; [|split].
    + apply (tree_effect node succ move self); try done. apply Hrest. by left.
    + by rewrite (explored_effect node succ self self').
    + intros m sc Hin. apply Hrest. by right.
  - destruct IH as [Ht _]. done.
  - destruct IH as [Ht [Hn Hrest]]. split; [|done].
    apply (tree_insert self node succ move (frontier self) (frontier_count self));
      try done; [apply Hrest; by left | intros k Hk; by left].
Qed.

(** The only state without a parent is the start state. *)
Lemma reach_root (s : strategy) (start_state : Board) (pt : point) (self : Solver) :
  reach s start_state pt self ->
  forall k, parents self !! k = Some None -> k = start_state.
Proof.
  induction 1 as [| |self Hr IH Hne|self node q Hr IH He Hp|self node Hr IH Hg
                  |self node move succ rest self' Hr IH Hv|self node Hr IH
                  |self node move succ rest Hr IH Hb Hc He Hg];
    try done.
  - by destruct s.
  - intros k. assert (parents (start (fresh s) start_state) = {[start_state := None]})
      as -> by (by destruct s).
    by intros [<- _]%lookup_singleton_Some.
  - apply visit_next in Hv as [-> | c _ _ -> | c _ _ ->]; [done | |]; simpl;
      intros k; rewrite lookup_insert; case_decide; try done; apply IH.
  - simpl. intros k. rewrite lookup_insert. case_decide; try done. apply IH.
Qed.

Lemma reach_fifo (s : strategy) (start_state : Board) (pt : point) (self : Solver) :
  reach s start_state pt self ->
  pdqpq.fifo (frontier self) = negb (tests_popped s).
Proof.
  induction 1 as [| |self Hr IH Hne|self node q Hr IH He Hp|self node Hr IH Hg
                  |self node move succ rest self' Hr IH Hv|self node Hr IH
                  |self node move succ rest Hr IH Hb Hc He Hg];
    try done.
  - by destruct s.
  - by destruct s.
  - simpl. unfold pdqpq.pop in Hp. destruct (pdqpq.items (frontier self)); [done|].
    destruct (pdqpq.fifo (frontier self)) eqn:Hf; injection Hp as _ <-; simpl; congruence.
  - apply visit_next in Hv as [-> | c _ _ -> | c _ _ ->]; [done | |]; simpl;
      unfold pdqpq.add; simpl; by destruct (pdqpq.fifo (frontier self)).
Qed.

Lemma chain_last (ps : gmap Board (option Board)) (s : Board) (l : list Board) :
  chain ps s l -> exists root, last l = Some root /\ ps !! root = Some None.
Proof.
  induction 1 as [s Hs | s p l Hs Hc (root & Hl & Hr)]; [by exists s|].
  exists root. split; [|done]. destruct (chain_head ps p l Hc) as [l' ->]. done.
Qed.

(** In the parent map of a run every state has a path, the cost loop
    succeeds on it, and no step of it moves the blank. *)
Lemma tree_cost (self : Solver) (s : Board) :
  tree self -> is_Some (parents self !! s) ->
  exists path tiles,
    get_path self (Some s) = Ok path
    /\ last path = Some s
    /\ (exists root, head path = Some root /\ parents self !! root = Some None)
    /\ Forall2 (fun pq t => moved_tile pq.1 pq.2 = Ok t /\ t <> puzz.blank)
               (pairs path) tiles
    /\ get_cost self s = Ok (Zsum ((fun t => tile_value t ^ 2) <$> tiles)).
Proof.
  intros [Hlay Hedge Hchain Hfr Hex] Hs.
  destruct (Hchain s Hs) as (l & Hc & Hnd).
  assert (Forall (fun pq => puzz.is_layout pq.1
                   /\ exists move, (move, pq.2) ∈ puzz.successors pq.1)
                 (pairs (reverse l))) as Hpairs.
  { pose proof (adjacent_pairs _ _
                  (adjacent_reverse _ _ (chain_adjacent _ _ _ Hc))) as Hadj.
    eapply Forall_impl; [exact Hadj|]. intros [p q]. simpl. unfold flip.
    intros Hq. destruct (Hedge q p Hq) as [Hp Hm]. split; [|done].
    by apply Hlay, Hex. }
  destruct (path_cost_slides (reverse l) 0 Hpairs) as (tiles & Hts & Hsum).
  exists (reverse l), tiles. split; [by apply get_path_chain|].
  destruct (chain_head _ _ _ Hc) as [l' ->].
  split; [by rewrite reverse_cons, last_snoc|].
  split.
  { destruct (chain_last _ _ _ Hc) as (root & Hl & Hr). exists root.
    split; [|done]. by rewrite head_reverse. }
  split; [done|].
  rewrite get_cost_pairs, (get_path_chain self s (s :: l')) by done.
  simpl. unfold path_cost_spec. by rewrite Hsum.
Qed.

Lemma comprehension_Ok {A B} (f : A -> res B) (l : list A) :
  (forall i, i ∈ l -> exists b, f i = Ok b) ->
  exists bs, comprehension f l = Ok bs /\ length bs = length l.
Proof.
  induction l as [|i l IH]; intros Hf; [by exists []|].
  destruct (Hf i) as [b Hb]; [by left|].
  destruct IH as (bs & Hbs & Hlen); [intros j Hj; apply Hf; by right|].
  exists (b :: bs). simpl. rewrite Hb. simpl. rewrite Hbs. simpl.
  split; [done | by rewrite Hlen].
Qed.

(** Where the cost is defined so is the result dictionary. *)
Lemma results_success (self : Solver) (s : Board) (path : list Board) (cost : Z) :
  get_path self (Some s) = Ok path -> get_cost self s = Ok cost ->
  exists r moves,
    get_results_dict self (Some s) = Ok r
    /\ length moves = (length path - 1)%nat
    /\ r !! "path" = Some (VPath (zip (Some "start" :: moves) path))
    /\ r !! "path_cost" = Some (VInt cost)
    /\ r !! "frontier_count" = Some (VInt (frontier_count self))
    /\ r !! "expanded_count" = Some (VInt (expanded_count self)).
Proof.
  intros Hp Hc. unfold get_results_dict. rewrite Hc, Hp. simpl.
  destruct (comprehension_Ok
              (fun i => prev ← of_option IndexError (path !! (i - 1)%nat);
                        cur ← of_option IndexError (path !! i);
                        Ok (puzz.get_move prev cur))
              (range 1 (length path))) as (moves & Hm & Hlen).
  { intros i [Hlo Hhi]%elem_of_seq.
    destruct (lookup_lt_is_Some_2 path (i - 1)%nat) as [a Ha]; [lia|].
    destruct (lookup_lt_is_Some_2 path i) as [b Hb]; [lia|].
    rewrite Ha, Hb. simpl. eauto. }
  rewrite Hm. simpl. eexists _, moves. split; [done|].
  unfold range in Hlen. rewrite length_seq in Hlen. by repeat split.
Qed.
End reach_facts.

(** ** Uniform-cost search: visiting a successor *)

Section ucs_facts.
Import BreadthFirstSolver.

Lemma for_acc_app {A B} (body : B -> A -> res B) (acc : B) (l1 l2 : list A) :
  for_acc body acc (l1 ++ l2)
  = for_acc body acc l1 ≫= fun acc' => for_acc body acc' l2.
Proof.
  revert acc. induction l1 as [|i l1 IH]; intros acc; [done|].
  simpl. destruct (body acc i) as [acc'|]; simpl; [apply IH | done].
Qed.

Lemma pairs_snoc (l : list Board) (a b : Board) :
  pairs (l ++ [a; b]) = pairs (l ++ [a]) ++ [(a, b)].
Proof.
  unfold pairs. induction l as [|x l IH]; [done|].
  destruct l as [|y l]; [done|]. simpl in *. by rewrite IH.
Qed.

(** The cost of a state bound to [node]: the cost of [node] plus the
    cost of the slide. *)
Lemma get_cost_child (self self1 : Solver) (node succ : Board) (move : string)
    (t : ascii) (n g : Z) :
  tree self -> node ∈ explored self -> succ ∉ explored self ->
  slides node move succ t -> int t = Ok n ->
  get_cost self node = Ok g ->
  parents self1 = <[succ := Some node]> (parents self) ->
  get_cost self1 succ = Ok (g + n ^ 2).
Proof.
  intros Ht Hn Hs Hsl Hint Hg Hp.
  destruct Ht as [Hlay Hedge Hchain Hfr Hex].
  destruct (Hchain node (Hex node Hn)) as (l & Hc & Hnd).
  destruct (chain_head _ _ _ Hc) as [l' ->].
  assert (succ ∉ node :: l') as Hout.
  { apply not_elem_of_cons. split; [by intros ->|]. intros Hin. apply Hs.
    apply (chain_explored (parents self) (explored self) node (node :: l'));
      [|done..]. intros a p Hap. by apply (Hedge a p). }
  rewrite get_cost_pairs in Hg.
  rewrite (get_path_chain self node (node :: l') Hc Hnd) in Hg. simpl in Hg.
  rewrite get_cost_pairs.
  rewrite (get_path_chain self1 succ (succ :: node :: l')).
  - simpl. rewrite !reverse_cons, <- app_assoc. simpl.
    unfold path_cost_spec in *. rewrite pairs_snoc, for_acc_app.
    rewrite reverse_cons in Hg. rewrite Hg. simpl.
    destruct Hsl as (x & y & dx & dy & _ & Hf & _ & _ & Hq & _).
    unfold moved_tile. rewrite Hf. simpl. rewrite Hq. simpl. by rewrite Hint.
  - rewrite Hp. apply (chain_step _ succ node); [apply lookup_insert_eq|].
    by apply chain_insert.
  - by apply NoDup_cons.
Qed.

Lemma get_Some (q : pdqpq.Queue) (s : Board) :
  s ∈ pdqpq.keys q -> exists c, pdqpq.get q s = Ok c.
Proof.
  unfold pdqpq.keys, pdqpq.get. intros ([k c] & Heq & Hin)%list_elem_of_fmap.
  simpl in Heq. subst s.
  destruct (list_find_elem_of (fun e : Board * Z => e.1 = k) (pdqpq.items q) (k, c))
    as [[i e] ->]; [done | done | by exists e.2].
Qed.

Lemma get_add (q : pdqpq.Queue) (s : Board) (c : Z) :
  pdqpq.fifo q = false -> pdqpq.get (pdqpq.add q s c) s = Ok c.
Proof.
  intros Hf. unfold pdqpq.add, pdqpq.get. rewrite Hf. simpl.
  destruct (list_find _ _) as [[i e]|] eqn:Hfind.
  - apply list_find_Some in Hfind as (Hi & He & _).
    apply lookup_app_Some in Hi as [Hi | [_ Hi]].
    + apply list_elem_of_lookup_2, list_elem_of_filter in Hi as [Hne _]. done.
    + apply list_lookup_singleton_Some in Hi as [_ <-]. done.
  - apply list_find_None in Hfind. rewrite Forall_app, Forall_singleton in Hfind.
    by destruct Hfind as [_ Hfind].
Qed.

Lemma fifo_remove (q : pdqpq.Queue) (s : Board) :
  pdqpq.fifo (pdqpq.remove q s) = pdqpq.fifo q.
Proof. done. Qed.
End ucs_facts.

(** C1: in [UniformCostSolver.solve], for a generated successor that is not
    explored: when it is in the frontier with a stored priority strictly
    greater than the cost of the current node plus the transition cost of
    the move, it is removed and added again with that cheaper priority and
    its parent becomes the current node; when it is not in the frontier
    either, it is added with its path cost and [frontier_count] goes up by
    one. *)
Theorem ucs_visit_policy (start_state node succ : Board) (move : string)
    (rest : list (string * Board)) (self : Solver) :
  puzz.is_layout start_state ->
  reach UCS start_state (Visiting node ((move, succ) :: rest)) self ->
  succ ∉ explored self ->
  exists cost t alt_cost self',
    BreadthFirstSolver.get_cost self node = Ok cost
    /\ UniformCostSolver._transition_cost node move = Ok (Some t)
    /\ alt_cost = cost + t
    /\ UniformCostSolver.visit node self move succ = Ok (Next self')
    /\ (pdqpq.contains (frontier self) succ = true ->
        exists cur_front_cost,
          pdqpq.get (frontier self) succ = Ok cur_front_cost
          /\ (cur_front_cost > alt_cost ->
              frontier self'
              = pdqpq.add (pdqpq.remove (frontier self) succ) succ alt_cost
              /\ pdqpq.get (frontier self') succ = Ok alt_cost
              /\ parents self' = <[succ := Some node]> (parents self)
              /\ BreadthFirstSolver.get_cost self' succ = Ok alt_cost
              /\ frontier_count self' = frontier_count self)
          /\ (cur_front_cost <= alt_cost -> self' = self))
    /\ (pdqpq.contains (frontier self) succ = false ->
        frontier self' = pdqpq.add (frontier self) succ alt_cost
        /\ pdqpq.get (frontier self') succ = Ok alt_cost
        /\ parents self' = <[succ := Some node]> (parents self)
        /\ BreadthFirstSolver.get_cost self' succ = Ok alt_cost
        /\ frontier_count self' = frontier_count self + 1).
Proof.
  intros Hl Hr He.
  destruct (reach_tree UCS start_state _ self Hl Hr) as [Ht [Hn Hrest]].
  assert ((move, succ) ∈ puzz.successors node) as Hm by (apply Hrest; by left).
  pose proof (tree_explored self Ht node Hn) as Hnp.
  pose proof (tree_layout self Ht node Hnp) as Hln.
  destruct (tree_cost self node Ht Hnp) as (path & tiles & _ & _ & _ & _ & Hcost).
  set (cost := Zsum ((fun t => tile_value t ^ 2) <$> tiles)) in *.
  destruct (successors_slides node move succ Hln Hm) as [_ [t Hsl]].
  destruct (slides_int node move succ t Hln Hsl) as (n & Hint & _).
  pose proof (slides_transition_cost node move succ t n Hsl Hint) as Htc.
  pose proof (reach_fifo UCS start_state _ self Hr) as Hfifo. simpl in Hfifo.
  assert (forall self1, parents self1 = <[succ := Some node]> (parents self) ->
            BreadthFirstSolver.get_cost self1 succ = Ok (cost + n ^ 2)) as Hchild.
  { intros self1 Hp. by apply (get_cost_child self self1 node succ move t n cost). }
  exists cost, (n ^ 2), (cost + n ^ 2).
  unfold UniformCostSolver.visit. rewrite Hcost, Htc. simpl.
  rewrite bool_decide_eq_false_2 by done.
  destruct (pdqpq.contains (frontier self) succ) eqn:Hc.
  - destruct (get_Some (frontier self) succ) as [cur Hcur]; [by apply contains_true|].
    rewrite Hcur. simpl. destruct (cur >? cost + n ^ 2) eqn:Hgt.
    + rewrite Hchild by done. simpl. eexists. repeat split; try done.
      intros _. exists cur. split; [done|]. split; [|lia].
      intros _. simpl. repeat split; try done.
      * by apply get_add.
      * by apply Hchild.
    + exists self. repeat split; try done.
      intros _. exists cur. split; [done|]. split; [lia | done].
  - rewrite Hchild by done. simpl. eexists. repeat split; try done.
    + by apply get_add.
    + by apply Hchild.
Qed.

(** ** Runs stopped on the way *)

Section stopped_facts.
Import BreadthFirstSolver.

Lemma pop_nonempty (q : pdqpq.Queue) (x : Board * pdqpq.Queue) :
  pdqpq.pop q = Ok x -> pdqpq.is_empty q = false.
Proof.
  unfold pdqpq.pop, pdqpq.is_empty. destruct (pdqpq.items q); [done|].
  intros _. by apply bool_decide_eq_false.
Qed.

Lemma reach_prefix (s : strategy) (start_state node : Board)
    (pre rest : list (string * Board)) (self self' : Solver) :
  reach s start_state (Visiting node (pre ++ rest)) self ->
  for_items (visit_of s node) self pre = Ok (Next self') ->
  reach s start_state (Visiting node rest) self'.
Proof.
  revert self. induction pre as [|[move succ] pre IH]; intros self Hr; simpl.
  - by intros [= <-].
  - intros ([r | self1] & Hv & Hf)%bind_Ok; [done|].
    apply (IH self1); [|done].
    by apply (reach_visit s start_state self node move succ (pre ++ rest)).
Qed.

Lemma reach_iteration (s : strategy) (start_state : Board) (self self' : Solver) :
  reach s start_state Head self ->
  iteration_of s self = Ok (Next self') ->
  reach s start_state Head self'.
Proof.
  intros Hr Hit. rewrite iteration_of_unfold in Hit.
  apply bind_Ok in Hit as ([node q] & Hp & Hit). cbv zeta in Hit.
  pose proof (reach_expanded s start_state self node q Hr
                (pop_nonempty _ _ Hp) Hp) as Hx.
  set (self1 := (expand_node (set_frontier self q) node).1) in *.
  destruct (tests_popped s && bool_decide (node = goal self1)) eqn:Ht.
  { by apply bind_Ok in Hit as (r & _ & [=]). }
  apply (reach_next s start_state self' node).
  apply (reach_prefix s start_state node (puzz.successors node) [] self1);
    [|done]. rewrite app_nil_r. apply reach_visiting; [done|].
  intros Htp. rewrite Htp in Ht. by apply bool_decide_eq_false in Ht.
Qed.

Lemma reach_turns (s : strategy) (start_state : Board) (n : nat)
    (self self' : Solver) :
  reach s start_state Head self ->
  turns s n self = Some self' ->
  reach s start_state Head self'.
Proof.
  revert self. induction n as [|n IH]; intros self Hr; simpl.
  - by intros [= <-].
  - destruct (iteration_of s self) as [[r | self1]|] eqn:Hit; try done.
    apply IH. by apply (reach_iteration s start_state self).
Qed.

(** A run stopped on the way is at a point of the run. *)
Lemma reach_stopped (s : strategy) (start_state : Board) (n k : nat)
    (node : Board) :
  start_state <> GOAL_STATE ->
  fst <$> stopped s start_state n k = Some node ->
  node <> GOAL_STATE ->
  reach s start_state (Visiting node (drop k (puzz.successors node)))
        (stopped_solver s start_state n k).
Proof.
  intros Hne Hst Hng. unfold stopped_solver.
  destruct (stopped s start_state n k) as [[node' self]|] eqn:Hs; [|done].
  injection Hst as ->. unfold stopped in Hs.
  destruct (turns s n (start (fresh s) start_state)) as [self0|] eqn:Ht; [|done].
  simpl in Hs.
  assert (reach s start_state Head self0) as Hr.
  { apply (reach_turns s start_state n (start (fresh s) start_state)); [|done].
    apply reach_head; [apply reach_started|].
    by replace (goal (start (fresh s) start_state)) with GOAL_STATE by (by destruct s). }
  unfold into_turn in Hs.
  destruct (pdqpq.pop (frontier self0)) as [[node' q]|] eqn:Hp; [|done].
  cbv zeta in Hs.
  pose proof (reach_expanded s start_state self0 node' q Hr
                (pop_nonempty _ _ Hp) Hp) as Hx.
  set (self1 := (expand_node (set_frontier self0 q) node').1) in *.
  destruct (for_items (visit_of s node') self1 (take k (puzz.successors node')))
    as [[r | self2]|] eqn:Hf; try done.
  injection Hs as -> ->.
  apply (reach_prefix s start_state node (take k (puzz.successors node)) _ self1);
    [|done]. rewrite take_drop. apply reach_visiting; [done|].
  intros _. by rewrite (reach_goal s start_state _ self1 Hx).
Qed.
End stopped_facts.

Lemma replacing_reach :
  reach UCS (puzz.EightPuzzleBoard "048612753")
        (Visiting (puzz.EightPuzzleBoard "648103725")
                  [("right", puzz.EightPuzzleBoard "648013725")])
        replacing_solver.
Proof.
  apply (reach_stopped UCS (puzz.EightPuzzleBoard "048612753") 25 3
           (puzz.EightPuzzleBoard "648103725")).
  - by vm_compute.
  - by vm_compute.
  - by vm_compute.
Qed.

(** The visit that replaces a frontier item in the run stopped at
    [replacing_solver]. *)
Lemma replacing_visit :
  exists self',
    UniformCostSolver.visit (puzz.EightPuzzleBoard "648103725") replacing_solver
      "right" (puzz.EightPuzzleBoard "648013725") = Ok (Next self')
    /\ frontier self' <> frontier replacing_solver.
Proof.
  assert (match UniformCostSolver.visit (puzz.EightPuzzleBoard "648103725")
                  replacing_solver "right" (puzz.EightPuzzleBoard "648013725") with
          | Ok (Next x) => pdqpq.get (frontier x) (puzz.EightPuzzleBoard "648013725")
          | _ => Raise KeyError
          end = Ok 80) as Hx by (by vm_compute).
  destruct (UniformCostSolver.visit (puzz.EightPuzzleBoard "648103725") replacing_solver
              "right" (puzz.EightPuzzleBoard "648013725")) as [[r | self']|];
    [done | | done].
  exists self'. split; [done|]. intros Heq.
  assert (pdqpq.get (frontier replacing_solver) (puzz.EightPuzzleBoard "648013725")
          = Ok 112) as Hg by (by vm_compute).
  rewrite <- Heq in Hg. congruence.
Qed.

Lemma counters_invariant_witness :
  0 <= expanded_count replacing_solver <= frontier_count replacing_solver
  /\ frontier_count replacing_solver = Z.of_nat (size (ever_added replacing_solver))
  /\ frontier_count replacing_solver = 50
  /\ exists self',
       UniformCostSolver.visit (puzz.EightPuzzleBoard "648103725") replacing_solver
         "right" (puzz.EightPuzzleBoard "648013725") = Ok (Next self')
       /\ frontier self' <> frontier replacing_solver
       /\ frontier_count self' = frontier_count replacing_solver
       /\ ever_added self' = ever_added replacing_solver.
Proof.
  destruct (counters_invariant UCS (puzz.EightPuzzleBoard "048612753")
              (Visiting (puzz.EightPuzzleBoard "648103725")
                        [("right", puzz.EightPuzzleBoard "648013725")])
              replacing_solver replacing_reach) as (Hb & Hfc & Hrep & _).
  split; [exact Hb|]. split; [exact Hfc|]. split; [by vm_compute|].
  destruct replacing_visit as (self' & Hv & Hne).
  exists self'. split; [exact Hv|]. split; [exact Hne|].
  apply (Hrep (puzz.EightPuzzleBoard "648103725") "right"
              (puzz.EightPuzzleBoard "648013725") [] self' eq_refl Hv).
  by vm_compute.
Defined.

Lemma ucs_visit_policy_witness :
  exists self',
    UniformCostSolver.visit (puzz.EightPuzzleBoard "648103725") replacing_solver
      "right" (puzz.EightPuzzleBoard "648013725") = Ok (Next self')
    /\ pdqpq.get (frontier replacing_solver) (puzz.EightPuzzleBoard "648013725") = Ok 112
    /\ pdqpq.get (frontier self') (puzz.EightPuzzleBoard "648013725") = Ok 80
    /\ parents self'
       = <[puzz.EightPuzzleBoard "648013725" := Some (puzz.EightPuzzleBoard "648103725")]>
           (parents replacing_solver)
    /\ frontier_count self' = frontier_count replacing_solver.
Proof.
  destruct (ucs_visit_policy (puzz.EightPuzzleBoard "048612753")
              (puzz.EightPuzzleBoard "648103725") (puzz.EightPuzzleBoard "648013725")
              "right" [] replacing_solver)
    as (cost & t & alt & self' & Hc & Ht & Ha & Hv & Hin & _).
  - apply (bool_decide_unpack _). by vm_compute.
  - exact replacing_reach.
  - apply (bool_decide_unpack _). by vm_compute.
  - assert (BreadthFirstSolver.get_cost replacing_solver
              (puzz.EightPuzzleBoard "648103725") = Ok 79) as Hc' by (by vm_compute).
    assert (cost = 79) as -> by congruence.
    assert (UniformCostSolver._transition_cost (puzz.EightPuzzleBoard "648103725")
              "right" = Ok (Some 1)) as Ht' by (by vm_compute).
    assert (t = 1) as -> by congruence.
    destruct Hin as (cur & Hcur & Hgt & _); [by vm_compute|].
    assert (pdqpq.get (frontier replacing_solver)
              (puzz.EightPuzzleBoard "648013725") = Ok 112) as Hcur' by (by vm_compute).
    assert (cur = 112) as -> by congruence.
    subst alt. destruct Hgt as (Hf & Hg & Hp & _ & Hfc); [lia|].
    exists self'. split; [exact Hv|]. split; [exact Hcur|]. split; [exact Hg|].
    split; [exact Hp | exact Hfc].
Defined.

(** C2: for every state of the parent map of a run, [get_cost] is the sum,
    over the consecutive pairs (P, Q) of the path that [get_path] rebuilds
    from the start state to it, of the square of the number of the tile
    that stands in Q where the blank of P was; that tile is never the
    blank. *)
Theorem get_cost_sums_moved_tiles (s : strategy) (start_state : Board)
    (pt : point) (self : Solver) (state : Board) :
  puzz.is_layout start_state ->
  reach s start_state pt self ->
  is_Some (parents self !! state) ->
  exists path tiles,
    BreadthFirstSolver.get_path self (Some state) = Ok path
    /\ head path = Some start_state
    /\ last path = Some state
    /\ Forall2 (fun pq t => moved_tile pq.1 pq.2 = Ok t /\ t <> puzz.blank)
               (pairs path) tiles
    /\ BreadthFirstSolver.get_cost self state
       = Ok (Zsum ((fun t => tile_value t ^ 2) <$> tiles))
    /\ BreadthFirstSolver.get_cost self state = path_cost_spec path.
Proof.
  intros Hl Hr Hs.
  destruct (reach_tree s start_state pt self Hl Hr) as [Ht _].
  destruct (tree_cost self state Ht Hs)
    as (path & tiles & Hp & Hlast & (root & Hhead & Hroot) & Hts & Hc).
  exists path, tiles. repeat split; try done.
  - by rewrite <- (reach_root s start_state pt self Hr root Hroot).
  - rewrite get_cost_pairs, Hp. done.
Qed.

Lemma get_cost_sums_moved_tiles_witness :
  exists tiles,
    BreadthFirstSolver.get_path replacing_solver
      (Some (puzz.EightPuzzleBoard "648103725"))
    = Ok (puzz.EightPuzzleBoard <$>
            ["048612753"; "648012753"; "648102753"; "648120753"; "648123750";
             "648123705"; "648103725"])
    /\ tiles = list_ascii_of_string "612352"
    /\ BreadthFirstSolver.get_cost replacing_solver (puzz.EightPuzzleBoard "648103725")
       = Ok (Zsum ((fun t => tile_value t ^ 2) <$> tiles)).
Proof.
  destruct (get_cost_sums_moved_tiles UCS (puzz.EightPuzzleBoard "048612753")
              (Visiting (puzz.EightPuzzleBoard "648103725")
                        [("right", puzz.EightPuzzleBoard "648013725")])
              replacing_solver (puzz.EightPuzzleBoard "648103725"))
    as (path & tiles & Hp & _ & _ & Hts & Hc & _).
  - apply (bool_decide_unpack _). by vm_compute.
  - exact replacing_reach.
  - apply (bool_decide_unpack _). by vm_compute.
  - exists tiles.
    assert (BreadthFirstSolver.get_path replacing_solver
              (Some (puzz.EightPuzzleBoard "648103725"))
            = Ok (puzz.EightPuzzleBoard <$>
                    ["048612753"; "648012753"; "648102753"; "648120753"; "648123750";
             "648123705"; "648103725"])) as Hp' by (by vm_compute).
    split; [exact Hp'|]. split; [|exact Hc].
    assert (path = puzz.EightPuzzleBoard <$>
                    ["048612753"; "648012753"; "648102753"; "648120753"; "648123750";
             "648123705"; "648103725"]) as -> by congruence.
    clear -Hts. vm_compute in Hts.
    repeat match goal with
           | H : Forall2 _ (_ :: _) _ |- _ =>
               apply Forall2_cons_inv_l in H as (? & ? & [[= <-] _] & H & ->)
           | H : Forall2 _ [] _ |- _ => apply Forall2_nil_inv_l in H as ->
           end.
    reflexivity.
Defined.

(** ** Breadth-first search: the goal test *)

Section bfs_facts.
Import BreadthFirstSolver.

Lemma bfs_visit_next (node : Board) (self : Solver) (move : string)
    (succ : Board) (self' : Solver) :
  visit node self move succ = Ok (Next self') ->
  self' = self
  \/ (succ <> goal self
      /\ pdqpq.contains (frontier self) succ = false
      /\ self' = add_to_frontier
                   (set_parents self (<[succ := Some node]> (parents self))) succ).
Proof.
  unfold visit.
  destruct (pdqpq.contains (frontier self) succ) eqn:Hc; simpl.
  { intros [= <-]. by left. }
  case_bool_decide as He; simpl.
  { intros [= <-]. by left. }
  case_bool_decide as Hg.
  - by intros (r & _ & [=])%bind_Ok.
  - intros [= <-]. by right.
Qed.

Lemma reach_bfs_goal (start_state : Board) (pt : point) (self : Solver) :
  reach BFS start_state pt self -> in_loop pt -> goal_unseen self.
Proof.
  induction 1 as [| |self Hr IH Hne|self node q Hr IH He Hp|self node Hr IH Hg
                  |self node move succ rest self' Hr IH Hv|self node Hr IH
                  |self node move succ rest Hr IH Hb Hc He Hg];
    simpl; intros Hin; try done.
  - inversion Hr; subst. split; simpl; [|set_solver].
    unfold pdqpq.keys. simpl. apply not_elem_of_cons. split; [|apply not_elem_of_nil].
    intros Heq. apply Hne. symmetry. exact Heq.
  - destruct (IH I) as [Hk Hx].
    apply pop_keys in Hp as (Hnode & _ & Hkeys).
    destruct (Hkeys (counted_nodup _ (reach_counted _ _ _ _ Hr))) as [_ Hkeys'].
    split; simpl.
    + intros [Hq _]%Hkeys'. done.
    + intros [Heq%elem_of_singleton | Hq]%elem_of_union; [|done].
      apply Hk. by rewrite Heq.
  - by apply IH.
  - destruct (IH I) as [Hk Hx].
    apply bfs_visit_next in Hv as [-> | (Hng & Hc & ->)]; [done|].
    apply contains_false in Hc. split; simpl; [|done].
    rewrite keys_add by done. rewrite elem_of_app, list_elem_of_singleton.
    intros [? | ?]; [done | by apply Hng].
  - by apply IH.
  - by apply IH.
Qed.
End bfs_facts.

(** C3: in [BreadthFirstSolver.solve] the goal test is on each generated
    successor, before it goes into the frontier: a generated successor that
    is the goal makes the loop return the success result at once, the
    frontier and [frontier_count] left as they were; a generated successor
    that is in the frontier or explored is dropped, the solver left as it
    was (no new parent, no cost comparison). *)
Theorem bfs_goal_test_at_generation (start_state node succ : Board)
    (move : string) (rest : list (string * Board)) (self : Solver) :
  puzz.is_layout start_state ->
  reach BFS start_state (Visiting node ((move, succ) :: rest)) self ->
  (succ = goal self ->
   exists r path cost,
     BreadthFirstSolver.visit node self move succ = Ok (Return r)
     /\ for_items (BreadthFirstSolver.visit node) self ((move, succ) :: rest)
        = Ok (Return r)
     /\ pdqpq.contains (frontier self) succ = false
     /\ BreadthFirstSolver.get_results_dict
          (set_parents self (<[succ := Some node]> (parents self))) (Some succ)
        = Ok r
     /\ r !! "path" = Some (VPath path)
     /\ snd <$> last path = Some succ
     /\ r !! "path_cost" = Some (VInt cost)
     /\ r !! "frontier_count" = Some (VInt (frontier_count self))
     /\ r !! "expanded_count" = Some (VInt (expanded_count self)))
  /\ (pdqpq.contains (frontier self) succ = true \/ succ ∈ explored self ->
      BreadthFirstSolver.visit node self move succ = Ok (Next self)
      /\ for_items (BreadthFirstSolver.visit node) self ((move, succ) :: rest)
         = for_items (BreadthFirstSolver.visit node) self rest).
Proof.
  intros Hl Hr. split.
  - intros Hg.
    destruct (reach_bfs_goal start_state _ self Hr I) as [Hk Hx].
    destruct (reach_tree BFS start_state _ self Hl Hr) as [Ht [Hn Hrest]].
    assert ((move, succ) ∈ puzz.successors node) as Hm by (apply Hrest; by left).
    rewrite <- Hg in Hk, Hx.
    set (self1 := set_parents self (<[succ := Some node]> (parents self))).
    assert (tree self1) as Ht1.
    { apply (tree_insert self node succ move (frontier self) (frontier_count self));
        try done. intros k Hin. by left. }
    assert (is_Some (parents self1 !! succ)) as Hs.
    { simpl. rewrite lookup_insert_eq. eauto. }
    destruct (tree_cost self1 succ Ht1 Hs) as (path & tiles & Hp & Hlast & _ & _ & Hc).
    destruct (results_success self1 succ path _ Hp Hc)
      as (r & moves & Hres & Hlen & Hpath & Hcost & Hfc & Hec).
    assert (BreadthFirstSolver.visit node self move succ = Ok (Return r)) as Hv.
    { unfold BreadthFirstSolver.visit.
      rewrite (proj2 (contains_false _ _) Hk).
      rewrite (bool_decide_eq_false_2 (succ ∈ explored self)) by done.
      cbn [negb andb]. rewrite bool_decide_eq_true_2 by done.
      fold self1. by rewrite Hres. }
    eexists r, (zip (Some "start" :: moves) path), _.
    split; [done|]. split; [simpl; by rewrite Hv|].
    split; [by apply contains_false|]. split; [done|]. split; [done|].
    split; [|by repeat split].
    rewrite <- (snd_zip (Some "start" :: moves) path) in Hlast
      by (simpl; lia).
    by rewrite fmap_last in Hlast.
  - intros Hseen.
    assert (BreadthFirstSolver.visit node self move succ = Ok (Next self)) as Hv.
    { unfold BreadthFirstSolver.visit. destruct Hseen as [-> | Hx]; [done|].
      rewrite (bool_decide_eq_true_2 _ Hx). by rewrite andb_false_r. }
    split; [done|]. simpl. by rewrite Hv.
Qed.

Lemma generating_reach :
  reach BFS (puzz.EightPuzzleBoard "102345678")
        (Visiting (puzz.EightPuzzleBoard "102345678") [("right", GOAL_STATE)])
        generating_solver.
Proof.
  apply (reach_stopped BFS (puzz.EightPuzzleBoard "102345678") 0 2
           (puzz.EightPuzzleBoard "102345678")).
  - by vm_compute.
  - by vm_compute.
  - by vm_compute.
Qed.

Lemma bfs_goal_test_at_generation_witness :
  exists r,
    for_items (BreadthFirstSolver.visit (puzz.EightPuzzleBoard "102345678"))
              generating_solver [("right", GOAL_STATE)] = Ok (Return r)
    /\ pdqpq.contains (frontier generating_solver) GOAL_STATE = false
    /\ r !! "path_cost" = Some (VInt 1)
    /\ r !! "frontier_count" = Some (VInt (frontier_count generating_solver)).
Proof.
  destruct (bfs_goal_test_at_generation (puzz.EightPuzzleBoard "102345678")
              (puzz.EightPuzzleBoard "102345678") GOAL_STATE "right" []
              generating_solver) as [Hgoal _].
  - apply (bool_decide_unpack _). by vm_compute.
  - exact generating_reach.
  - destruct Hgoal as (r & path & cost & Hv & Hf & Hc & Hres & _ & _ & Hcost & Hfc & _);
      [by vm_compute|].
    exists r. split; [exact Hf|]. split; [exact Hc|]. split; [|exact Hfc].
    assert (BreadthFirstSolver.visit (puzz.EightPuzzleBoard "102345678")
              generating_solver "right" GOAL_STATE
            = Ok (Return (<["path" := VPath [(Some "start", puzz.EightPuzzleBoard "102345678");
                                              (Some "right", GOAL_STATE)]]>
                            (<["path_cost" := VInt 1]> (failure generating_solver)))))
      as Hv' by (by vm_compute).
    rewrite Hv in Hv'. injection Hv' as ->. done.
Defined.

(** ** The goal popped *)

(** C10 as amended: in [UniformCostSolver.solve] and [AStarSolver.solve] a
    popped node is expanded before it is tested against the goal, so that
    when the goal is popped the result counts it in [expanded_count]; its
    successors are not visited: the turn returns before the [for] loop,
    [frontier_count] is as it was and the frontier reported on is the one
    [pop] left. *)
Theorem goal_popped_is_expanded (s : strategy) (start_state : Board)
    (self : Solver) (node : Board) (q : pdqpq.Queue) :
  puzz.is_layout start_state ->
  s = UCS \/ (exists heur, s = AStar heur) ->
  reach s start_state Head self ->
  pdqpq.pop (frontier self) = Ok (node, q) ->
  node = goal self ->
  exists r path cost,
    iteration_of s self = Ok (Return r)
    /\ (forall fuel, while_frontier (S fuel) (iteration_of s) self = Ok (Return r))
    /\ BreadthFirstSolver.get_results_dict
         (mkSolver (goal self) (parents self) q ({[node]} ∪ explored self)
                   (frontier_count self) (expanded_count self + 1))
         (Some node) = Ok r
    /\ r !! "path" = Some (VPath path)
    /\ snd <$> last path = Some node
    /\ r !! "path_cost" = Some (VInt cost)
    /\ r !! "expanded_count" = Some (VInt (expanded_count self + 1))
    /\ r !! "frontier_count" = Some (VInt (frontier_count self)).
Proof.
  intros Hl Hs Hr Hp Hg.
  assert (tests_popped s = true) as Htp by (by destruct Hs as [-> | [heur ->]]).
  pose proof (reach_expanded s start_state self node q Hr (pop_nonempty _ _ Hp) Hp) as Hx.
  destruct (reach_tree s start_state _ _ Hl Hx) as [Ht Hn]. simpl in Hn.
  set (self1 := (BreadthFirstSolver.expand_node (set_frontier self q) node).1) in *.
  pose proof (tree_explored self1 Ht node Hn) as Hnp.
  destruct (tree_cost self1 node Ht Hnp) as (path & tiles & Hpath & Hlast & _ & _ & Hc).
  destruct (results_success self1 node path _ Hpath Hc)
    as (r & moves & Hres & Hlen & Hrp & Hcost & Hfc & Hec).
  assert (iteration_of s self = Ok (Return r)) as Hit.
  { rewrite iteration_of_unfold, Hp.
    transitivity (if tests_popped s && bool_decide (node = goal self1)
                  then r ← BreadthFirstSolver.get_results_dict self1 (Some node);
                       Ok (Return r)
                  else for_items (visit_of s node) self1 (puzz.successors node));
      [done|].
    rewrite Htp. rewrite bool_decide_eq_true_2 by done. cbn [andb]. by rewrite Hres. }
  eexists r, (zip (Some "start" :: moves) path), _.
  split; [done|]. split.
  { intros fuel. simpl. rewrite (pop_nonempty _ _ Hp), Hit. done. }
  split; [exact Hres|]. split; [done|]. split; [|by repeat split].
  rewrite <- (snd_zip (Some "start" :: moves) path) in Hlast by (simpl; lia).
  by rewrite fmap_last in Hlast.
Qed.

Lemma reach_turns_default (s : strategy) (start_state : Board) (n : nat)
    (self d : Solver) :
  reach s start_state Head self ->
  (fun _ => ()) <$> turns s n self = Some () ->
  reach s start_state Head (default d (turns s n self)).
Proof.
  intros Hr Ht. destruct (turns s n self) as [self'|] eqn:Hs; [|done].
  by apply (reach_turns s start_state n self).
Qed.

Lemma popping_reach :
  reach (AStar (Some "h1")) (puzz.EightPuzzleBoard "102345678") Head popping_solver.
Proof.
  apply reach_turns_default; [|by vm_compute].
  apply reach_head; [apply reach_started | by vm_compute].
Qed.

Lemma goal_popped_is_expanded_witness :
  exists r,
    iteration_of (AStar (Some "h1")) popping_solver = Ok (Return r)
    /\ r !! "expanded_count" = Some (VInt (expanded_count popping_solver + 1))
    /\ r !! "frontier_count" = Some (VInt (frontier_count popping_solver)).
Proof.
  destruct (goal_popped_is_expanded (AStar (Some "h1"))
              (puzz.EightPuzzleBoard "102345678") popping_solver GOAL_STATE
              (pdqpq.remove (frontier popping_solver) GOAL_STATE))
    as (r & path & cost & Hit & _ & _ & _ & _ & _ & Hec & Hfc).
  - apply (bool_decide_unpack _). by vm_compute.
  - right. by exists (Some "h1").
  - exact popping_reach.
  - vm_compute. reflexivity.
  - vm_compute. reflexivity.
  - exists r. split; [exact Hit|]. split; [exact Hec | exact Hfc].
Defined.

(** C10 as stated fails: A-star search with h1 from 102345678 pops the
    goal in its second turn; the successor 312045678 of the goal is then
    neither explored nor in the frontier, yet the turn returns with
    [frontier_count] as it was: the successors of the goal are not
    enqueued. *)
Lemma goal_successors_not_enqueued :
  pdqpq.pop (frontier popping_solver)
  = Ok (GOAL_STATE, pdqpq.remove (frontier popping_solver) GOAL_STATE)
  /\ ("up", puzz.EightPuzzleBoard "312045678") ∈ puzz.successors GOAL_STATE
  /\ (puzz.EightPuzzleBoard "312045678" ∉ explored popping_solver)
  /\ pdqpq.contains (frontier popping_solver) (puzz.EightPuzzleBoard "312045678") = false
  /\ exists r,
       AStarSolver.iteration (Some "h1") popping_solver = Ok (Return r)
       /\ r !! "frontier_count" = Some (VInt (frontier_count popping_solver))
       /\ solve_puzzle 2 (puzz.EightPuzzleBoard "102345678") "astar-h1" = Ok r.
Proof.
  split; [vm_compute; reflexivity|].
  split; [apply (bool_decide_unpack _); by vm_compute|].
  split; [apply (bool_decide_unpack _); by vm_compute|].
  split; [by vm_compute|].
  eexists. split; [vm_compute; reflexivity|].
  split; [vm_compute; reflexivity | vm_compute; reflexivity].
Qed.

(** ** The first test puzzle, solved by every flavor *)

Example small_puzzle_table :
  (fun flavor => table_column (solve_puzzle 20 get_test_puzzles.1.1 flavor))
    <$> ["bfs"; "ucost"; "greedy-h1"; "greedy-h2"; "greedy-h3";
         "astar-h1"; "astar-h2"; "astar-h3"]
  = [Ok (Some 4%nat, Some (VInt 66), Some (VInt 10), Some (VInt 5));
     Ok (Some 4%nat, Some (VInt 66), Some (VInt 20), Some (VInt 12));
     Ok (Some 4%nat, Some (VInt 66), Some (VInt 9), Some (VInt 4));
     Ok (Some 4%nat, Some (VInt 66), Some (VInt 9), Some (VInt 4));
     Ok (Some 4%nat, Some (VInt 66), Some (VInt 9), Some (VInt 4));
     Ok (Some 4%nat, Some (VInt 66), Some (VInt 16), Some (VInt 9));
     Ok (Some 4%nat, Some (VInt 66), Some (VInt 16), Some (VInt 9));
     Ok (Some 4%nat, Some (VInt 66), Some (VInt 9), Some (VInt 4))].
Proof. by vm_compute. Qed.

Example unknown_flavor :
  solve_puzzle 20 get_test_puzzles.1.1 "dfs" = Raise ValueError
  /\ solve_puzzle 20 get_test_puzzles.1.1 "astar-h1-x" = Raise ValueError.
Proof. by vm_compute. Qed.

(** * Further properties *)

(** ** The heuristics *)

Section heuristics.
Import puzz GreedySolver.

Lemma get_tile_tile_at (state : Board) (x y : nat) :
  is_layout state -> in_board (Z.of_nat x) (Z.of_nat y) = true ->
  get_tile state (Z.of_nat x) (Z.of_nat y)
  = Ok (tile_at state (Z.of_nat x, Z.of_nat y))
  /\ tile_at state (Z.of_nat x, Z.of_nat y) ∈ GOAL_STATE.
Proof.
  intros Hb Hin. unfold get_tile, tile_at. rewrite Hin. simpl.
  destruct (state !! cell (Z.of_nat x) (Z.of_nat y)) as [t|] eqn:Ht.
  - split; [done|]. simpl. apply (layout_elem state t Hb).
    by apply list_elem_of_lookup_2 in Ht.
  - apply lookup_ge_None in Ht. rewrite (layout_length state Hb) in Ht.
    pose proof (cell_lt _ _ Hin). lia.
Qed.

Lemma misplaced_step (state : Board) (x y : nat) (acc : Z) :
  is_layout state -> in_board (Z.of_nat x) (Z.of_nat y) = true ->
  (t ← get_tile state (Z.of_nat x) (Z.of_nat y);
   num_tile ← int t;
   if bool_decide (num_tile <> 0) then
     t' ← get_tile state (Z.of_nat x) (Z.of_nat y);
     g ← get_tile GOAL_STATE (Z.of_nat x) (Z.of_nat y);
     if bool_decide (t' <> g) then Ok (acc + 1) else Ok acc
   else Ok acc)
  = Ok (acc + misplaced (Z.of_nat x, Z.of_nat y)
                (tile_at state (Z.of_nat x, Z.of_nat y))).
Proof.
  intros Hb Hin.
  destruct (get_tile_tile_at state x y Hb Hin) as [Ht Hg].
  destruct (get_tile_tile_at GOAL_STATE x y layout_goal Hin) as [Ht' _].
  set (t := tile_at state (Z.of_nat x, Z.of_nat y)) in *.
  destruct (goal_tile_int t Hg) as (n & Hn & _ & Hz).
  rewrite Ht. simpl. rewrite Hn. simpl. rewrite Ht'. simpl. unfold misplaced.
  destruct (decide (t = blank)) as [Hbl | Hbl].
  - rewrite bool_decide_eq_false_2 by (intros ?; tauto).
    rewrite decide_False by tauto. f_equal. lia.
  - rewrite bool_decide_eq_true_2 by (intros ?; tauto).
    case_bool_decide; [rewrite decide_True by done | rewrite decide_False by tauto];
      f_equal; lia.
Qed.

Lemma distance_step (state : Board) (x y : nat) (acc : Z) :
  is_layout state -> in_board (Z.of_nat x) (Z.of_nat y) = true ->
  (cur_tile ← get_tile state (Z.of_nat x) (Z.of_nat y);
   '(x_coords, _) ← find GOAL_STATE (Some cur_tile);
   '(_, y_coords) ← find GOAL_STATE (Some cur_tile);
   num_tile ← int cur_tile;
   if bool_decide (num_tile <> 0) then
     Ok (acc + (abs_diff x x_coords + abs_diff y y_coords))
   else Ok acc)
  = Ok (acc + distance (Z.of_nat x, Z.of_nat y)
                (tile_at state (Z.of_nat x, Z.of_nat y))).
Proof.
  intros Hb Hin.
  destruct (get_tile_tile_at state x y Hb Hin) as [Ht Hg].
  set (t := tile_at state (Z.of_nat x, Z.of_nat y)) in *.
  destruct (goal_tile_int t Hg) as (n & Hn & _ & Hz).
  destruct (goal_tile_facts t Hg) as (Hf & _ & _).
  rewrite Ht. simpl. rewrite Hf. simpl.
  destruct (goal_coordinate t) as [gx gy] eqn:Hgc. simpl. rewrite Hn. simpl.
  unfold distance, manhattan, abs_diff. rewrite Hgc. simpl.
  destruct (decide (t = blank)) as [Hbl | Hbl].
  - rewrite bool_decide_eq_false_2 by (intros ?; tauto).
    rewrite decide_False by tauto. f_equal. lia.
  - rewrite bool_decide_eq_true_2 by (intros ?; tauto).
    by rewrite decide_True by done.
Qed.

Lemma nested_loops (body : nat -> nat -> Z -> res Z) (f : Z * Z -> Z) :
  (forall x y acc, (x < 3)%nat -> (y < 3)%nat ->
     body x y acc = Ok (acc + f (Z.of_nat x, Z.of_nat y))) ->
  for_acc (fun acc x => for_acc (fun acc' y => body x y acc') acc (range 0 3))
          0 (range 0 3)
  = Ok (Zsum (f <$> coordinates)).
Proof.
  intros Hbody.
  rewrite (for_acc_ext _ (fun acc x =>
             Ok (acc + Zsum ((fun y => f (Z.of_nat x, Z.of_nat y)) <$> range 0 3)))).
  - rewrite for_acc_sum. unfold coordinates, Zsum, range. simpl. f_equal.
    change (Z.of_nat 0) with 0. change (Z.of_nat 1) with 1.
    change (Z.of_nat 2) with 2. lia.
  - intros acc x Hx. rewrite <- for_acc_sum. apply for_acc_ext.
    intros acc' y Hy. apply elem_of_seq in Hx, Hy. apply Hbody; lia.
Qed.

Lemma in_board_lt (x y : nat) :
  (x < 3)%nat -> (y < 3)%nat -> in_board (Z.of_nat x) (Z.of_nat y) = true.
Proof. unfold in_board. lia. Qed.

Lemma num_misplaced_tiles_sum (state : Board) :
  is_layout state -> _num_misplaced_tiles state = Ok (cell_sum misplaced state).
Proof.
  intros Hb. unfold _num_misplaced_tiles, cell_sum.
  apply (nested_loops _ (fun c => misplaced c (tile_at state c))).
  intros x y acc Hx Hy. apply misplaced_step; [done | by apply in_board_lt].
Qed.

Lemma manhattan_distance_sum (state : Board) :
  is_layout state -> _manhattan_distance state = Ok (cell_sum distance state).
Proof.
  intros Hb. unfold _manhattan_distance, cell_sum.
  apply (nested_loops _ (fun c => distance c (tile_at state c))).
  intros x y acc Hx Hy. apply distance_step; [done | by apply in_board_lt].
Qed.

Lemma worse_manhattan_sum (state : Board) :
  is_layout state -> _worse_manhattan state = Ok (cell_sum weighted_distance state).
Proof.
  intros Hb. unfold _worse_manhattan, cell_sum.
  apply (nested_loops _ (fun c => weighted_distance c (tile_at state c))).
  intros x y acc Hx Hy.
  rewrite worse_step; [done | done | by apply in_board_lt].
Qed.
End heuristics.

Section heuristic_order.
Import puzz GreedySolver.

Lemma Zsum_if {A} (f : A -> Z) (P : A -> Prop) `{!forall a, Decision (P a)}
    (l : list A) :
  Zsum ((fun a => if decide (P a) then f a else 0) <$> l) = Zsum (f <$> filter P l).
Proof.
  rewrite <- (Zsum_filter (fun a => if decide (P a) then f a else 0) P).
  - f_equal. apply list_fmap_ext. intros i a [Ha _]%list_elem_of_lookup_2%list_elem_of_filter.
    by rewrite decide_True.
  - intros a _ Ha. by rewrite decide_False.
Qed.

Lemma Zsum_ones {A} (l : list A) : Zsum ((fun _ => 1) <$> l) = Z.of_nat (length l).
Proof.
  induction l as [|a l IH]; [done|]. rewrite fmap_cons. unfold Zsum in *.
  rewrite foldr_cons, IH. simpl length. lia.
Qed.

Lemma Zsum_le {A} (f g : A -> Z) (l : list A) :
  (forall a, a ∈ l -> f a <= g a) -> Zsum (f <$> l) <= Zsum (g <$> l).
Proof.
  induction l as [|a l IH]; intros Hfg; [done|]. rewrite !fmap_cons. unfold Zsum in *.
  rewrite !foldr_cons. pose proof (Hfg a ltac:(by left)).
  pose proof (IH (fun b Hb => Hfg b ltac:(by right))). lia.
Qed.

Lemma Zsum_nonneg {A} (f : A -> Z) (l : list A) :
  (forall a, a ∈ l -> 0 <= f a) -> 0 <= Zsum (f <$> l).
Proof.
  induction l as [|b l IH]; intros Hf; [done|]. rewrite fmap_cons. unfold Zsum in *.
  rewrite foldr_cons. pose proof (Hf b ltac:(by left)).
  pose proof (IH (fun a Ha => Hf a ltac:(by right))). lia.
Qed.

Lemma Zsum_zero {A} (f : A -> Z) (l : list A) :
  (forall a, a ∈ l -> 0 <= f a) -> Zsum (f <$> l) = 0 -> forall a, a ∈ l -> f a = 0.
Proof.
  induction l as [|b l IH]; intros Hf Hs a Ha; [by apply elem_of_nil in Ha|].
  rewrite fmap_cons in Hs. unfold Zsum in Hs. rewrite foldr_cons in Hs.
  pose proof (Hf b ltac:(by left)) as Hb.
  pose proof (Zsum_nonneg f l (fun a Ha => Hf a ltac:(by right))) as Hl.
  unfold Zsum in Hl.
  apply elem_of_cons in Ha as [-> | Ha]; [lia|].
  apply IH; [intros; apply Hf; by right | unfold Zsum; lia | done].
Qed.

(** Cell by cell: 0 <= misplaced <= distance <= weighted distance. *)
Lemma terms_ordered (c : Z * Z) (t : ascii) :
  c ∈ coordinates -> t ∈ GOAL_STATE ->
  0 <= misplaced c t <= distance c t /\ distance c t <= weighted_distance c t.
Proof.
  unfold coordinates, GOAL_STATE, EightPuzzleBoard. simpl. intros Hc Ht.
  repeat (apply elem_of_cons in Hc as [-> | Hc]);
    try (by apply elem_of_nil in Hc);
    repeat (apply elem_of_cons in Ht as [-> | Ht]);
    try (by apply elem_of_nil in Ht); by vm_compute.
Qed.

Lemma tile_at_goal (state : Board) (c : Z * Z) :
  is_layout state -> c ∈ coordinates -> tile_at state c ∈ GOAL_STATE.
Proof.
  intros Hb Hc. unfold tile_at.
  destruct (state !! cell c.1 c.2) as [t|] eqn:Ht; simpl.
  - apply (layout_elem state t Hb). by apply list_elem_of_lookup_2 in Ht.
  - by vm_compute; left.
Qed.
End heuristic_order.

Section heuristic_goal.
Import puzz GreedySolver.

Lemma all_placed_goal (state : Board) :
  is_layout state ->
  (forall c, c ∈ coordinates ->
     tile_at state c = blank \/ tile_at state c = tile_at GOAL_STATE c) ->
  state = GOAL_STATE.
Proof.
  intros Hb Hc. pose proof (layout_NoDup state Hb) as Hnd.
  pose proof (layout_length state Hb) as Hlen.
  do 9 (destruct state as [|? state]; [done|]). destruct state; [|done].
  clear Hlen Hb.
  assert (forall i j x, [a; a0; a1; a2; a3; a4; a5; a6; a7] !! i = Some x ->
            [a; a0; a1; a2; a3; a4; a5; a6; a7] !! j = Some x -> i = j) as Hinj.
  { intros i j x. by apply NoDup_lookup. }
  pose proof (Hc (0, 2) ltac:(apply (bool_decide_unpack _); by vm_compute)) as H0.
  unfold tile_at in H0. simpl in H0. assert (a = blank) as -> by (by destruct H0).
  pose proof (Hc (1, 2) ltac:(apply (bool_decide_unpack _); by vm_compute)) as H1.
  pose proof (Hc (2, 2) ltac:(apply (bool_decide_unpack _); by vm_compute)) as H2.
  pose proof (Hc (0, 1) ltac:(apply (bool_decide_unpack _); by vm_compute)) as H3.
  pose proof (Hc (1, 1) ltac:(apply (bool_decide_unpack _); by vm_compute)) as H4.
  pose proof (Hc (2, 1) ltac:(apply (bool_decide_unpack _); by vm_compute)) as H5.
  pose proof (Hc (0, 0) ltac:(apply (bool_decide_unpack _); by vm_compute)) as H6.
  pose proof (Hc (1, 0) ltac:(apply (bool_decide_unpack _); by vm_compute)) as H7.
  pose proof (Hc (2, 0) ltac:(apply (bool_decide_unpack _); by vm_compute)) as H8.
  unfold tile_at in *. simpl in *.
  destruct H1 as [-> | ->]; [by specialize (Hinj 0%nat 1%nat blank eq_refl eq_refl)|].
  destruct H2 as [-> | ->]; [by specialize (Hinj 0%nat 2%nat blank eq_refl eq_refl)|].
  destruct H3 as [-> | ->]; [by specialize (Hinj 0%nat 3%nat blank eq_refl eq_refl)|].
  destruct H4 as [-> | ->]; [by specialize (Hinj 0%nat 4%nat blank eq_refl eq_refl)|].
  destruct H5 as [-> | ->]; [by specialize (Hinj 0%nat 5%nat blank eq_refl eq_refl)|].
  destruct H6 as [-> | ->]; [by specialize (Hinj 0%nat 6%nat blank eq_refl eq_refl)|].
  destruct H7 as [-> | ->]; [by specialize (Hinj 0%nat 7%nat blank eq_refl eq_refl)|].
  destruct H8 as [-> | ->]; [by specialize (Hinj 0%nat 8%nat blank eq_refl eq_refl)|].
  done.
Qed.

Lemma misplaced_zero_goal (state : Board) :
  is_layout state -> cell_sum misplaced state = 0 -> state = GOAL_STATE.
Proof.
  intros Hb Hs. apply all_placed_goal; [done|]. intros c Hc.
  pose proof (Zsum_zero (fun c => misplaced c (tile_at state c)) coordinates) as Hz.
  specialize (Hz (fun a Ha => proj1 (proj1 (terms_ordered a _ Ha
                                              (tile_at_goal state a Hb Ha)))) Hs c Hc).
  simpl in Hz. unfold misplaced in Hz. case_decide as Hd; [done|].
  destruct (decide (tile_at state c = blank)); [by left|].
  destruct (decide (tile_at state c = tile_at GOAL_STATE c)); [by right|]. tauto.
Qed.

Lemma sums_ordered (state : Board) :
  is_layout state ->
  0 <= cell_sum misplaced state <= cell_sum distance state
  /\ cell_sum distance state <= cell_sum weighted_distance state.
Proof.
  intros Hb. unfold cell_sum. split; [split|].
  - apply Zsum_nonneg. intros c Hc.
    apply (terms_ordered c _ Hc (tile_at_goal state c Hb Hc)).
  - apply Zsum_le. intros c Hc.
    apply (terms_ordered c _ Hc (tile_at_goal state c Hb Hc)).
  - apply Zsum_le. intros c Hc.
    apply (terms_ordered c _ Hc (tile_at_goal state c Hb Hc)).
Qed.

(** On a layout a valid tag gives a number, the sum of its terms. *)
Lemma heuristic_sum (state : Board) (heur : option string) :
  is_layout state -> valid_heur heur ->
  exists f, (f = misplaced \/ f = distance \/ f = weighted_distance)
    /\ _heuristic state heur = Ok (Some (cell_sum f state)).
Proof.
  intros Hb [-> | [-> | ->]]; unfold _heuristic.
  - exists misplaced. split; [by left|].
    rewrite bool_decide_eq_true_2 by done. by rewrite num_misplaced_tiles_sum.
  - exists distance. split; [right; by left|].
    rewrite bool_decide_eq_false_2 by done. rewrite bool_decide_eq_true_2 by done.
    by rewrite manhattan_distance_sum.
  - exists weighted_distance. split; [right; by right|].
    rewrite !bool_decide_eq_false_2 by done. rewrite bool_decide_eq_true_2 by done.
    by rewrite worse_manhattan_sum.
Qed.
End heuristic_goal.

(** X1: on every board, h1 ([_num_misplaced_tiles]) is the number of
    tiles, the blank left out, that do not stand where they stand in the
    goal state. *)
Theorem num_misplaced_tiles_spec (state : Board) :
  puzz.is_layout state ->
  GreedySolver._num_misplaced_tiles state = Ok (h1_spec state).
Proof.
  intros Hb. rewrite num_misplaced_tiles_sum by done. f_equal.
  unfold cell_sum, h1_spec, misplaced. rewrite <- Zsum_ones.
  rewrite <- (Zsum_if (fun _ => 1)
                (fun c => tile_at state c <> puzz.blank
                          /\ tile_at state c <> tile_at GOAL_STATE c)).
  done.
Qed.

Lemma num_misplaced_tiles_spec_witness :
  GreedySolver._num_misplaced_tiles get_test_puzzles.1.1
  = Ok (h1_spec get_test_puzzles.1.1)
  /\ h1_spec get_test_puzzles.1.1 = 3.
Proof.
  split; [|by vm_compute].
  apply (num_misplaced_tiles_spec get_test_puzzles.1.1).
  apply (bool_decide_unpack _). by vm_compute.
Defined.

(** X2: on every board, h2 ([_manhattan_distance]) is the sum, over the
    tiles that are not the blank, of the Manhattan distance of the tile
    from its goal coordinate. *)
Theorem manhattan_distance_spec (state : Board) :
  puzz.is_layout state ->
  GreedySolver._manhattan_distance state = Ok (h2_spec state).
Proof.
  intros Hb. rewrite manhattan_distance_sum by done. f_equal.
  unfold cell_sum, h2_spec, distance.
  by rewrite <- (Zsum_if (fun c => manhattan c (goal_coordinate (tile_at state c)))
                   (fun c => tile_at state c <> puzz.blank)).
Qed.

Lemma manhattan_distance_spec_witness :
  GreedySolver._manhattan_distance get_test_puzzles.1.1
  = Ok (h2_spec get_test_puzzles.1.1)
  /\ h2_spec get_test_puzzles.1.1 = 3.
Proof.
  split; [|by vm_compute].
  apply (manhattan_distance_spec get_test_puzzles.1.1).
  apply (bool_decide_unpack _). by vm_compute.
Defined.

(** X3: on every board the three heuristics return numbers with
    0 <= h1 <= h2 <= h3. *)
Theorem heuristics_ordered (state : Board) :
  puzz.is_layout state ->
  exists h1 h2 h3,
    GreedySolver._heuristic state (Some "h1") = Ok (Some h1)
    /\ GreedySolver._heuristic state (Some "h2") = Ok (Some h2)
    /\ GreedySolver._heuristic state (Some "h3") = Ok (Some h3)
    /\ 0 <= h1 <= h2 /\ h2 <= h3.
Proof.
  intros Hb. exists (cell_sum misplaced state), (cell_sum distance state),
    (cell_sum weighted_distance state).
  unfold GreedySolver._heuristic.
  rewrite bool_decide_eq_true_2 by done.
  rewrite (bool_decide_eq_false_2 (Some "h2" = Some "h1")) by done.
  rewrite (bool_decide_eq_true_2 (Some "h2" = Some "h2")) by done.
  rewrite (bool_decide_eq_false_2 (Some "h3" = Some "h1")) by done.
  rewrite (bool_decide_eq_false_2 (Some "h3" = Some "h2")) by done.
  rewrite (bool_decide_eq_true_2 (Some "h3" = Some "h3")) by done.
  rewrite num_misplaced_tiles_sum, manhattan_distance_sum, worse_manhattan_sum by done.
  split; [done|]. split; [done|]. split; [done|]. by apply sums_ordered.
Qed.

Lemma heuristics_ordered_witness :
  exists h1 h2 h3,
    GreedySolver._heuristic get_test_puzzles.1.2 (Some "h1") = Ok (Some h1)
    /\ GreedySolver._heuristic get_test_puzzles.1.2 (Some "h2") = Ok (Some h2)
    /\ GreedySolver._heuristic get_test_puzzles.1.2 (Some "h3") = Ok (Some h3)
    /\ 0 <= h1 <= h2 /\ h2 <= h3.
Proof.
  apply (heuristics_ordered get_test_puzzles.1.2).
  apply (bool_decide_unpack _). by vm_compute.
Defined.

(** X4: on a board, with a valid tag, the heuristic is 0 exactly on the
    goal state. *)
Theorem heuristic_zero_iff_goal (state : Board) (heur : option string) :
  puzz.is_layout state -> valid_heur heur ->
  GreedySolver._heuristic state heur = Ok (Some 0) <-> state = GOAL_STATE.
Proof.
  intros Hb Hv. split.
  - destruct (heuristic_sum state heur Hb Hv) as (f & Hf & ->).
    intros [= Hz]. apply misplaced_zero_goal; [done|].
    pose proof (sums_ordered state Hb) as Ho.
    destruct Hf as [-> | [-> | ->]]; lia.
  - intros ->. destruct Hv as [-> | [-> | ->]]; by vm_compute.
Qed.

Lemma heuristic_zero_iff_goal_witness :
  GreedySolver._heuristic GOAL_STATE (Some "h3") = Ok (Some 0) <-> GOAL_STATE = GOAL_STATE.
Proof.
  apply (heuristic_zero_iff_goal GOAL_STATE (Some "h3")).
  - apply (bool_decide_unpack _). by vm_compute.
  - right. by right.
Defined.

(** ** The heuristics along a move *)

Section heuristic_moves.
Import puzz GreedySolver.

(** The cells of a successor: the tile that slid stands where the blank
    was, the blank where the tile was, the rest as before. *)
Lemma successor_cells (b : Board) (move : string) (succ : Board) :
  is_layout b -> (move, succ) ∈ successors b ->
  exists cb ct t,
    cb ∈ coordinates /\ ct ∈ coordinates
    /\ (exists dx dy, (move, (dx, dy)) ∈ offsets /\ ct = (cb.1 + dx, cb.2 + dy))
    /\ tile_at b cb = blank /\ tile_at b ct = t /\ t <> blank
    /\ slides b move succ t
    /\ tile_at succ cb = t /\ tile_at succ ct = blank
    /\ forall c, c ∈ coordinates -> c <> cb -> c <> ct -> tile_at succ c = tile_at b c.
Proof.
  intros Hb (dx & dy & Hoff & Hs)%successors_offsets.
  destruct (create_successor_layout b move dx dy succ Hb Hoff Hs) as [_ [t' Hsl]].
  destruct (layout_blank b Hb) as (pos & Hlt & Hpos & Huniq & Hfind).
  destruct (pos_coords pos Hlt) as [Hin Hcell].
  unfold _create_successor in Hs. rewrite (Hfind None eq_refl) in Hs.
  set (x := Z.of_nat pos mod 3) in *. set (y := 2 - Z.of_nat pos / 3) in *.
  destruct (get_tile b (x + dx) (y + dy)) as [t|] eqn:Ht; [|done].
  injection Hs as <-. unfold get_tile in Ht.
  destruct (in_board (x + dx) (y + dy)) eqn:Hin'; [|done].
  apply of_option_Ok in Ht.
  assert (t' = t) as ->.
  { destruct Hsl as (x' & y' & dx' & dy' & _ & Hf' & _ & _ & Hg' & _).
    rewrite (Hfind None eq_refl) in Hf'. injection Hf' as <- <-.
    unfold get_tile in Hg'. rewrite Hin in Hg'. apply of_option_Ok in Hg'.
    unfold _set_tile in Hg'. rewrite Hcell in Hg'.
    rewrite list_lookup_insert_ne in Hg'.
    - rewrite list_lookup_insert_eq in Hg' by (by rewrite (layout_length b Hb)).
      congruence.
    - rewrite <- Hcell. intros Heq. apply cell_inj in Heq as [? ?]; [|done..].
      unfold offsets in Hoff.
      repeat (apply elem_of_cons in Hoff as [[= _ -> ->] | Hoff]; [lia |]).
      by apply elem_of_nil in Hoff. }
  assert (cell (x + dx) (y + dy) <> pos) as Hne.
  { rewrite <- Hcell. intros Heq. apply cell_inj in Heq as [? ?]; [|done..].
    unfold offsets in Hoff.
    repeat (apply elem_of_cons in Hoff as [[= _ -> ->] | Hoff]; [lia |]).
    by apply elem_of_nil in Hoff. }
  assert (forall u v, in_board u v = true -> (u, v) ∈ coordinates) as Hco.
  { intros u v Huv. unfold in_board in Huv.
    assert ((u = 0 \/ u = 1 \/ u = 2) /\ (v = 0 \/ v = 1 \/ v = 2)) as [Hu Hv] by lia.
    destruct Hu as [-> | [-> | ->]], Hv as [-> | [-> | ->]];
      apply (bool_decide_unpack _); by vm_compute. }
  assert (forall c, c ∈ coordinates -> in_board c.1 c.2 = true) as Hci.
  { intros c Hc. unfold coordinates in Hc.
    repeat (apply elem_of_cons in Hc as [-> | Hc]; [by vm_compute|]).
    by apply elem_of_nil in Hc. }
  unfold _set_tile in Hsl. rewrite Hcell in Hsl.
  exists (x, y), (x + dx, y + dy), t. unfold _set_tile, tile_at. simpl.
  rewrite Hcell.
  split; [by apply Hco|]. split; [by apply Hco|].
  split; [by exists dx, dy|].
  split; [by rewrite Hpos|]. split; [by rewrite Ht|].
  split; [intros ->; by apply Huniq in Ht|]. split; [done|].
  split; [|split].
  - rewrite list_lookup_insert_ne by done.
    by rewrite list_lookup_insert_eq by (by rewrite (layout_length b Hb)).
  - rewrite list_lookup_insert_eq; [done|].
    rewrite length_insert, (layout_length b Hb). by apply cell_lt.
  - intros [u v] Hc Hcb Hct. simpl.
    pose proof (Hci _ Hc) as Huv. simpl in Huv.
    rewrite !list_lookup_insert_ne; [done | |].
    + rewrite <- Hcell. intros Heq. apply cell_inj in Heq as [? ?]; [|done..].
      apply Hcb. congruence.
    + intros Heq. apply cell_inj in Heq as [? ?]; [|done..]. apply Hct. congruence.
Qed.

Lemma coordinates_NoDup : NoDup coordinates.
Proof. apply (bool_decide_unpack _). by vm_compute. Qed.

Lemma filter_ne_absent {A} `{!EqDecision A} (l : list A) (a : A) :
  a ∉ l -> filter (fun c => c <> a) l = l.
Proof.
  induction l as [|b l IH]; [done|]. intros [Hne Hl]%not_elem_of_cons.
  rewrite filter_cons_True by (by intros ->). f_equal. by apply IH.
Qed.

Lemma Zsum_remove {A} `{!EqDecision A} (g : A -> Z) (l : list A) (a : A) :
  NoDup l -> a ∈ l ->
  Zsum (g <$> l) = g a + Zsum (g <$> filter (fun c => c <> a) l).
Proof.
  induction l as [|b l IH]; intros Hnd Ha; [by apply elem_of_nil in Ha|].
  apply NoDup_cons in Hnd as [Hb Hnd]. rewrite filter_cons, fmap_cons.
  unfold Zsum in *. rewrite foldr_cons.
  apply elem_of_cons in Ha as [-> | Ha].
  - rewrite decide_False by (intros H; by apply H).
    by rewrite filter_ne_absent.
  - rewrite decide_True by (by intros ->). rewrite fmap_cons, foldr_cons.
    rewrite IH by done. lia.
Qed.

(** Two sums over the cells that differ in two cells only. *)
Lemma cell_sum_two (g g' : Z * Z -> Z) (a b : Z * Z) :
  a ∈ coordinates -> b ∈ coordinates -> a <> b ->
  (forall c, c ∈ coordinates -> c <> a -> c <> b -> g' c = g c) ->
  Zsum (g <$> coordinates) - g a - g b = Zsum (g' <$> coordinates) - g' a - g' b.
Proof.
  intros Ha Hb Hab Hrest.
  pose proof coordinates_NoDup as Hnd.
  assert (b ∈ filter (fun c => c <> a) coordinates) as Hb'
    by (apply list_elem_of_filter; split; [by intros -> | done]).
  assert (NoDup (filter (fun c => c <> a) coordinates)) as Hnd'
    by (by apply NoDup_filter).
  rewrite (Zsum_remove g coordinates a Hnd Ha), (Zsum_remove g' coordinates a Hnd Ha).
  rewrite (Zsum_remove g _ b Hnd' Hb'), (Zsum_remove g' _ b Hnd' Hb').
  assert ((g <$> filter (fun c => c <> b) (filter (fun c => c <> a) coordinates))
          = (g' <$> filter (fun c => c <> b) (filter (fun c => c <> a) coordinates)))
    as ->; [|lia].
  apply list_fmap_ext. intros i c Hc%list_elem_of_lookup_2.
  apply list_elem_of_filter in Hc as [Hcb Hc].
  apply list_elem_of_filter in Hc as [Hca Hc]. symmetry. by apply Hrest.
Qed.

(** What a move changes in a heuristic whose term of the blank is 0. *)
Lemma cell_sum_move (f : Z * Z -> ascii -> Z) (b : Board) (move : string)
    (succ : Board) :
  (forall c, f c blank = 0) ->
  is_layout b -> (move, succ) ∈ successors b ->
  exists cb ct t,
    cb ∈ coordinates /\ ct ∈ coordinates
    /\ (exists dx dy, (move, (dx, dy)) ∈ offsets /\ ct = (cb.1 + dx, cb.2 + dy))
    /\ t ∈ GOAL_STATE /\ t <> blank /\ slides b move succ t
    /\ cell_sum f b - cell_sum f succ = f ct t - f cb t.
Proof.
  intros Hf0 Hb Hs.
  destruct (successor_cells b move succ Hb Hs)
    as (cb & ct & t & Hcb & Hct & Hadj & Hbb & Hbt & Hne & Hsl & Hsb & Hst & Hrest).
  exists cb, ct, t. repeat split; try done.
  - rewrite <- Hbt. by apply tile_at_goal.
  - unfold cell_sum.
    assert (cb <> ct) as Hd by (intros ->; congruence).
    pose proof (cell_sum_two (fun c => f c (tile_at b c)) (fun c => f c (tile_at succ c))
                  cb ct Hcb Hct Hd) as H2.
    cbv beta in H2. rewrite Hbb, Hbt, Hsb, Hst, !Hf0 in H2.
    specialize (H2 ltac:(intros c Hc H1 H3; by rewrite Hrest)). lia.
Qed.

(** Moving a tile one cell changes its terms by no more than the square
    of its number. *)
Lemma terms_adjacent (cb : Z * Z) (dx dy : Z) (move : string) (t : ascii) :
  (move, (dx, dy)) ∈ offsets -> t ∈ GOAL_STATE -> t <> blank ->
  let ct := (cb.1 + dx, cb.2 + dy) in
  1 <= tile_value t ^ 2
  /\ Z.abs (misplaced ct t - misplaced cb t) <= tile_value t ^ 2
  /\ Z.abs (distance ct t - distance cb t) <= tile_value t ^ 2
  /\ Z.abs (weighted_distance ct t - weighted_distance cb t) <= tile_value t ^ 2.
Proof.
  intros Hoff Ht Hne. destruct cb as [x y]. simpl.
  assert (1 <= tile_value t ^ 2) as Hv.
  { unfold GOAL_STATE, EightPuzzleBoard in Ht. simpl in Ht.
    repeat (apply elem_of_cons in Ht as [-> | Ht]; [try done; by vm_compute|]).
    by apply elem_of_nil in Ht. }
  split; [done|]. split; [|split].
  - unfold misplaced. repeat case_decide; lia.
  - unfold distance. rewrite !decide_True by done. unfold manhattan. simpl.
    unfold offsets in Hoff.
    repeat (apply elem_of_cons in Hoff as [[= _ -> ->] | Hoff]; [lia |]).
    by apply elem_of_nil in Hoff.
  - unfold weighted_distance, manhattan. simpl.
    destruct (goal_coordinate t) as [gx gy]. simpl.
    unfold offsets in Hoff.
    repeat (apply elem_of_cons in Hoff as [[= _ -> ->] | Hoff]; [nia |]).
    by apply elem_of_nil in Hoff.
Qed.

Lemma heuristic_term (state : Board) (heur : option string) :
  is_layout state -> valid_heur heur ->
  _heuristic state heur = Ok (Some (cell_sum (term_of heur) state)).
Proof.
  intros Hb [-> | [-> | ->]]; unfold _heuristic, term_of.
  - rewrite !bool_decide_eq_true_2 by done. by rewrite num_misplaced_tiles_sum.
  - rewrite !(bool_decide_eq_false_2 (Some "h2" = Some "h1")) by done.
    rewrite !bool_decide_eq_true_2 by done. by rewrite manhattan_distance_sum.
  - rewrite !(bool_decide_eq_false_2 (Some "h3" = Some "h1")) by done.
    rewrite !(bool_decide_eq_false_2 (Some "h3" = Some "h2")) by done.
    rewrite !bool_decide_eq_true_2 by done. by rewrite worse_manhattan_sum.
Qed.

Lemma term_of_cases (heur : option string) :
  term_of heur = misplaced \/ term_of heur = distance
  \/ term_of heur = weighted_distance.
Proof. unfold term_of. repeat case_bool_decide; auto. Qed.

Lemma term_blank (heur : option string) (c : Z * Z) : term_of heur c blank = 0.
Proof.
  destruct (term_of_cases heur) as [-> | [-> | ->]].
  - unfold misplaced. rewrite decide_False; [done | tauto].
  - unfold distance. rewrite decide_False; [done | tauto].
  - unfold weighted_distance. by vm_compute.
Qed.
End heuristic_moves.

(** X5: the heuristics are consistent with the transition cost: for a
    board, a move legal on it and a valid tag, the heuristic of the board
    and of the successor differ by no more than [_transition_cost], so
    h(state) <= cost + h(successor). *)
Theorem heuristic_consistent (state : Board) (move : string) (succ : Board)
    (heur : option string) :
  puzz.is_layout state ->
  (move, succ) ∈ puzz.successors state ->
  valid_heur heur ->
  exists h h' cost,
    GreedySolver._heuristic state heur = Ok (Some h)
    /\ GreedySolver._heuristic succ heur = Ok (Some h')
    /\ UniformCostSolver._transition_cost state move = Ok (Some cost)
    /\ Z.abs (h - h') <= cost
    /\ h <= cost + h'.
Proof.
  intros Hb Hs Hv.
  destruct (successors_slides state move succ Hb Hs) as [Hb' _].
  destruct (cell_sum_move (term_of heur) state move succ (term_blank heur) Hb Hs)
    as (cb & ct & t & Hcb & Hct & (dx & dy & Hoff & ->) & Ht & Hne & Hsl & Hdiff).
  destruct (slides_int state move succ t Hb Hsl) as (n & Hn & _).
  assert (n = tile_value t) as ->.
  { unfold int in Hn. unfold tile_value. by case_match; simplify_eq. }
  exists (cell_sum (term_of heur) state), (cell_sum (term_of heur) succ),
    (tile_value t ^ 2).
  split; [by apply heuristic_term|]. split; [by apply heuristic_term|].
  split; [by apply (slides_transition_cost state move succ t)|].
  destruct (terms_adjacent cb dx dy move t Hoff Ht Hne) as (_ & H1 & H2 & H3).
  cbv zeta in H1, H2, H3.
  destruct (term_of_cases heur) as [Hf | [Hf | Hf]]; rewrite Hf in *; lia.
Qed.

Lemma heuristic_consistent_witness :
  exists h h' cost,
    GreedySolver._heuristic (puzz.EightPuzzleBoard "102345678") (Some "h3") = Ok (Some h)
    /\ GreedySolver._heuristic (puzz.EightPuzzleBoard "142305678") (Some "h3")
       = Ok (Some h')
    /\ UniformCostSolver._transition_cost (puzz.EightPuzzleBoard "102345678") "up"
       = Ok (Some cost)
    /\ Z.abs (h - h') <= cost
    /\ h <= cost + h'.
Proof.
  apply (heuristic_consistent (puzz.EightPuzzleBoard "102345678") "up"
           (puzz.EightPuzzleBoard "142305678") (Some "h3")).
  - apply (bool_decide_unpack _). by vm_compute.
  - apply (bool_decide_unpack _). by vm_compute.
  - right. by right.
Defined.

(** ** The path of a result *)

Section result_path.
Import BreadthFirstSolver.

(** The list comprehension of [get_results_dict] runs over the
    consecutive pairs of the path. *)
Lemma moves_loop_pairs (done_ : list Board) (p : Board) (rest : list Board) :
  comprehension (fun i =>
      prev ← of_option IndexError ((done_ ++ p :: rest) !! (i - 1)%nat);
      cur ← of_option IndexError ((done_ ++ p :: rest) !! i);
      Ok (puzz.get_move prev cur)) (seq (S (length done_)) (length rest))
  = Ok ((fun pq => puzz.get_move pq.1 pq.2) <$> zip (p :: rest) rest).
Proof.
  revert done_ p. induction rest as [|q rest IH]; intros done_ p; [done|].
  change (zip (p :: q :: rest) (q :: rest)) with ((p, q) :: zip (q :: rest) rest).
  cbn [length seq comprehension].
  replace (S (length done_) - 1)%nat with (length done_) by lia.
  rewrite (list_lookup_middle done_ (q :: rest) p (length done_)) by done.
  replace (done_ ++ p :: q :: rest) with ((done_ ++ [p]) ++ q :: rest)
    by (by rewrite <- app_assoc).
  rewrite (list_lookup_middle (done_ ++ [p]) rest q (S (length done_)))
    by (rewrite length_app; simpl; lia).
  specialize (IH (done_ ++ [p]) q).
  rewrite length_app in IH. simpl in IH.
  replace (length done_ + 1)%nat with (S (length done_)) in IH by lia.
  simpl. rewrite IH. done.
Qed.

Lemma results_path (self : Solver) (s : Board) (r : results) :
  get_results_dict self (Some s) = Ok r ->
  exists path cost,
    get_path self (Some s) = Ok path /\ get_cost self s = Ok cost
    /\ r !! "path_cost" = Some (VInt cost)
    /\ r !! "path"
       = Some (VPath (zip (Some "start"
                           :: ((fun pq => puzz.get_move pq.1 pq.2) <$> pairs path))
                          path)).
Proof.
  unfold get_results_dict.
  intros (cost & Hc & (path & Hp & (moves & Hm & [= <-])%bind_Ok)%bind_Ok)%bind_Ok.
  exists path, cost. repeat split; try done.
  rewrite lookup_insert_eq. do 3 f_equal.
  destruct path as [|p rest].
  { simpl in Hm. by injection Hm as <-. }
  unfold range in Hm. simpl length in Hm.
  replace (S (length rest) - 1)%nat with (length rest) in Hm by lia.
  assert (Ok moves = Ok ((fun pq => puzz.get_move pq.1 pq.2) <$> pairs (p :: rest)))
    as [= ->]; [|done].
  rewrite <- Hm. exact (moves_loop_pairs [] p rest).
Qed.

(** The move [get_move] names between a layout and a successor of it. *)
Lemma get_move_successor (p q : Board) (move : string) :
  (move, q) ∈ puzz.successors p ->
  exists m, puzz.get_move p q = Some m /\ (m, q) ∈ puzz.successors p.
Proof.
  intros Hm. unfold puzz.get_move.
  destruct (list_find (fun ms => ms.2 = q) (puzz.successors p)) as [[i ms]|] eqn:Hf.
  - apply list_find_Some in Hf as (Hi & Hq & _). exists ms.1. split; [done|].
    apply list_elem_of_lookup_2 in Hi. destruct ms as [m q']. simpl in *. by subst.
  - apply list_find_None in Hf. rewrite Forall_forall in Hf.
    by destruct (Hf _ Hm).
Qed.

Lemma zip_moves_adjacent (lbl : option string) (states : list Board) :
  Forall (fun pq => exists move, (move, pq.2) ∈ puzz.successors pq.1) (pairs states) ->
  adjacent legal_step
    (zip (lbl :: ((fun pq => puzz.get_move pq.1 pq.2) <$> pairs states)) states).
Proof.
  revert lbl. induction states as [|a [|b rest] IH]; intros lbl Hall.
  - constructor.
  - constructor.
  - change (pairs (a :: b :: rest)) with ((a, b) :: pairs (b :: rest)) in *.
    apply Forall_cons in Hall as [[move Hm] Hall]. simpl in Hm.
    rewrite fmap_cons. cbn [fst snd].
    change (zip (lbl :: puzz.get_move a b :: ?l) (a :: b :: rest))
      with ((lbl, a) :: zip (puzz.get_move a b :: l) (b :: rest)).
    specialize (IH (puzz.get_move a b) Hall).
    destruct (get_move_successor a b move Hm) as (m & Hg & Hin).
    remember (zip _ (b :: rest)) as z eqn:Hz.
    destruct z as [|e z]; [done|].
    simpl in Hz. injection Hz as -> _.
    apply adjacent_cons; [|done]. exists m. done.
Qed.

Lemma zip_moves_states (lbl : option string) (states : list Board) :
  (zip (lbl :: ((fun pq => puzz.get_move pq.1 pq.2) <$> pairs states)) states).*2
  = states.
Proof.
  apply snd_zip. rewrite length_cons, length_fmap. unfold pairs.
  rewrite length_zip. destruct states as [|a rest]; cbn [tail length]; lia.
Qed.

(** The result made of the parent map of a run, for a state of it. *)
Lemma tree_result (self : Solver) (start_state s : Board) (r : results) :
  tree self -> is_Some (parents self !! s) ->
  (forall k, parents self !! k = Some None -> k = start_state) ->
  get_results_dict self (Some s) = Ok r ->
  exists path cost,
    r !! "path" = Some (VPath path)
    /\ r !! "path_cost" = Some (VInt cost)
    /\ head path = Some (Some "start", start_state)
    /\ snd <$> last path = Some s
    /\ adjacent legal_step path
    /\ NoDup path.*2
    /\ path_cost_spec path.*2 = Ok cost.
Proof.
  intros Ht Hs Hroot Hres.
  destruct (results_path self s r Hres) as (states & cost & Hp & Hc & Hrc & Hrp).
  pose proof Ht as [Hlay Hedge Hchain Hfr Hex].
  destruct (Hchain s Hs) as (l & Hch & Hnd).
  rewrite (get_path_chain self s l Hch Hnd) in Hp. injection Hp as <-.
  eexists _, cost. split; [exact Hrp|]. split; [done|].
  destruct (chain_head _ _ _ Hch) as [l' ->].
  destruct (chain_last _ _ _ Hch) as (root & Hl & Hr).
  apply Hroot in Hr as ->.
  assert (head (reverse (s :: l')) = Some start_state) as Hhd
    by (by rewrite head_reverse).
  split.
  { destruct (reverse (s :: l')) as [|a rest]; [done|]. simpl in *. by simplify_eq. }
  split.
  { rewrite <- fmap_last, zip_moves_states. by rewrite reverse_cons, last_snoc. }
  split.
  { apply zip_moves_adjacent.
    pose proof (adjacent_pairs _ _
                  (adjacent_reverse _ _ (chain_adjacent _ _ _ Hch))) as Hadj.
    eapply Forall_impl; [exact Hadj|]. intros [p q]. simpl. unfold flip.
    intros Hq. by destruct (Hedge q p Hq) as [_ Hm]. }
  rewrite zip_moves_states. split; [by rewrite reverse_Permutation|].
  rewrite get_cost_pairs, (get_path_chain self s (s :: l')) in Hc by done.
  exact Hc.
Qed.
End result_path.

(** Reading a result off a run that has been evaluated. *)
Lemma returned {A} (x : res A) :
  match x with Ok _ => true | Raise _ => false end = true -> exists r, x = Ok r.
Proof. destruct x as [r|e]; [by exists r | done]. Qed.

Lemma table_column_result (x : res results) (n : nat) (c : Z)
    (fc ec : option value) :
  table_column x = Ok (Some n, Some (VInt c), fc, ec) ->
  exists r path,
    x = Ok r /\ r !! "path" = Some (VPath path) /\ length path = n
    /\ r !! "path_cost" = Some (VInt c).
Proof.
  destruct x as [r|e]; [|done]. unfold table_column, path_length. simpl.
  destruct (r !! "path") as [[?|path]|] eqn:Hp; try done.
  intros [= <- Hc _ _]. by exists r, path.
Qed.

(** X6: whatever the strategy, the result of a search from a layout either
    has no path and no cost, or has both: the path starts with the pair
    of "start" and the start state, ends in the goal state, visits no
    state twice, each further entry names a move that is legal on the
    state before it and leads to its own state, and the cost is the sum
    of the squares of the tiles moved along it. *)
Theorem solution_is_valid (s : strategy) (fuel : nat) (start_state : Board)
    (r : results) :
  puzz.is_layout start_state ->
  solve_of s (fresh s) fuel start_state = Ok r ->
  (r !! "path" = None /\ r !! "path_cost" = None)
  \/ exists path cost,
       r !! "path" = Some (VPath path)
       /\ r !! "path_cost" = Some (VInt cost)
       /\ head path = Some (Some "start", start_state)
       /\ snd <$> last path = Some GOAL_STATE
       /\ adjacent legal_step path
       /\ NoDup path.*2
       /\ path_cost_spec path.*2 = Ok cost.
Proof.
  intros Hl Hs. apply solve_ends in Hs.
  destruct Hs as [Hg Hres | self Hr He Hres | self node Hr Ht Hg Hres
                 | self node succ Hr Hb Hg Hres].
  - right. rewrite goal_fresh in Hg. rewrite <- Hg.
    apply (tree_result (BreadthFirstSolver.start (fresh s) start_state)
             start_state start_state r); try done.
    + by apply tree_start.
    + destruct s; simpl; rewrite lookup_insert_eq; eauto.
    + intros k. destruct s; simpl; rewrite lookup_insert; case_decide; naive_solver.
  - left. rewrite results_failure in Hres. injection Hres as <-. done.
  - right. destruct (reach_tree s start_state _ self Hl Hr) as [Htree Hat].
    simpl in Hat. rewrite <- (reach_goal s start_state _ self Hr), <- Hg.
    apply (tree_result self start_state node r); try done.
    + by apply (tree_explored self Htree).
    + by apply (reach_root s start_state _ self Hr).
  - right. destruct (reach_tree s start_state _ self Hl Hr) as [Htree _].
    rewrite <- (reach_goal s start_state _ self Hr), <- Hg.
    apply (tree_result self start_state succ r); try done.
    + inversion Hr; subst. simpl. rewrite lookup_insert_eq. eauto.
    + by apply (reach_root s start_state _ self Hr).
Qed.

Lemma solution_is_valid_witness :
  exists r,
    solve_of UCS (fresh UCS) 10 (puzz.EightPuzzleBoard "312045678") = Ok r
    /\ ((r !! "path" = None /\ r !! "path_cost" = None)
        \/ exists path cost,
             r !! "path" = Some (VPath path)
             /\ r !! "path_cost" = Some (VInt cost)
             /\ head path = Some (Some "start", puzz.EightPuzzleBoard "312045678")
             /\ snd <$> last path = Some GOAL_STATE
             /\ adjacent legal_step path
             /\ NoDup path.*2
             /\ path_cost_spec path.*2 = Ok cost).
Proof.
  destruct (returned (solve_of UCS (fresh UCS) 10 (puzz.EightPuzzleBoard "312045678")))
    as [r Hs]; [by vm_compute|].
  exists r. split; [done|].
  apply (solution_is_valid UCS 10 (puzz.EightPuzzleBoard "312045678") r); [|done].
  apply (bool_decide_unpack _). by vm_compute.
Defined.

(** ** The frontier, the explored set and the parent map along a run *)

Section search_state.
Import BreadthFirstSolver.

Lemma met_effect (node succ : Board) (self self' : Solver) :
  NoDup (pdqpq.keys (frontier self)) ->
  visit_effect node succ self self' ->
  dom (parents self) = met self -> dom (parents self') = met self'.
Proof.
  intros Hnd [-> | c He Hc -> | c He Hc ->] Hd; [done | |]; unfold met in *; simpl.
  - apply contains_false in Hc. rewrite dom_insert_L, Hd, keys_add by done.
    rewrite list_to_set_app_L. set_solver.
  - apply contains_true in Hc. rewrite dom_insert_L, Hd.
    rewrite keys_add by (rewrite elem_of_keys_remove; tauto).
    rewrite list_to_set_app_L. apply set_eq. intros k.
    rewrite !elem_of_union, !elem_of_list_to_set, elem_of_keys_remove.
    rewrite list_elem_of_singleton, elem_of_singleton.
    destruct (decide (k = succ)) as [-> | Hne]; tauto.
Qed.

(** The parent map has an entry for the states met and for no other,
    until breadth-first search binds the goal it just generated. *)
Lemma reach_met (s : strategy) (start_state : Board) (pt : point) (self : Solver) :
  reach s start_state pt self ->
  (forall node succ, pt <> Found node succ) ->
  dom (parents self) = met self.
Proof.
  induction 1 as [| |self Hr IH Hne|self node q Hr IH He Hp|self node Hr IH Hg
                  |self node move succ rest self' Hr IH Hv|self node Hr IH
                  |self node move succ rest Hr IH Hb Hc He Hg]; intros Hpt.
  - destruct s; unfold met; simpl; set_solver.
  - destruct s; unfold met; simpl; set_solver.
  - by apply IH.
  - specialize (IH ltac:(done)). unfold met in *. simpl. rewrite IH.
    destruct (reach_counted _ _ _ _ Hr) as [Hnd _ _ _ _].
    destruct (pop_keys _ _ _ Hp) as (Hin & _ & Hq).
    destruct (Hq Hnd) as [_ Hk]. apply set_eq. intros k.
    rewrite !elem_of_union, !elem_of_list_to_set, Hk, elem_of_singleton.
    destruct (decide (k = node)) as [-> | Hne]; tauto.
  - by apply IH.
  - apply visit_next in Hv. apply (met_effect node succ self); [|done|by apply IH].
    by destruct (reach_counted _ _ _ _ Hr).
  - by apply IH.
  - by destruct (Hpt node succ).
Qed.

Lemma reach_at_point (s : strategy) (start_state : Board) (pt : point)
    (self : Solver) :
  reach s start_state pt self -> at_point pt self.
Proof.
  induction 1 as [| |self Hr IH Hne|self node q Hr IH He Hp|self node Hr IH Hg
                  |self node move succ rest self' Hr IH Hv|self node Hr IH
                  |self node move succ rest Hr IH Hb Hc He Hg]; simpl; try done.
  - set_solver.
  - destruct IH as [Hn Hrest]. apply visit_next in Hv. split.
    + by rewrite (explored_effect node succ self self').
    + intros m sc Hin. apply Hrest. by right.
Qed.

(** The start state keeps its entry without a parent. *)
Lemma reach_start (s : strategy) (start_state : Board) (pt : point) (self : Solver) :
  reach s start_state pt self -> pt <> Fresh ->
  parents self !! start_state = Some None /\ start_seen start_state self.
Proof.
  induction 1 as [| |self Hr IH Hne|self node q Hr IH He Hp|self node Hr IH Hg
                  |self node move succ rest self' Hr IH Hv|self node Hr IH
                  |self node move succ rest Hr IH Hb Hc He Hg]; intros Hpt.
  - done.
  - split; [destruct s; simpl; apply lookup_insert_eq|].
    right. by destruct s.
  - by apply IH.
  - destruct IH as [Hps Hs]; [done|]. split; [done|]. left. simpl.
    destruct Hs as [Hs | [Hk Hx]]; [set_solver|].
    destruct (pop_keys _ _ _ Hp) as (Hin & _). rewrite Hk in Hin.
    apply list_elem_of_singleton in Hin as ->. set_solver.
  - by apply IH.
  - destruct IH as [Hps Hs]; [done|].
    destruct (reach_at_point s start_state _ self Hr) as [Hn _].
    assert (start_state ∈ explored self) as Hse.
    { destruct Hs as [Hs | [_ Hx]]; [done|]. rewrite Hx in Hn. set_solver. }
    apply visit_next in Hv as [-> | c Hx _ -> | c Hx _ ->]; simpl.
    + split; [done | by left].
    + split; [|by left]. rewrite lookup_insert_ne; [done|]. by intros ->.
    + split; [|by left]. rewrite lookup_insert_ne; [done|]. by intros ->.
  - by apply IH.
  - destruct IH as [Hps Hs]; [done|].
    destruct (reach_at_point s start_state _ self Hr) as [Hn _].
    assert (start_state ∈ explored self) as Hse.
    { destruct Hs as [Hs | [_ Hx]]; [done|]. rewrite Hx in Hn. set_solver. }
    simpl. split; [|by left]. rewrite lookup_insert_ne; [done|]. by intros ->.
Qed.
End search_state.

Section rebinding.
Import BreadthFirstSolver.

Lemma adjacent_impl {A} (R R' : A -> A -> Prop) (l : list A) :
  (forall a b, R a b -> R' a b) -> adjacent R l -> adjacent R' l.
Proof.
  intros HR. induction 1 as [|x|x y l Hxy Hl IH]; constructor; auto.
Qed.

(** Breadth-first and greedy search leave a successor that is in the
    frontier alone. *)
Lemma first_discovery_wins (s : strategy) (node : Board) (self : Solver)
    (move : string) (succ : Board) (self' : Solver) :
  tests_replace s = false ->
  visit_of s node self move succ = Ok (Next self') ->
  pdqpq.contains (frontier self) succ = true -> self' = self.
Proof.
  destruct s as [| |heur|heur]; try done; intros _; simpl.
  - unfold visit. intros Hv Hc. rewrite Hc in Hv. simpl in Hv. by injection Hv as <-.
  - unfold GreedySolver.visit. intros Hv Hc. rewrite Hc in Hv. simpl in Hv.
    by injection Hv as <-.
Qed.
(** The visit that replaces a frontier item in the run stopped at
    [replacing_solver] gives its state another parent. *)
Lemma replacing_visit_parent :
  exists self',
    UniformCostSolver.visit (puzz.EightPuzzleBoard "648103725") replacing_solver
      "right" (puzz.EightPuzzleBoard "648013725") = Ok (Next self')
    /\ parents self' !! puzz.EightPuzzleBoard "648013725"
       <> parents replacing_solver !! puzz.EightPuzzleBoard "648013725".
Proof.
  assert (match UniformCostSolver.visit (puzz.EightPuzzleBoard "648103725")
                  replacing_solver "right" (puzz.EightPuzzleBoard "648013725") with
          | Ok (Next x) => parents x !! puzz.EightPuzzleBoard "648013725"
          | _ => None
          end = Some (Some (puzz.EightPuzzleBoard "648103725"))) as Hx
    by (by vm_compute).
  destruct (UniformCostSolver.visit (puzz.EightPuzzleBoard "648103725")
              replacing_solver "right" (puzz.EightPuzzleBoard "648013725"))
    as [[r | self']|]; [done | | done].
  exists self'. split; [done|]. rewrite Hx.
  assert (parents replacing_solver !! puzz.EightPuzzleBoard "648013725"
          <> Some (Some (puzz.EightPuzzleBoard "648103725"))) as Hg
    by (by vm_compute).
  congruence.
Qed.
End rebinding.

(** X7: at every point of a run of any strategy the frontier holds no
    state twice and none that is explored, [expanded_count] is the number
    of explored states, the parent map has an entry exactly for the
    states of the frontier and the explored ones, and the state the next
    turn pops is not explored yet and leaves the frontier: no state is
    expanded twice. *)
Theorem frontier_explored_partition (s : strategy) (start_state : Board)
    (pt : point) (self : Solver) :
  reach s start_state pt self ->
  NoDup (pdqpq.keys (frontier self))
  /\ (forall k, k ∈ pdqpq.keys (frontier self) -> k ∉ explored self)
  /\ expanded_count self = Z.of_nat (size (explored self))
  /\ ((forall node succ, pt <> Found node succ) -> dom (parents self) = met self)
  /\ (forall node q, pdqpq.pop (frontier self) = Ok (node, q) ->
        (node ∉ explored self) /\ (node ∉ pdqpq.keys q)).
Proof.
  intros Hr. destruct (reach_counted s start_state pt self Hr) as [Hnd Hdis _ _ Hex].
  split; [done|]. split; [done|]. split; [done|].
  split; [by apply (reach_met s start_state)|].
  intros node q Hp. destruct (pop_keys _ _ _ Hp) as (Hin & _ & Hq).
  destruct (Hq Hnd) as [_ Hk]. split; [by apply Hdis|]. rewrite Hk. tauto.
Qed.

Lemma frontier_explored_partition_witness :
  NoDup (pdqpq.keys (frontier replacing_solver))
  /\ expanded_count replacing_solver = Z.of_nat (size (explored replacing_solver))
  /\ dom (parents replacing_solver) = met replacing_solver.
Proof.
  destruct (frontier_explored_partition UCS (puzz.EightPuzzleBoard "048612753")
              (Visiting (puzz.EightPuzzleBoard "648103725")
                        [("right", puzz.EightPuzzleBoard "648013725")])
              replacing_solver replacing_reach) as (Hnd & _ & Hex & Hd & _).
  split; [exact Hnd|]. split; [exact Hex|]. by apply Hd.
Defined.

(** X8: at every point of a run from a layout, every state with an entry
    in the parent map is a layout; it has no parent exactly when it is
    the start state; its parent is an explored state that has it for
    successor; and [get_path] returns for it a path from the start state
    to it that visits no state twice and goes from each state to a
    successor of it. *)
Theorem parents_lead_to_start (s : strategy) (start_state : Board) (pt : point)
    (self : Solver) (k : Board) :
  puzz.is_layout start_state ->
  reach s start_state pt self ->
  is_Some (parents self !! k) ->
  puzz.is_layout k
  /\ (parents self !! k = Some None <-> k = start_state)
  /\ (forall p, parents self !! k = Some (Some p) ->
        p ∈ explored self /\ exists move, (move, k) ∈ puzz.successors p)
  /\ exists path,
       BreadthFirstSolver.get_path self (Some k) = Ok path
       /\ head path = Some start_state /\ last path = Some k /\ NoDup path
       /\ adjacent (fun a b => exists move, (move, b) ∈ puzz.successors a) path.
Proof.
  intros Hl Hr Hk. destruct (reach_tree s start_state pt self Hl Hr) as [Ht _].
  pose proof Ht as [Hlay Hedge Hchain Hfr Hex].
  split; [by apply Hlay|]. split; [|split; [by apply Hedge|]].
  - split; [by apply (reach_root s start_state pt self)|]. intros ->.
    apply (reach_start s start_state pt self Hr). intros ->.
    inversion Hr; subst. destruct s; simpl in Hk; by destruct Hk.
  - destruct (Hchain k Hk) as (l & Hc & Hnd). exists (reverse l).
    split; [by apply get_path_chain|].
    destruct (chain_last _ _ _ Hc) as (root & Hlast & Hroot).
    apply (reach_root s start_state pt self Hr) in Hroot as ->.
    split; [by rewrite head_reverse|].
    destruct (chain_head _ _ _ Hc) as [l' ->].
    split; [by rewrite reverse_cons, last_snoc|].
    split; [by rewrite reverse_Permutation|].
    apply (adjacent_impl (flip (fun a b => parents self !! a = Some (Some b)))).
    + intros a b Hab. by destruct (Hedge b a Hab).
    + apply adjacent_reverse. by apply (chain_adjacent _ k).
Qed.

Lemma parents_lead_to_start_witness :
  exists path,
    BreadthFirstSolver.get_path replacing_solver
      (Some (puzz.EightPuzzleBoard "648013725")) = Ok path
    /\ head path = Some (puzz.EightPuzzleBoard "048612753")
    /\ last path = Some (puzz.EightPuzzleBoard "648013725")
    /\ NoDup path
    /\ adjacent (fun a b => exists move, (move, b) ∈ puzz.successors a) path.
Proof.
  apply (parents_lead_to_start UCS (puzz.EightPuzzleBoard "048612753")
           (Visiting (puzz.EightPuzzleBoard "648103725")
                     [("right", puzz.EightPuzzleBoard "648013725")])
           replacing_solver (puzz.EightPuzzleBoard "648013725")).
  - apply (bool_decide_unpack _). by vm_compute.
  - exact replacing_reach.
  - apply (bool_decide_unpack _). by vm_compute.
Defined.

(** X9: a visit after which the loop goes on changes the parent of no
    state but the successor visited, which it binds to the node being
    expanded; it never changes the parent of an explored state; and when
    the successor had a parent already, the search is uniform-cost or
    A-star and the successor is in the frontier: breadth-first and greedy
    search never rebind a parent. *)
Theorem parent_rebound_only_in_frontier (s : strategy) (start_state node : Board)
    (move : string) (succ : Board) (rest : list (string * Board))
    (self self' : Solver) (k : Board) :
  reach s start_state (Visiting node ((move, succ) :: rest)) self ->
  visit_of s node self move succ = Ok (Next self') ->
  parents self' !! k <> parents self !! k ->
  k = succ
  /\ parents self' !! k = Some (Some node)
  /\ (k ∉ explored self)
  /\ (is_Some (parents self !! k) ->
        tests_replace s = true /\ k ∈ pdqpq.keys (frontier self)).
Proof.
  intros Hr Hv Hne.
  pose proof (reach_met s start_state _ self Hr ltac:(done)) as Hd.
  pose proof (visit_next s node self move succ self' Hv) as [-> | c He Hc -> | c He Hc ->];
    [done | |]; simpl in *.
  - rewrite lookup_insert in Hne. case_decide as Hk; [subst k|done].
    rewrite lookup_insert_eq. repeat split; try done.
    + apply elem_of_dom in H. rewrite Hd in H. unfold met in H.
      apply contains_false in Hc. set_solver.
    + apply elem_of_dom in H. rewrite Hd in H. unfold met in H.
      apply contains_false in Hc. set_solver.
  - rewrite lookup_insert in Hne. case_decide as Hk; [subst k|done].
    rewrite lookup_insert_eq. repeat split; try done.
    + destruct (tests_replace s) eqn:Ht; [done|].
      pose proof (first_discovery_wins s node self move succ _ Ht Hv Hc) as Heq.
      rewrite <- Heq in Hne. simpl in Hne. by rewrite lookup_insert_eq in Hne.
    + by apply contains_true.
Qed.

Lemma parent_rebound_only_in_frontier_witness :
  exists self',
    UniformCostSolver.visit (puzz.EightPuzzleBoard "648103725") replacing_solver
      "right" (puzz.EightPuzzleBoard "648013725") = Ok (Next self')
    /\ parents self' !! puzz.EightPuzzleBoard "648013725"
       = Some (Some (puzz.EightPuzzleBoard "648103725"))
    /\ puzz.EightPuzzleBoard "648013725" ∈ pdqpq.keys (frontier replacing_solver).
Proof.
  destruct replacing_visit_parent as (self' & Hv & Hne).
  exists self'. split; [exact Hv|].
  destruct (parent_rebound_only_in_frontier UCS (puzz.EightPuzzleBoard "048612753")
              (puzz.EightPuzzleBoard "648103725") "right"
              (puzz.EightPuzzleBoard "648013725") [] replacing_solver self'
              (puzz.EightPuzzleBoard "648013725") replacing_reach Hv Hne)
    as (_ & Hp & _ & Hin).
  split; [exact Hp|]. apply Hin. apply (bool_decide_unpack _). by vm_compute.
Defined.

(** ** The priorities of the frontier *)

Section priorities.
Import BreadthFirstSolver.

Lemma get_cost_parents (self self' : Solver) (k : Board) :
  parents self' = parents self -> get_cost self' k = get_cost self k.
Proof. intros Hp. unfold get_cost, get_path. by rewrite Hp. Qed.

Lemma priority_parents (s : strategy) (self self' : Solver) (k : Board) (c : Z) :
  parents self' = parents self ->
  priority_of s self k c -> priority_of s self' k c.
Proof.
  intros Hp. destruct s as [| |heur|heur]; simpl; try done.
  - by rewrite (get_cost_parents self self').
  - by rewrite (get_cost_parents self self').
Qed.

(** Binding a state that is not explored leaves the cost of the others
    as it is. *)
Lemma get_cost_other (self self' : Solver) (node succ k : Board) :
  tree self -> succ ∉ explored self -> k <> succ ->
  is_Some (parents self !! k) ->
  parents self' = <[succ := Some node]> (parents self) ->
  get_cost self' k = get_cost self k.
Proof.
  intros [Hlay Hedge Hchain Hfr Hex] Hs Hne Hk Hp.
  destruct (Hchain k Hk) as (l & Hc & Hnd).
  assert (chain (parents self') k l) as Hc'.
  { rewrite Hp. apply chain_insert; [done|].
    destruct (chain_head _ k l Hc) as [l' ->].
    apply not_elem_of_cons. split; [done|]. intros Hin. apply Hs.
    apply (chain_explored (parents self) (explored self) k (k :: l')); [|done..].
    intros a p Hap. by apply (Hedge a p). }
  by rewrite !get_cost_pairs, (get_path_chain self k l),
    (get_path_chain self' k l).
Qed.

Lemma priority_other (s : strategy) (self self' : Solver) (node succ k : Board)
    (c : Z) :
  tree self -> succ ∉ explored self -> k <> succ ->
  is_Some (parents self !! k) ->
  parents self' = <[succ := Some node]> (parents self) ->
  priority_of s self k c -> priority_of s self' k c.
Proof.
  intros Ht Hs Hne Hk Hp. destruct s as [| |heur|heur]; simpl; try done.
  - by rewrite (get_cost_other self self' node succ k).
  - by rewrite (get_cost_other self self' node succ k).
Qed.

Lemma pop_items (q : pdqpq.Queue) (node : Board) (q' : pdqpq.Queue) :
  pdqpq.pop q = Ok (node, q') -> pdqpq.items q' ⊆ pdqpq.items q.
Proof.
  unfold pdqpq.pop. destruct (pdqpq.items q) as [|e l] eqn:Hi; [done|].
  destruct (pdqpq.fifo q).
  - intros [= <- <-]. simpl. set_solver.
  - intros [= <- <-]. simpl. rewrite Hi. by intros x [_ Hx]%list_elem_of_filter.
Qed.

Lemma items_add (q : pdqpq.Queue) (succ : Board) (c : Z) (k : Board) (c' : Z) :
  (k, c') ∈ pdqpq.items (pdqpq.add q succ c) ->
  ((k, c') ∈ pdqpq.items q /\ k <> succ)
  \/ (k = succ /\ (pdqpq.fifo q = false -> c' = c)).
Proof.
  unfold pdqpq.add. destruct (pdqpq.fifo q); simpl.
  - intros [Hin | [= -> ->]%list_elem_of_singleton]%elem_of_app; [|by right].
    destruct (decide (k = succ)) as [-> | Hne]; [by right | by left].
  - intros [[Hne Hin]%list_elem_of_filter | [= -> ->]%list_elem_of_singleton]%elem_of_app;
      [by left | by right].
Qed.

Lemma items_remove (q : pdqpq.Queue) (succ k : Board) (c : Z) :
  (k, c) ∈ pdqpq.items (pdqpq.remove q succ) -> (k, c) ∈ pdqpq.items q /\ k <> succ.
Proof. unfold pdqpq.remove. simpl. by intros [Hne Hin]%list_elem_of_filter. Qed.

(** The priority a visit gives the successor it adds or replaces. *)
Lemma visit_succ_priority (s : strategy) (start_state node : Board) (self : Solver)
    (move : string) (succ : Board) (rest : list (string * Board)) (self' : Solver)
    (c : Z) :
  puzz.is_layout start_state ->
  reach s start_state (Visiting node ((move, succ) :: rest)) self ->
  visit_of s node self move succ = Ok (Next self') ->
  self' <> self ->
  (succ, c) ∈ pdqpq.items (frontier self') ->
  priority_of s self' succ c.
Proof.
  intros Hl Hr.
  destruct (reach_tree s start_state _ self Hl Hr) as [Ht [Hn Hrest]].
  assert ((move, succ) ∈ puzz.successors node) as Hm by (apply Hrest; by left).
  pose proof (tree_explored self Ht node Hn) as Hnp.
  pose proof (tree_layout self Ht node Hnp) as Hln.
  destruct (successors_slides node move succ Hln Hm) as [Hls [t Hsl]].
  destruct (slides_int node move succ t Hln Hsl) as (n & Hint & _).
  pose proof (slides_transition_cost node move succ t n Hsl Hint) as Htc.
  pose proof (reach_fifo s start_state _ self Hr) as Hfifo.
  assert (forall q c0, pdqpq.fifo q = false ->
            (succ, c) ∈ pdqpq.items (pdqpq.add q succ c0) -> c = c0) as Hadd.
  { intros q c0 Hf [[_ Hne] | [_ Hc]]%items_add; [done | by apply Hc]. }
  destruct s as [| |heur|heur]; simpl in *; [done | | |].
  - unfold UniformCostSolver.visit. intros H Hne Hin. invert_bind.
    case_bool_decide as He; [by injection H as <-|].
    destruct (pdqpq.contains (frontier self) succ) eqn:Hc.
    + invert_bind. case_match; [|by injection H as <-].
      invert_bind. injection H as <-. simpl in Hin.
      apply Hadd in Hin as ->; [|done]. by erewrite get_cost_parents.
    + invert_bind. injection H as <-. simpl in Hin.
      apply Hadd in Hin as ->; [|done]. by erewrite get_cost_parents.
  - unfold GreedySolver.visit.
    destruct (pdqpq.contains (frontier self) succ) eqn:Hc; simpl;
      [by intros [= <-]|].
    case_bool_decide as He; simpl; [by intros [= <-]|].
    intros H Hne Hin. invert_bind. injection H as <-.
    unfold GreedySolver.add_value in *. case_match; [|done]. simplify_eq.
    simpl in Hin. apply Hadd in Hin as ->; done.
  - unfold AStarSolver.visit.
    case_bool_decide as He; simpl; [by intros [= <-]|].
    destruct (pdqpq.contains (frontier self) succ) eqn:Hc.
    + intros H Hne Hin. invert_bind. case_match; [|by injection H as <-].
      injection H as <-. simpl in Hin.
      apply Hadd in Hin as ->; [|done].
      unfold plus in *. repeat case_match; simplify_eq.
      eexists _, _. split; [|split; [done|]].
      * eapply (get_cost_child self _ node succ move t n); try done.
      * rewrite Htc in *. simplify_eq. lia.
    + intros H Hne Hin. invert_bind. injection H as <-. simpl in Hin.
      apply Hadd in Hin as ->; [|done].
      unfold plus in *. repeat case_match; simplify_eq.
      eexists _, _. split; [|split; [done|done]].
      by erewrite get_cost_parents.
Qed.

Lemma Solver_eq_dec (a b : Solver) : {a = b} + {a <> b}.
Proof.
  assert (EqDecision pdqpq.Queue) by solve_decision. solve_decision.
Qed.

Lemma effect_prioritised (s : strategy) (start_state node succ : Board)
    (self self' : Solver) :
  tree self -> start_state ∈ explored self ->
  visit_effect node succ self self' ->
  (self' <> self ->
   forall c, (succ, c) ∈ pdqpq.items (frontier self') -> priority_of s self' succ c) ->
  prioritised s start_state self -> prioritised s start_state self'.
Proof.
  intros Ht Hs Hv Hsucc Hp.
  assert (forall k c, (k, c) ∈ pdqpq.items (frontier self) ->
            is_Some (parents self !! k)) as Hdom.
  { intros k c Hin. apply (tree_frontier self Ht). unfold pdqpq.keys.
    apply list_elem_of_fmap. by exists (k, c). }
  destruct Hv as [-> | c0 He Hc Heq | c0 He Hc Heq]; [done | |].
  - assert (self' <> self) as Hne.
    { intros Hss. rewrite Hss in Heq. apply (f_equal frontier_count) in Heq.
      simpl in Heq. lia. }
    intros k c Hin. pose proof Hin as Hin'. rewrite Heq in Hin. simpl in Hin.
    apply items_add in Hin as [[Hin Hk] | [-> _]].
    + specialize (Hp k c Hin). case_decide; [done|].
      apply (priority_other s self self' node succ k c); try done.
      * by apply (Hdom k c).
      * by rewrite Heq.
    + rewrite decide_False by (by intros ->). by apply Hsucc.
  - destruct (Solver_eq_dec self' self) as [-> | Hne]; [done|].
    intros k c Hin. pose proof Hin as Hin'. rewrite Heq in Hin. simpl in Hin.
    apply items_add in Hin as [[[Hin _]%items_remove Hk] | [-> _]].
    + specialize (Hp k c Hin). case_decide; [done|].
      apply (priority_other s self self' node succ k c); try done.
      * by apply (Hdom k c).
      * by rewrite Heq.
    + rewrite decide_False by (by intros ->). by apply Hsucc.
Qed.

Lemma reach_prioritised (s : strategy) (start_state : Board) (pt : point)
    (self : Solver) :
  puzz.is_layout start_state ->
  reach s start_state pt self -> prioritised s start_state self.
Proof.
  intros Hl.
  induction 1 as [| |self Hr IH Hne|self node q Hr IH He Hp|self node Hr IH Hg
                  |self node move succ rest self' Hr IH Hv|self node Hr IH
                  |self node move succ rest Hr IH Hb Hc He Hg]; try done.
  - intros k c Hin. destruct s; simpl in Hin; by apply elem_of_nil in Hin.
  - intros k c Hin.
    assert ((k, c) = (start_state, 0)) as [= -> ->].
    { destruct s; simpl in Hin; by apply list_elem_of_singleton in Hin. }
    by rewrite decide_True.
  - intros k c Hin. simpl in Hin. apply (pop_items _ _ _ Hp) in Hin.
    specialize (IH k c Hin). case_decide; [done|].
    by apply (priority_parents s self).
  - destruct (reach_tree s start_state _ self Hl Hr) as [Ht [Hn _]].
    apply (effect_prioritised s start_state node succ self); try done.
    + destruct (reach_start s start_state _ self Hr) as [_ [Hs | [_ Hx]]];
        [done | done | set_solver].
    + by apply (visit_next s node self move succ).
    + intros Hne c. by apply (visit_succ_priority s start_state node self move succ rest).
  - subst s. intros k c Hin. simpl in Hin. specialize (IH k c Hin).
    by case_decide.
Qed.
End priorities.

(** X10: at every point of a run of uniform-cost, greedy or A-star
    search from a layout, the priority of every state of the frontier
    but the start state is: for uniform-cost search, the cost [get_cost]
    gives for the state in the current parent map; for greedy search,
    its heuristic; for A-star search, the sum of the two.  The start
    state is added with the default priority 0. *)
Theorem frontier_priorities (s : strategy) (start_state : Board) (pt : point)
    (self : Solver) (k : Board) (c : Z) :
  puzz.is_layout start_state ->
  reach s start_state pt self ->
  (k, c) ∈ pdqpq.items (frontier self) ->
  (k = start_state -> c = 0)
  /\ (k <> start_state -> priority_of s self k c).
Proof.
  intros Hl Hr Hin.
  pose proof (reach_prioritised s start_state pt self Hl Hr k c Hin) as Hp.
  case_decide; split; done.
Qed.

Lemma frontier_priorities_witness :
  BreadthFirstSolver.get_cost replacing_solver (puzz.EightPuzzleBoard "648013725")
  = Ok 112.
Proof.
  apply (frontier_priorities UCS (puzz.EightPuzzleBoard "048612753")
           (Visiting (puzz.EightPuzzleBoard "648103725")
                     [("right", puzz.EightPuzzleBoard "648013725")])
           replacing_solver (puzz.EightPuzzleBoard "648013725") 112).
  - apply (bool_decide_unpack _). by vm_compute.
  - exact replacing_reach.
  - apply (bool_decide_unpack _). by vm_compute.
  - by vm_compute.
Defined.

(** ** Every run returns *)

Section counting_layouts.
Context {A : Type}.

Lemma length_interleave (x : A) (l : list A) :
  length (interleave x l) = S (length l).
Proof.
  induction l as [|y l IH]; [done|]. simpl. by rewrite length_fmap, IH.
Qed.

Lemma length_bind_const (f : list A -> list (list A)) (c : nat)
    (ls : list (list A)) :
  (forall l, l ∈ ls -> length (f l) = c) ->
  length (ls ≫= f) = (c * length ls)%nat.
Proof.
  induction ls as [|l ls IH]; intros Hf; [simpl; lia|].
  change ((l :: ls) ≫= f) with (f l ++ (ls ≫= f)).
  rewrite length_app, Hf by (by left). rewrite IH by (intros; apply Hf; by right).
  simpl. lia.
Qed.

Lemma length_permutations (l : list A) :
  length (permutations l) = fact (length l).
Proof.
  induction l as [|x l IH]; [done|]. simpl permutations.
  rewrite (length_bind_const _ (S (length l))).
  - rewrite IH. simpl. lia.
  - intros l' Hl'%permutations_Permutation.
    rewrite length_interleave. f_equal. by rewrite Hl'.
Qed.
End counting_layouts.

Section totality.
Import BreadthFirstSolver.

Lemma size_list_to_set_le (l : list Board) :
  (size (list_to_set l : gset Board) <= length l)%nat.
Proof.
  induction l as [|x l IH].
  { rewrite list_to_set_nil, size_empty. simpl. lia. }
  rewrite list_to_set_cons, size_union_alt, size_singleton. simpl length.
  pose proof (subseteq_size (list_to_set l ∖ {[x]}) (list_to_set l : gset Board)
                ltac:(set_solver)).
  lia.
Qed.

Lemma size_layouts : (size layouts <= fact 9)%nat.
Proof.
  unfold layouts. etrans; [apply size_list_to_set_le|].
  by rewrite length_permutations.
Qed.

Lemma elem_of_layouts (b : Board) : b ∈ layouts <-> puzz.is_layout b.
Proof.
  unfold layouts. rewrite elem_of_list_to_set, permutations_Permutation.
  unfold puzz.is_layout. split; intros H; by symmetry.
Qed.

(** The result dictionary is there for every state of the parent map
    of a run. *)
Lemma results_ok (self : Solver) (k : Board) :
  tree self -> is_Some (parents self !! k) ->
  exists r, get_results_dict self (Some k) = Ok r.
Proof.
  intros Ht Hk.
  destruct (tree_cost self k Ht Hk) as (path & tiles & Hp & _ & _ & _ & Hc).
  destruct (results_success self k path _ Hp Hc) as (r & _ & Hr & _).
  by exists r.
Qed.

(** No visit of a run raises. *)
Lemma visit_ok (s : strategy) (start_state node : Board) (self : Solver)
    (move : string) (succ : Board) (rest : list (string * Board)) :
  puzz.is_layout start_state -> valid_strategy s ->
  reach s start_state (Visiting node ((move, succ) :: rest)) self ->
  exists fl, visit_of s node self move succ = Ok fl.
Proof.
  intros Hl Hvs Hr.
  destruct (reach_tree s start_state _ self Hl Hr) as [Ht [Hn Hrest]].
  assert ((move, succ) ∈ puzz.successors node) as Hm by (apply Hrest; by left).
  pose proof (tree_explored self Ht node Hn) as Hnp.
  pose proof (tree_layout self Ht node Hnp) as Hln.
  destruct (tree_cost self node Ht Hnp) as (path & tiles & _ & _ & _ & _ & Hcost).
  set (cost := Zsum ((fun t => tile_value t ^ 2) <$> tiles)) in *.
  destruct (successors_slides node move succ Hln Hm) as [Hls [t Hsl]].
  destruct (slides_int node move succ t Hln Hsl) as (n & Hint & _).
  pose proof (slides_transition_cost node move succ t n Hsl Hint) as Htc.
  assert (forall self1, succ ∉ explored self ->
            parents self1 = <[succ := Some node]> (parents self) ->
            get_cost self1 succ = Ok (cost + n ^ 2)) as Hchild.
  { intros self1 He Hp. by apply (get_cost_child self self1 node succ move t n cost). }
  destruct s as [| |heur|heur]; simpl in *.
  - unfold visit.
    destruct (pdqpq.contains (frontier self) succ) eqn:Hc; cbn [negb andb]; [eauto|].
    case_bool_decide as He; cbn [negb andb]; [eauto|].
    case_bool_decide as Hg; [|eauto].
    pose proof (reach_found BFS start_state self node move succ rest Hr eq_refl
                  Hc He Hg) as Hf.
    destruct (reach_tree BFS start_state _ _ Hl Hf) as [Ht1 _].
    destruct (results_ok _ succ Ht1) as [r Hres].
    { simpl. rewrite lookup_insert_eq. eauto. }
    rewrite Hres. simpl. eauto.
  - unfold UniformCostSolver.visit. rewrite Hcost, Htc. simpl.
    case_bool_decide as He; [eauto|].
    destruct (pdqpq.contains (frontier self) succ) eqn:Hc.
    + apply contains_true, get_Some in Hc as [cur Hcur]. rewrite Hcur. simpl.
      case_match; [|eauto]. rewrite Hchild by done. simpl. eauto.
    + rewrite Hchild by done. simpl. eauto.
  - unfold GreedySolver.visit.
    destruct (pdqpq.contains (frontier self) succ) eqn:Hc; simpl; [eauto|].
    case_bool_decide as He; simpl; [eauto|].
    rewrite (heuristic_term succ heur Hls Hvs). simpl. eauto.
  - unfold AStarSolver.visit.
    case_bool_decide as He; simpl; [eauto|].
    rewrite (heuristic_term succ heur Hls Hvs).
    destruct (pdqpq.contains (frontier self) succ) eqn:Hc.
    + simpl. rewrite Htc, Hcost. simpl.
      apply contains_true, get_Some in Hc as [cur Hcur]. rewrite Hcur. simpl.
      case_match; eauto.
    + rewrite Hchild by done. simpl. eauto.
Qed.

Lemma for_items_ok (s : strategy) (start_state node : Board)
    (succs : list (string * Board)) (self : Solver) :
  puzz.is_layout start_state -> valid_strategy s ->
  reach s start_state (Visiting node succs) self ->
  exists fl, for_items (visit_of s node) self succs = Ok fl.
Proof.
  intros Hl Hvs. revert self.
  induction succs as [|[move succ] rest IH]; intros self Hr; simpl; [eauto|].
  destruct (visit_ok s start_state node self move succ rest Hl Hvs Hr)
    as [[r | self'] Hv]; rewrite Hv; simpl; [eauto|].
  apply IH. by apply (reach_visit s start_state self node move succ rest).
Qed.

Lemma for_items_explored (s : strategy) (node : Board)
    (succs : list (string * Board)) (self self' : Solver) :
  for_items (visit_of s node) self succs = Ok (Next self') ->
  explored self' = explored self.
Proof.
  revert self. induction succs as [|[move succ] rest IH]; intros self; simpl.
  - by intros [= <-].
  - intros ([r | self1] & Hv & Hf)%bind_Ok; [done|].
    rewrite (IH self1 Hf).
    by apply (explored_effect node succ), (visit_next s node self move).
Qed.

(** A turn of the loop does not raise, and when the loop goes on one
    more state is explored. *)
Lemma iteration_ok (s : strategy) (start_state : Board) (self : Solver) :
  puzz.is_layout start_state -> valid_strategy s ->
  reach s start_state Head self ->
  pdqpq.is_empty (frontier self) = false ->
  (size (explored self) < size layouts)%nat
  /\ exists fl, iteration_of s self = Ok fl
       /\ forall self', fl = Next self' ->
            size (explored self') = S (size (explored self)).
Proof.
  intros Hl Hvs Hr He.
  destruct (pdqpq.pop (frontier self)) as [[node q]|e] eqn:Hp.
  2: { unfold pdqpq.pop, pdqpq.is_empty in *.
       destruct (pdqpq.items (frontier self)); [done|]. by destruct (pdqpq.fifo _). }
  pose proof (reach_expanded s start_state self node q Hr He Hp) as Hx.
  set (self1 := (expand_node (set_frontier self q) node).1) in *.
  destruct (reach_tree s start_state _ self1 Hl Hx) as [Ht1 Hn1]. simpl in Hn1.
  destruct (reach_counted s start_state _ self Hr) as [_ Hdis _ _ _].
  destruct (pop_keys _ _ _ Hp) as (Hin & _).
  assert (explored self1 = explored self ∪ {[node]}) as Hex
    by (subst self1; simpl; set_solver).
  assert (size (explored self1) = S (size (explored self))) as Hsize.
  { rewrite Hex. apply size_add_fresh. by apply Hdis. }
  assert (explored self1 ⊆ layouts) as Hsub.
  { intros k Hk. apply elem_of_layouts.
    by apply (tree_layout self1 Ht1), (tree_explored self1 Ht1). }
  apply subseteq_size in Hsub. split; [lia|].
  rewrite iteration_of_unfold, Hp.
  change (Ok (node, q) ≫= _)
    with (if tests_popped s && bool_decide (node = goal self1) then
            r ← get_results_dict self1 (Some node); Ok (Return r)
          else for_items (visit_of s node) self1 (puzz.successors node)).
  destruct (tests_popped s && bool_decide (node = goal self1)) eqn:Htest.
  - destruct (results_ok self1 node Ht1) as [r Hres];
      [by apply (tree_explored self1 Ht1)|].
    rewrite Hres. simpl. eexists. split; [done|]. done.
  - assert (reach s start_state (Visiting node (puzz.successors node)) self1) as Hv.
    { apply reach_visiting; [done|]. intros Htp. rewrite Htp in Htest.
      by apply bool_decide_eq_false in Htest. }
    destruct (for_items_ok s start_state node _ self1 Hl Hvs Hv) as [fl Hfl].
    exists fl. split; [done|]. intros self' ->.
    by rewrite (for_items_explored s node _ self1 self' Hfl).
Qed.

Lemma while_ok (s : strategy) (start_state : Board) (fuel : nat) (self : Solver) :
  puzz.is_layout start_state -> valid_strategy s ->
  reach s start_state Head self ->
  (size layouts - size (explored self) <= fuel)%nat ->
  exists fl, while_frontier fuel (iteration_of s) self = Ok fl.
Proof.
  intros Hl Hvs. revert self.
  induction fuel as [|fuel IH]; intros self Hr Hfuel; simpl;
    destruct (pdqpq.is_empty (frontier self)) eqn:He; eauto;
    destruct (iteration_ok s start_state self Hl Hvs Hr He)
      as (Hlt & fl & Hit & Hsize); [lia|].
  rewrite Hit. simpl. destruct fl as [r | self']; [eauto|].
  apply IH.
  - by apply (reach_iteration s start_state self).
  - rewrite (Hsize self' eq_refl). lia.
Qed.

(** More fuel does not change what the loop hands back. *)
Lemma while_fuel (fuel fuel' : nat) (body : Solver -> res flow) (self : Solver)
    (fl : flow) :
  while_frontier fuel body self = Ok fl -> (fuel <= fuel')%nat ->
  while_frontier fuel' body self = Ok fl.
Proof.
  revert fuel' self. induction fuel as [|fuel IH]; intros fuel' self; simpl.
  - destruct (pdqpq.is_empty (frontier self)) eqn:He; [|done].
    intros Hfl _. destruct fuel'; simpl; by rewrite He.
  - destruct (pdqpq.is_empty (frontier self)) eqn:He.
    + intros Hfl _. destruct fuel'; simpl; by rewrite He.
    + intros (fl' & Hb & Hw)%bind_Ok Hle. destruct fuel' as [|fuel']; [lia|].
      simpl. rewrite He, Hb. simpl. destruct fl' as [r | self']; [done|].
      apply IH; [done | lia].
Qed.
End totality.

(** More fuel does not change what [solve] hands back. *)
Lemma solve_of_fuel (s : strategy) (self : Solver) (fuel fuel' : nat)
    (start_state : Board) (r : results) :
  solve_of s self fuel start_state = Ok r -> (fuel <= fuel')%nat ->
  solve_of s self fuel' start_state = Ok r.
Proof.
  rewrite !solve_of_unfold. cbv zeta. case_bool_decide as Hg; [done|].
  intros (fl & Hw & Hf)%bind_Ok Hle.
  by rewrite (while_fuel fuel fuel' _ _ fl Hw Hle).
Qed.

(** With 9! turns at hand every documented strategy returns. *)
Lemma solve_of_bounded (s : strategy) (start_state : Board) :
  puzz.is_layout start_state ->
  valid_strategy s ->
  exists r, solve_of s (fresh s) (fact 9) start_state = Ok r.
Proof.
  intros Hl Hvs. rewrite solve_of_unfold. cbv zeta.
  assert (goal (BreadthFirstSolver.start (fresh s) start_state) = GOAL_STATE) as ->
    by (by destruct s).
  case_bool_decide as Hg.
  - apply results_ok; [by apply tree_start|].
    destruct s; simpl; rewrite lookup_insert_eq; eauto.
  - assert (reach s start_state Head (BreadthFirstSolver.start (fresh s) start_state))
      as Hr.
    { apply reach_head; [apply reach_started|]. by destruct s. }
    destruct (while_ok s start_state (fact 9) _ Hl Hvs Hr) as [fl Hfl].
    { pose proof size_layouts. lia. }
    rewrite Hfl. destruct fl as [r | self']; simpl; eauto.
Qed.

(** X11: every strategy that [solve_puzzle] documents returns a result
    from every layout, and raises nothing: there is a result that [solve]
    hands back whenever the loop is given at least 9! turns, the number
    of layouts, each turn exploring a layout not explored before. *)
Theorem solve_returns (s : strategy) (start_state : Board) :
  puzz.is_layout start_state ->
  valid_strategy s ->
  exists r, forall fuel, (fact 9 <= fuel)%nat ->
    solve_of s (fresh s) fuel start_state = Ok r.
Proof.
  intros Hl Hvs.
  destruct (solve_of_bounded s start_state Hl Hvs) as [r Hr].
  exists r. intros fuel Hfuel.
  by apply (solve_of_fuel s (fresh s) (fact 9) fuel).
Qed.

Lemma solve_returns_witness :
  exists r, forall fuel, (fact 9 <= fuel)%nat ->
    solve_of (AStar (Some "h2")) (fresh (AStar (Some "h2"))) fuel
      (puzz.EightPuzzleBoard "802356174") = Ok r.
Proof.
  apply (solve_returns (AStar (Some "h2")) (puzz.EightPuzzleBoard "802356174")).
  - apply (bool_decide_unpack _). by vm_compute.
  - right. by left.
Defined.

(** ** A path is found exactly when there is one *)

Section completeness.
Import BreadthFirstSolver.

Lemma elem_of_keys_add (q : pdqpq.Queue) (succ : Board) (c : Z) (k : Board) :
  k ∈ pdqpq.keys q \/ k = succ -> k ∈ pdqpq.keys (pdqpq.add q succ c).
Proof.
  unfold pdqpq.add, pdqpq.keys.
  destruct (pdqpq.fifo q); simpl; rewrite fmap_app, elem_of_app; simpl;
    rewrite list_elem_of_singleton.
  - tauto.
  - intros [Hk | ->]; [|by right].
    destruct (decide (k = succ)) as [-> | Hne]; [by right|]. left.
    apply list_elem_of_fmap in Hk as ([k0 c0] & -> & Hin).
    apply list_elem_of_fmap. exists (k0, c0). split; [done|].
    by apply list_elem_of_filter.
Qed.

Lemma met_grows (node succ : Board) (self self' : Solver) :
  visit_effect node succ self self' -> met self ⊆ met self'.
Proof.
  intros [-> | c He Hc -> | c He Hc ->]; [done | |]; unfold met; simpl;
    intros k [Hk%elem_of_list_to_set | Hk]%elem_of_union;
    try (apply elem_of_union; by right);
    apply elem_of_union; left; apply elem_of_list_to_set, elem_of_keys_add.
  - by left.
  - destruct (decide (k = succ)) as [-> | Hne]; [by right|]. left.
    by apply elem_of_keys_remove.
Qed.

(** Once visited, a successor is in the frontier or explored. *)
Lemma visit_met (s : strategy) (node : Board) (self : Solver) (move : string)
    (succ : Board) (self' : Solver) :
  visit_of s node self move succ = Ok (Next self') -> succ ∈ met self'.
Proof.
  intros Hv.
  destruct (decide (succ ∈ met self)) as [Hin | Hout].
  { by apply (met_grows node succ self self' (visit_next s node self move _ _ Hv)). }
  assert (pdqpq.contains (frontier self) succ = false /\ succ ∉ explored self)
    as [Hc He].
  { unfold met in Hout. rewrite contains_false. set_solver. }
  assert (forall q self1 c, self' = set_frontier self1 (pdqpq.add q succ c) ->
            succ ∈ met self') as Hadd.
  { intros q self1 c ->. unfold met. simpl. apply elem_of_union. left.
    apply elem_of_list_to_set, elem_of_keys_add. by right. }
  revert Hv. destruct s as [| |heur|heur]; simpl.
  - unfold visit. rewrite Hc, (bool_decide_eq_false_2 _ He). cbn [negb andb].
    case_bool_decide as Hg; [intros H; by invert_bind|].
    intros [= <-]. unfold add_to_frontier, met. simpl.
    apply elem_of_union. left. apply elem_of_list_to_set, elem_of_keys_add. by right.
  - unfold UniformCostSolver.visit. intros H. invert_bind.
    rewrite (bool_decide_eq_false_2 _ He), Hc in H.
    invert_bind. injection H as <-. by eapply Hadd.
  - unfold GreedySolver.visit.
    rewrite Hc, (bool_decide_eq_false_2 _ He). cbn [negb andb].
    intros H. invert_bind. injection H as <-.
    unfold GreedySolver.add_value in *. case_match; [|done]. simplify_eq.
    by eapply Hadd.
  - unfold AStarSolver.visit.
    rewrite (bool_decide_eq_false_2 _ He), Hc. cbn [negb].
    intros H. invert_bind. injection H as <-. by eapply Hadd.
Qed.

Lemma reach_closed (s : strategy) (start_state : Board) (pt : point)
    (self : Solver) :
  reach s start_state pt self -> closed pt self.
Proof.
  induction 1 as [| |self Hr IH Hne|self node q Hr IH He Hp|self node Hr IH Hg
                  |self node move succ rest self' Hr IH Hv|self node Hr IH
                  |self node move succ rest Hr IH Hb Hc He Hg];
    intros k m k' Hk Hm.
  - destruct s; simpl in Hk; set_solver.
  - destruct s; simpl in Hk; set_solver.
  - by apply (IH k m k').
  - simpl in Hk. apply elem_of_union in Hk as [->%elem_of_singleton | Hk];
      [by right|].
    destruct (IH k m k' Hk Hm) as [Hin | []]. left.
    destruct (reach_counted _ _ _ _ Hr) as [Hnd _ _ _ _].
    destruct (pop_keys _ _ _ Hp) as (Hnode & _ & Hq).
    destruct (Hq Hnd) as [_ Hkeys]. unfold met in *. simpl.
    apply elem_of_union in Hin as [Hin%elem_of_list_to_set | Hin]; [|set_solver].
    destruct (decide (k' = node)) as [-> | Hne]; [set_solver|].
    apply elem_of_union. left. apply elem_of_list_to_set, Hkeys. done.
  - destruct (IH k m k' Hk Hm) as [Hin | ->]; [by left|]. by right.
  - pose proof (visit_next s node self move succ self' Hv) as Heff.
    rewrite (explored_effect node succ self self' Heff) in Hk.
    destruct (IH k m k' Hk Hm) as [Hin | [-> Hin]].
    + left. by apply (met_grows node succ self self' Heff).
    + apply elem_of_cons in Hin as [[= -> ->] | Hin]; [|by right].
      left. by apply (visit_met s node self move).
  - destruct (IH k m k' Hk Hm) as [Hin | [_ Hin]]; [by left|].
    by apply elem_of_nil in Hin.
  - by right.
Qed.

Lemma reach_goal_kept (s : strategy) (start_state : Board) (pt : point)
    (self : Solver) :
  reach s start_state pt self -> goal_kept pt self.
Proof.
  destruct (tests_popped s) eqn:Ht.
  2: { destruct s; try done. intros Hr.
       destruct pt; simpl; try done;
         try (by destruct (reach_bfs_goal start_state _ self Hr I)).
       - inversion Hr. simpl. set_solver.
       - inversion Hr. simpl. set_solver.
       - intros k Hk ->. by destruct (reach_bfs_goal start_state _ self Hr I). }
  induction 1 as [| |self Hr IH Hne|self node q Hr IH He Hp|self node Hr IH Hg
                  |self node move succ rest self' Hr IH Hv|self node Hr IH
                  |self node move succ rest Hr IH Hb Hc He Hg]; simpl in *; try done.
  - destruct s; simpl; set_solver.
  - destruct s; simpl; set_solver.
  - intros k [Hk%elem_of_singleton | Hk]%elem_of_union Hkg; [done|]. by subst k.
  - intros Hin. apply Hg; [done|]. symmetry. by apply (IH (goal self)).
  - pose proof (visit_next s node self move succ self' Hv) as Heff.
    by rewrite (explored_effect node succ self self' Heff),
      (goal_effect node succ self self' Heff).
Qed.

Lemma adjacent_rtc {A} (R : A -> A -> Prop) (l : list A) (a b : A) :
  adjacent R l -> head l = Some a -> last l = Some b -> rtc R a b.
Proof.
  intros Hl. revert a. induction Hl as [|x|x y l Hxy Hl IH]; intros a; simpl.
  - done.
  - by intros [= ->] [= ->].
  - intros [= ->] Hlast. apply (rtc_l _ _ y); [done|]. by apply IH.
Qed.

(** A run that ends with the frontier empty has explored every state
    reachable from the start state, and not the goal. *)
Lemma failure_unreachable (s : strategy) (start_state : Board) (self : Solver) :
  reach s start_state Head self ->
  pdqpq.is_empty (frontier self) = true ->
  ~ reachable start_state GOAL_STATE.
Proof.
  intros Hr He Hreach. apply is_empty_keys in He.
  pose proof (reach_closed s start_state _ self Hr) as Hcl.
  pose proof (reach_goal_kept s start_state _ self Hr) as Hg. simpl in Hg.
  rewrite (reach_goal s start_state _ self Hr) in Hg.
  destruct (reach_start s start_state _ self Hr ltac:(done)) as [_ Hs].
  assert (start_state ∈ explored self) as Hse.
  { destruct Hs as [Hs | [Hk _]]; [done|]. by rewrite He in Hk. }
  assert (forall a b, rtc move_step a b -> a ∈ explored self -> b ∈ explored self)
    as Hall.
  { induction 1 as [x | x y z [m Hxy] Hyz IH]; [done|].
    intros Hx. apply IH.
    destruct (Hcl x m y Hx Hxy) as [Hy | []]. unfold met in Hy. rewrite He in Hy.
    set_solver. }
  apply Hg. by apply (Hall start_state).
Qed.

(** The result of a run from a layout: that of an exhausted frontier, or
    one with a path. *)
Lemma ends_result (s : strategy) (start_state : Board) (r : results) :
  puzz.is_layout start_state -> ends s start_state r ->
  (r !! "path" = None /\ ~ reachable start_state GOAL_STATE)
  \/ exists path, r !! "path" = Some (VPath path)
       /\ head path = Some (Some "start", start_state)
       /\ snd <$> last path = Some GOAL_STATE
       /\ adjacent legal_step path.
Proof.
  intros Hl Hs.
  assert (forall self k, tree self -> is_Some (parents self !! k) ->
            (forall x, parents self !! x = Some None -> x = start_state) ->
            k = GOAL_STATE ->
            get_results_dict self (Some k) = Ok r ->
            exists path, r !! "path" = Some (VPath path)
              /\ head path = Some (Some "start", start_state)
              /\ snd <$> last path = Some GOAL_STATE
              /\ adjacent legal_step path) as Hres.
  { intros self k Ht Hk Hroot -> Hr.
    destruct (tree_result self start_state _ r Ht Hk Hroot Hr)
      as (path & cost & Hp & _ & Hh & Hlast & Hadj & _).
    by exists path. }
  destruct Hs as [Hg Hr | self Hr He Hd | self node Hr Ht Hg Hd
                 | self node succ Hr Hb Hg Hd].
  - right. rewrite goal_fresh in Hg.
    apply (Hres (start (fresh s) start_state) start_state); try done.
    + by apply tree_start.
    + destruct s; simpl; rewrite lookup_insert_eq; eauto.
    + intros k. destruct s; simpl; rewrite lookup_insert; case_decide; naive_solver.
  - left. rewrite results_failure in Hd. injection Hd as <-.
    split; [done|]. by apply (failure_unreachable s start_state self).
  - right. destruct (reach_tree s start_state _ self Hl Hr) as [Htree Hat].
    simpl in Hat. apply (Hres self node); try done.
    + by apply (tree_explored self Htree).
    + by apply (reach_root s start_state _ self Hr).
    + by rewrite Hg, (reach_goal s start_state _ self Hr).
  - right. destruct (reach_tree s start_state _ self Hl Hr) as [Htree _].
    apply (Hres self succ); try done.
    + inversion Hr; subst. simpl. rewrite lookup_insert_eq. eauto.
    + by apply (reach_root s start_state _ self Hr).
    + by rewrite Hg, (reach_goal s start_state _ self Hr).
Qed.

Lemma path_reachable (path : list (option string * Board)) (a b : Board) :
  adjacent legal_step path ->
  snd <$> head path = Some a -> snd <$> last path = Some b -> reachable a b.
Proof.
  intros Hadj. revert a.
  induction Hadj as [|x|x y l [m [Hm Hxy]] Hl IH]; intros a; simpl.
  - done.
  - intros [= <-] [= <-]. apply rtc_refl.
  - intros [= <-] Hlast. apply (rtc_l _ _ y.2); [by exists m|]. by apply IH.
Qed.
End completeness.

(** X12: whatever the strategy, the result of a search from a layout has
    a path exactly when some sequence of legal moves leads from the start
    state to the goal state: a run whose frontier runs empty has explored
    every state that can be reached, and the goal is not among them. *)
Theorem path_iff_reachable (s : strategy) (fuel : nat) (start_state : Board)
    (r : results) :
  puzz.is_layout start_state ->
  solve_of s (fresh s) fuel start_state = Ok r ->
  is_Some (r !! "path") <-> reachable start_state GOAL_STATE.
Proof.
  intros Hl Hs. apply solve_ends in Hs.
  destruct (ends_result s start_state r Hl Hs)
    as [[Hnone Hun] | (path & Hp & Hh & Hlast & Hadj)].
  - rewrite Hnone. split; [by intros [? ?] | done].
  - rewrite Hp. split; [intros _ | eauto].
    apply (path_reachable path); try done. by rewrite Hh.
Qed.

Lemma path_iff_reachable_witness :
  exists r,
    solve_of UCS (fresh UCS) 10 (puzz.EightPuzzleBoard "312045678") = Ok r
    /\ (is_Some (r !! "path")
        <-> reachable (puzz.EightPuzzleBoard "312045678") GOAL_STATE).
Proof.
  destruct (returned (solve_of UCS (fresh UCS) 10 (puzz.EightPuzzleBoard "312045678")))
    as [r Hs]; [by vm_compute|].
  exists r. split; [done|].
  apply (path_iff_reachable UCS 10 (puzz.EightPuzzleBoard "312045678") r); [|done].
  apply (bool_decide_unpack _). by vm_compute.
Defined.

(** ** What [get_path] hands back *)

Section path_outcomes.
Import BreadthFirstSolver.
Implicit Types ps : gmap Board (option Board).

Lemma chain_suffix ps s l x :
  chain ps s l -> x ∈ l ->
  exists l', chain ps x l' /\ (length l' <= length l)%nat.
Proof.
  induction 1 as [s Hs | s p l Hs Hc IH].
  - intros ->%list_elem_of_singleton. exists [s]. split; [by constructor | done].
  - intros [-> | Hx]%elem_of_cons.
    + exists (s :: l). split; [by apply (chain_step _ s p) | done].
    + destruct (IH Hx) as (l' & Hl' & Hlen). exists l'. split; [done|]. simpl. lia.
Qed.

(** A walk that comes to the root passes no state twice. *)
Lemma chain_NoDup ps s l : chain ps s l -> NoDup l.
Proof.
  induction 1 as [s Hs | s p l Hs Hc IH]; [apply NoDup_singleton|].
  apply NoDup_cons. split; [|done]. intros Hin.
  destruct (chain_suffix ps p l s Hc Hin) as (l' & Hl' & Hlen).
  pose proof (chain_unique ps s l' (s :: l) Hl' (chain_step ps s p l Hs Hc)) as ->.
  simpl in Hlen. lia.
Qed.

Lemma dangling_unique ps s n m : dangling ps s n -> dangling ps s m -> n = m.
Proof.
  intros Hn. revert m. induction Hn as [s Hs | s p n Hs Hd IH]; intros m Hm.
  - inversion Hm; [done | congruence].
  - inversion Hm as [|s' p' m' Hs' Hd']; subst; [congruence|].
    f_equal. apply IH. congruence.
Qed.

(** The states a walk passes before it comes to the missing one. *)
Lemma dangling_states ps s n :
  dangling ps s n ->
  exists l, length l = n /\ NoDup l /\ (forall x, x ∈ l -> is_Some (ps !! x))
    /\ (forall x, x ∈ l -> exists m, dangling ps x m /\ (m <= n)%nat).
Proof.
  induction 1 as [s Hs | s p n Hs Hd (l & Hlen & Hnd & Hdom & Hsub)].
  - exists []. repeat split; [constructor | |]; by intros x ?%elem_of_nil.
  - exists (s :: l). split; [simpl; lia|]. split; [|split].
    + apply NoDup_cons. split; [|done]. intros Hin.
      destruct (Hsub s Hin) as (m & Hm & Hle).
      pose proof (dangling_unique ps s m (S n) Hm (dangling_step ps s p n Hs Hd)).
      lia.
    + intros x [-> | Hx]%elem_of_cons; [by rewrite Hs | by apply Hdom].
    + intros x [-> | Hx]%elem_of_cons.
      * exists (S n). split; [by apply (dangling_step _ s p) | done].
      * destruct (Hsub x Hx) as (m & Hm & Hle). exists m. split; [done | lia].
Qed.

Lemma dangling_length ps s n : dangling ps s n -> (n <= size ps)%nat.
Proof.
  intros (l & <- & Hnd & Hdom & _)%dangling_states.
  rewrite <- size_dom, <- (size_list_to_set l (C := gset Board)) by done.
  apply subseteq_size. intros x Hx%elem_of_list_to_set.
  by apply elem_of_dom, Hdom.
Qed.

Lemma walk_dangling ps s n (fuel : nat) (acc : list Board) :
  dangling ps s n -> (n < fuel)%nat -> walk fuel ps (Some s) acc = Raise KeyError.
Proof.
  intros Hd. revert fuel acc.
  induction Hd as [s Hs | s p n Hs Hd IH]; intros fuel acc Hlt;
    (destruct fuel as [|fuel]; [lia|]); simpl; rewrite Hs; [done|].
  apply IH. lia.
Qed.

Lemma walk_KeyError (fuel : nat) ps s (acc : list Board) :
  walk fuel ps (Some s) acc = Raise KeyError -> exists n, dangling ps s n.
Proof.
  revert s acc. induction fuel as [|fuel IH]; intros s acc; simpl; [done|].
  destruct (ps !! s) as [[p|]|] eqn:Hs.
  - intros [n Hn]%IH. exists (S n). by apply (dangling_step _ s p).
  - by destruct fuel.
  - intros _. exists 0%nat. by constructor.
Qed.

Lemma walk_outcomes (fuel : nat) ps (state : option Board) (acc : list Board)
    (e : exn) :
  walk fuel ps state acc = Raise e -> e = KeyError \/ e = OutOfFuel.
Proof.
  revert state acc. induction fuel as [|fuel IH]; intros [s|] acc; simpl; try done.
  - intros [= <-]. by right.
  - destruct (ps !! s) as [p|]; [apply IH|]. intros [= <-]. by left.
Qed.
End path_outcomes.

(** X13: [get_path] returns a path for a state exactly when following the
    parents from it comes to a state whose parent is [None], and the path
    is that walk reversed; it raises [KeyError] exactly when the walk
    comes to a state the parent map has no entry for; it raises nothing
    else, and what is left is a walk that goes round in a cycle, where
    the loop does not end. *)
Theorem get_path_outcomes (self : Solver) (s : Board) :
  (forall path, BreadthFirstSolver.get_path self (Some s) = Ok path
                <-> chain (parents self) s (reverse path))
  /\ (BreadthFirstSolver.get_path self (Some s) = Raise KeyError
      <-> exists n, dangling (parents self) s n)
  /\ (forall e, BreadthFirstSolver.get_path self (Some s) = Raise e ->
        e = KeyError \/ e = OutOfFuel).
Proof.
  split; [|split].
  - intros path. split.
    + intros (l & -> & Hc)%get_path_inv. by rewrite reverse_involutive.
    + intros Hc. rewrite <- (reverse_involutive path).
      apply get_path_chain; [done|]. by apply (chain_NoDup (parents self) s).
  - unfold BreadthFirstSolver.get_path. split.
    + destruct (BreadthFirstSolver.walk _ _ _ _) as [l|e] eqn:Hw; [done|].
      intros [= ->]. by apply walk_KeyError in Hw.
    + intros [n Hn].
      rewrite (walk_dangling _ s n); [done | done |].
      pose proof (dangling_length _ s n Hn). lia.
  - intros e. unfold BreadthFirstSolver.get_path.
    destruct (BreadthFirstSolver.walk _ _ _ _) as [l|e'] eqn:Hw; [done|].
    intros [= ->]. by apply walk_outcomes in Hw.
Qed.

(** ** The flavor tags *)

Section flavor_tags.

Lemma dashes_String (c : ascii) (s : string) :
  dashes (String c s) = if decide (c = "-"%char) then S (dashes s) else dashes s.
Proof.
  unfold dashes. simpl. rewrite filter_cons. by case_decide.
Qed.

Lemma dashes_elem (s : string) :
  dashes s = 0%nat <-> "-"%char ∉ list_ascii_of_string s.
Proof.
  induction s as [|c s IH]; [split; [intros _ []%elem_of_nil | done]|].
  rewrite dashes_String. simpl. rewrite not_elem_of_cons.
  case_decide as Hc; [split; [done | intros [Hne _]; by destruct Hne]|].
  rewrite IH. split; [intros Hs; split; [by intros <- | done] | by intros [_ Hs]].
Qed.

Lemma split_nonempty (s : string) : split "-" s <> [].
Proof.
  induction s as [|c s IH]; [done|]. simpl. case_bool_decide; [done|].
  by destruct (split "-" s).
Qed.

Lemma split_length (s : string) : length (split "-" s) = S (dashes s).
Proof.
  induction s as [|c s IH]; [done|]. rewrite dashes_String. simpl.
  case_bool_decide as Hc.
  - rewrite decide_True by done. simpl. by rewrite IH.
  - rewrite decide_False by done. pose proof (split_nonempty s).
    destruct (split "-" s) as [|w ws]; [done|]. exact IH.
Qed.

(** A tag without a dash is the one piece [split] makes of it. *)
Lemma split_whole (s : string) : dashes s = 0%nat -> split "-" s = [s].
Proof.
  induction s as [|c s IH]; [done|]. rewrite dashes_String. simpl.
  case_decide as Hc; [done|]. intros Hs.
  rewrite bool_decide_eq_false_2 by done. by rewrite IH.
Qed.

(** A tag with one dash is its two pieces with the dash between. *)
Lemma split_two (s : string) :
  dashes s = 1%nat ->
  exists strat heur,
    s = (strat ++ "-" ++ heur)%string /\ split "-" s = [strat; heur]
    /\ dashes strat = 0%nat /\ dashes heur = 0%nat.
Proof.
  induction s as [|c s IH]; [done|]. rewrite dashes_String. simpl.
  case_decide as Hc.
  - intros [= Hs]. subst c. rewrite bool_decide_eq_true_2 by done.
    exists EmptyString, s. rewrite split_whole by done. by repeat split.
  - intros Hs. rewrite bool_decide_eq_false_2 by done.
    destruct (IH Hs) as (strat & heur & -> & Hsp & Hd1 & Hd2). rewrite Hsp.
    exists (String c strat), heur. repeat split; try done.
    rewrite dashes_String. by rewrite decide_False.
Qed.

Lemma parse_flavor_cases (flavor : string) :
  match dashes flavor with
  | O => parse_flavor flavor = Ok (flavor, None)
  | S O => exists strat heur,
      flavor = (strat ++ "-" ++ heur)%string
      /\ dashes strat = 0%nat /\ dashes heur = 0%nat
      /\ parse_flavor flavor = Ok (strat, Some heur)
  | _ => parse_flavor flavor = Raise ValueError
  end.
Proof.
  unfold parse_flavor. destruct (dashes flavor) as [|[|n]] eqn:Hd.
  - apply dashes_elem in Hd. by rewrite bool_decide_eq_false_2.
  - destruct (split_two flavor Hd) as (strat & heur & Heq & Hsp & Hd1 & Hd2).
    exists strat, heur. repeat split; try done. rewrite Hsp.
    rewrite bool_decide_eq_true_2; [done|].
    destruct (decide ("-"%char ∈ list_ascii_of_string flavor)) as [|Hn]; [done|].
    apply dashes_elem in Hn. congruence.
  - pose proof (split_length flavor) as Hlen. rewrite Hd in Hlen.
    rewrite bool_decide_eq_true_2.
    + destruct (split "-" flavor) as [|a [|b [|c l]]]; simpl in Hlen; try done; lia.
    + destruct (decide ("-"%char ∈ list_ascii_of_string flavor)) as [|Hn]; [done|].
      apply dashes_elem in Hn. congruence.
Qed.

Lemma solve_puzzle_run (fuel : nat) (start_state : Board) (flavor strat : string)
    (heur : option string) :
  parse_flavor flavor = Ok (strat, heur) ->
  solve_puzzle fuel start_state flavor = run fuel start_state strat heur.
Proof.
  intros Hp. unfold solve_puzzle, run, strategy_named. rewrite Hp. simpl.
  by repeat case_bool_decide.
Qed.
End flavor_tags.

(** X14: what [solve_puzzle] does with a flavor goes by the number of its
    dashes.  Without a dash the whole tag names the strategy and the
    heuristic is [None]; with one dash the tag is the strategy, the dash
    and the heuristic, which is handed on whatever it is, also to
    breadth-first and uniform-cost search, which have no use for it; with
    two dashes or more the unpacking raises [ValueError].  A strategy that
    is none of bfs, ucost, greedy and astar raises [ValueError] too. *)
Theorem flavor_by_dashes (fuel : nat) (start_state : Board) (flavor : string) :
  match dashes flavor with
  | O => solve_puzzle fuel start_state flavor = run fuel start_state flavor None
  | S O => exists strat heur,
      flavor = (strat ++ "-" ++ heur)%string
      /\ dashes strat = 0%nat /\ dashes heur = 0%nat
      /\ solve_puzzle fuel start_state flavor
         = run fuel start_state strat (Some heur)
  | _ => solve_puzzle fuel start_state flavor = Raise ValueError
  end.
Proof.
  pose proof (parse_flavor_cases flavor) as Hp.
  destruct (dashes flavor) as [|[|n]].
  - by apply solve_puzzle_run.
  - destruct Hp as (strat & heur & Heq & Hd1 & Hd2 & Hp).
    exists strat, heur. repeat split; try done. by apply solve_puzzle_run.
  - unfold solve_puzzle. by rewrite Hp.
Qed.

(** X15: for each of the eight flavors of the docstring and every layout,
    [solve_puzzle] returns a result and raises nothing, the same result
    whenever the loop is given at least 9! turns; and the result has a
    path exactly when legal moves lead from the start state to the goal
    state. *)
Theorem documented_flavors_return (flavor : string) (start_state : Board) :
  flavor ∈ flavors ->
  puzz.is_layout start_state ->
  exists r,
    (forall fuel, (fact 9 <= fuel)%nat -> solve_puzzle fuel start_state flavor = Ok r)
    /\ (is_Some (r !! "path") <-> reachable start_state GOAL_STATE).
Proof.
  intros Hf Hl.
  assert (exists s, valid_strategy s
            /\ forall fuel, solve_puzzle fuel start_state flavor
                            = solve_of s (fresh s) fuel start_state) as (s & Hvs & Hs).
  { unfold flavors in Hf.
    repeat (apply elem_of_cons in Hf as [-> | Hf]);
      [exists BFS | exists UCS
       | exists (Greedy (Some "h1")) | exists (Greedy (Some "h2"))
       | exists (Greedy (Some "h3"))
       | exists (AStar (Some "h1")) | exists (AStar (Some "h2"))
       | exists (AStar (Some "h3")) | by apply elem_of_nil in Hf];
      (split; [unfold valid_strategy, valid_heur; tauto | done]). }
  destruct (solve_of_bounded s start_state Hl Hvs) as [r Hr].
  exists r. split.
  { intros fuel Hfuel. rewrite Hs. by apply (solve_of_fuel s (fresh s) (fact 9) fuel). }
  pose proof Hr as Hres. apply solve_ends in Hres.
  destruct (ends_result s start_state r Hl Hres)
    as [[Hnone Hun] | (path & Hp & Hh & Hlast & Hadj)].
  - rewrite Hnone. split; [by intros [? ?] | done].
  - rewrite Hp. split; [intros _ | eauto].
    apply (path_reachable path); try done. by rewrite Hh.
Qed.

Lemma documented_flavors_return_witness :
  exists r,
    (forall fuel, (fact 9 <= fuel)%nat ->
       solve_puzzle fuel (puzz.EightPuzzleBoard "314072685") "astar-h3" = Ok r)
    /\ (is_Some (r !! "path")
        <-> reachable (puzz.EightPuzzleBoard "314072685") GOAL_STATE).
Proof.
  apply (documented_flavors_return "astar-h3" (puzz.EightPuzzleBoard "314072685")).
  - apply (bool_decide_unpack _). by vm_compute.
  - apply (bool_decide_unpack _). by vm_compute.
Defined.

(** ** Breadth-first search finds a path of the fewest moves *)

Section bfs_levels.
Import BreadthFirstSolver.

Lemma depth_unique ps (k : Board) (d d' : nat) :
  depth ps k d -> depth ps k d' -> d = d'.
Proof.
  intros (l & Hl & Hd) (l' & Hl' & Hd').
  pose proof (chain_unique ps k l l' Hl Hl'). subst. lia.
Qed.

Lemma depth_insert ps (k x : Board) (v : option Board) (d : nat) :
  ps !! x = None -> depth ps k d -> depth (<[x := v]> ps) k d.
Proof.
  intros Hx (l & Hl & Hd). exists l. split; [|done].
  apply chain_insert; [done|]. intros Hin.
  destruct (chain_dom ps k l x Hl Hin) as [? ?]. congruence.
Qed.

Lemma depth_child ps (node succ : Board) (L : nat) :
  ps !! succ = None -> depth ps node L ->
  depth (<[succ := Some node]> ps) succ (S L).
Proof.
  intros Hx Hn. destruct (depth_insert ps node succ (Some node) L Hx Hn)
    as (l & Hl & Hd).
  exists (succ :: l). split; [|simpl; lia].
  apply (chain_step _ succ node); [apply lookup_insert_eq | done].
Qed.

Lemma pop_fifo (q : pdqpq.Queue) (node : Board) (q' : pdqpq.Queue) :
  pdqpq.fifo q = true -> pdqpq.pop q = Ok (node, q') ->
  pdqpq.keys q = node :: pdqpq.keys q'.
Proof.
  unfold pdqpq.pop, pdqpq.keys. intros Hf.
  destruct (pdqpq.items q) as [|e l]; [done|]. rewrite Hf.
  by intros [= <- <-].
Qed.

Lemma steps_inv (n : nat) (a c : Board) :
  steps (S n) a c -> exists b, steps n a b /\ move_step b c.
Proof. inversion 1; subst. eauto. Qed.

Lemma reach_bfs_inv (start_state : Board) (pt : point) (self : Solver) :
  reach BFS start_state pt self -> bfs_inv start_state pt self.
Proof.
  induction 1 as [| |self Hr IH Hne|self node q Hr IH He Hp|self node Hr IH Hg
                  |self node move succ rest self' Hr IH Hv|self node Hr IH
                  |self node move succ rest Hr IH Hb Hc He Hg];
    cbn [bfs_inv]; try done.
  - (* started *)
    exists 0%nat.
    assert (depth {[start_state := None]} start_state 0) as Hd.
    { exists [start_state]. split; [|done]. apply chain_root, lookup_singleton_eq. }
    split; simpl.
    + set_solver.
    + exists [start_state], []. repeat split; [|set_solver].
      by intros k ->%list_elem_of_singleton.
    + unfold met. simpl. intros x Hx.
      assert (x = start_state) as -> by set_solver.
      exists 0%nat. split; [done | lia].
    + intros n x Hs Hn. assert (n = 0%nat) as -> by lia.
      inversion Hs; subst. unfold met. simpl. set_solver.
  - (* expanded *)
    destruct IH as [L [Hex (F1 & F2 & HF & H1 & H2) Hopt Hcov]].
    pose proof (reach_fifo BFS start_state _ self Hr) as Hfifo. simpl in Hfifo.
    pose proof (pop_fifo _ _ _ Hfifo Hp) as Hkeys.
    assert (met (expand_node (set_frontier self q) node).1 = met self) as Hmet.
    { unfold met. simpl. rewrite Hkeys. set_solver. }
    destruct F1 as [|x F1].
    + (* the level is exhausted: the next one begins *)
      simpl in HF. rewrite Hkeys in HF.
      destruct F2 as [|x F2]; [done|]. injection HF as <- HF.
      assert (depth (parents self) node (S L)) as Hn by (apply H2; by left).
      exists (S L). split; [|done].
      split; [simpl | simpl | rewrite Hmet | rewrite Hmet].
      * intros e [->%elem_of_singleton | Hin]%elem_of_union; [eauto|].
        destruct (Hex e Hin) as (d & Hd & Hle). exists d. split; [done | lia].
      * exists F2, []. rewrite app_nil_r. repeat split; [done | |set_solver].
        intros k Hk. apply H2. by right.
      * done.
      * intros n y Hs Hle.
        destruct (decide (n <= L)%nat) as [Hl | Hl]; [by apply (Hcov n)|].
        assert (n = S L) as -> by lia.
        apply steps_inv in Hs as (b & Hb & [m Hm]).
        pose proof (Hcov L b Hb (le_n _)) as Hbm.
        destruct (Hopt b Hbm) as (d & Hd & Hmin). specialize (Hmin L Hb).
        assert (b ∈ explored self) as Hbe.
        { unfold met in Hbm. apply elem_of_union in Hbm as [Hbf | Hbe]; [|done].
          apply elem_of_list_to_set in Hbf. rewrite Hkeys in Hbf.
          assert (depth (parents self) b (S L)) as Hd'.
          { apply H2. by rewrite <- HF. }
          pose proof (depth_unique _ _ _ _ Hd Hd'). lia. }
        destruct (reach_closed BFS start_state _ self Hr b m y Hbe Hm) as [Hy | []].
        done.
    + simpl in HF. rewrite Hkeys in HF. injection HF as <- HF.
      assert (depth (parents self) node L) as Hn by (apply H1; by left).
      exists L. split; [|done].
      split; [simpl | simpl | by rewrite Hmet | by rewrite Hmet].
      * intros e [->%elem_of_singleton | Hin]%elem_of_union; [eauto|].
        by apply Hex.
      * exists F1, F2. repeat split; [done | |done].
        intros k Hk. apply H1. by right.
  - (* a visit *)
    destruct IH as (L & Hlev & Hn).
    pose proof Hlev as [Hex (F1 & F2 & HF & H1 & H2) Hopt Hcov].
    pose proof (visit_next BFS node self move succ self' Hv)
      as [-> | c Hx Hc Heq | c Hx Hc Heq].
    + exists L. by split.
    + apply contains_false in Hc.
      assert (succ ∉ met self) as Hout by (unfold met; set_solver).
      assert (parents self !! succ = None) as Hnone.
      { apply not_elem_of_dom. by rewrite (reach_met BFS start_state _ self Hr). }
      assert (met self' = met self ∪ {[succ]}) as Hmet.
      { rewrite Heq. unfold met. simpl. rewrite keys_add by done.
        rewrite list_to_set_app_L. set_solver. }
      subst self'. exists L. split; [|simpl; by apply depth_insert].
      split; [simpl | simpl | rewrite Hmet; simpl | rewrite Hmet; simpl].
      * intros e He'. destruct (Hex e He') as (d & Hd & Hle).
        exists d. split; [by apply depth_insert | done].
      * exists F1, (F2 ++ [succ]). rewrite keys_add, HF, app_assoc by done.
        split; [done|]. split.
        -- intros k Hk. by apply depth_insert, H1.
        -- intros k [Hk | ->%list_elem_of_singleton]%elem_of_app.
           ++ by apply depth_insert, H2.
           ++ by apply depth_child.
      * intros x [Hin | ->%elem_of_singleton]%elem_of_union.
        -- destruct (Hopt x Hin) as (d & Hd & Hmin).
           exists d. split; [by apply depth_insert | done].
        -- exists (S L). split; [by apply depth_child|].
           intros n Hs. destruct (decide (n <= L)%nat) as [Hl | Hl]; [|lia].
           by destruct (Hout (Hcov n succ Hs Hl)).
      * intros n x Hs Hle. apply elem_of_union. left. by apply (Hcov n).
    + rewrite (first_discovery_wins BFS node self move succ self' eq_refl Hv Hc).
      exists L. by split.
  - (* the next turn *)
    destruct IH as (L & Hlev & _). by exists L.
Qed.
End bfs_levels.

Section bfs_result.
Import BreadthFirstSolver.

Lemma steps_first (n : nat) (a b c : Board) :
  move_step a b -> steps n b c -> steps (S n) a c.
Proof.
  intros Hab. induction 1 as [b | n b c d Hbc IH Hcd].
  - apply (steps_more 0 a a b); [constructor | done].
  - by apply (steps_more (S n) a c d); [apply IH|].
Qed.

(** A path of legal steps is as many moves as it has entries but one. *)
Lemma path_steps (path : list (option string * Board)) (a b : Board) :
  adjacent legal_step path ->
  snd <$> head path = Some a -> snd <$> last path = Some b ->
  steps (length path - 1) a b.
Proof.
  intros Hadj. revert a.
  induction Hadj as [|x|x y l [m [Hm Hxy]] Hl IH]; intros a.
  - done.
  - simpl. intros [= <-] [= <-]. constructor.
  - intros [= <-] Hlast.
    replace (length (x :: y :: l) - 1)%nat with (S (length (y :: l) - 1))
      by (simpl; lia).
    apply (steps_first _ _ y.2); [by exists m|]. by apply IH.
Qed.

Lemma zip_moves_length (lbl : option string) (states : list Board) :
  length (zip (lbl :: ((fun pq => puzz.get_move pq.1 pq.2) <$> pairs states)) states)
  = length states.
Proof.
  transitivity (length (zip (lbl :: ((fun pq => puzz.get_move pq.1 pq.2)
                                       <$> pairs states)) states).*2).
  - by rewrite length_fmap.
  - by rewrite zip_moves_states.
Qed.

(** What breadth-first search knows when it generates the goal. *)
Lemma found_depth (start_state node succ : Board) (self : Solver) (r : results)
    (path : list (option string * Board)) (n : nat) :
  reach BFS start_state (Found node succ) self ->
  get_results_dict self (Some succ) = Ok r ->
  r !! "path" = Some (VPath path) ->
  steps n start_state succ ->
  (length path <= S n)%nat.
Proof.
  intros Hr Hres Hpath Hs.
  inversion Hr as [| | | | | | |self0 node0 move succ0 rest Hr0 _ Hc He Hg];
    subst.
  destruct (reach_bfs_inv start_state _ self0 Hr0) as (L & Hlev & Hn).
  apply contains_false in Hc.
  assert (goal self0 ∉ met self0) as Hout by (unfold met; set_solver).
  assert (parents self0 !! goal self0 = None) as Hnone.
  { apply not_elem_of_dom. by rewrite (reach_met BFS start_state _ self0 Hr0). }
  destruct (depth_child _ node (goal self0) L Hnone Hn) as (l & Hl & Hlen).
  destruct (results_path _ _ r Hres) as (states & cost & Hp & _ & _ & Hrp).
  assert (path = zip (Some "start"
                      :: ((fun pq => puzz.get_move pq.1 pq.2) <$> pairs states))
                     states) as -> by congruence.
  rewrite (get_path_chain
             (set_parents self0 (<[goal self0 := Some node]> (parents self0)))
             (goal self0) l Hl (chain_NoDup _ _ _ Hl)) in Hp.
  injection Hp as <-.
  rewrite zip_moves_length, length_reverse, Hlen.
  destruct (decide (n <= L)%nat) as [Hle | Hgt]; [|lia].
  by destruct (Hout (level_covered _ _ _ Hlev n _ Hs Hle)).
Qed.
End bfs_result.

(** X16: the path breadth-first search returns from a layout has the
    fewest moves: it is a sequence of legal moves from the start state to
    the goal state, one move for each entry after the first, and no
    sequence of legal moves from the start state to the goal state is
    shorter. *)
Theorem bfs_fewest_moves (fuel : nat) (start_state : Board) (r : results)
    (path : list (option string * Board)) :
  puzz.is_layout start_state ->
  solve_of BFS (fresh BFS) fuel start_state = Ok r ->
  r !! "path" = Some (VPath path) ->
  steps (length path - 1) start_state GOAL_STATE
  /\ forall n, steps n start_state GOAL_STATE -> (length path - 1 <= n)%nat.
Proof.
  intros Hl Hs Hpath. apply solve_ends in Hs. split.
  - destruct (ends_result BFS start_state r Hl Hs)
      as [[Hnone _] | (path' & Hp & Hh & Hlast & Hadj)]; [congruence|].
    assert (path' = path) as -> by congruence.
    apply path_steps; try done. by rewrite Hh.
  - intros n Hn.
    destruct Hs as [Hg Hres | self Hr He Hres | self node Hr Ht Hg Hres
                   | self node succ Hr Hb Hg Hres].
    + rewrite results_root in Hres by (simpl; apply lookup_insert_eq).
      injection Hres as <-. unfold trivial_success in Hpath.
      rewrite lookup_insert_eq in Hpath. injection Hpath as <-. simpl. lia.
    + rewrite results_failure in Hres. injection Hres as <-. done.
    + done.
    + rewrite <- (reach_goal BFS start_state _ self Hr), <- Hg in Hn.
      pose proof (found_depth start_state node succ self r path n Hr Hres Hpath Hn).
      lia.
Qed.

Lemma bfs_fewest_moves_witness :
  exists r path,
    solve_of BFS (fresh BFS) 100 (puzz.EightPuzzleBoard "142375608") = Ok r
    /\ r !! "path" = Some (VPath path)
    /\ length path = 4%nat
    /\ steps 3 (puzz.EightPuzzleBoard "142375608") GOAL_STATE
    /\ forall n, steps n (puzz.EightPuzzleBoard "142375608") GOAL_STATE ->
         (3 <= n)%nat.
Proof.
  destruct (table_column_result
              (solve_of BFS (fresh BFS) 100 (puzz.EightPuzzleBoard "142375608"))
              4 66 (Some (VInt 10)) (Some (VInt 5)))
    as (r & path & Hs & Hp & Hlen & _); [by vm_compute|].
  exists r, path. split; [done|]. split; [done|]. split; [done|].
  replace 3%nat with (length path - 1)%nat by (rewrite Hlen; done).
  apply (bfs_fewest_moves 100 (puzz.EightPuzzleBoard "142375608") r path);
    [|done..].
  apply (bool_decide_unpack _). by vm_compute.
Defined.

(** ** Uniform-cost search finds a path of the least cost *)

Section ucs_basics.
Import BreadthFirstSolver.

Lemma costs_nonneg (c : Z) (a b : Board) : costs a c b -> 0 <= c.
Proof. induction 1; [done | nia]. Qed.

Lemma slides_tile (b : Board) (move : string) (succ : Board) (t t' : ascii) :
  slides b move succ t -> slides b move succ t' -> t = t'.
Proof.
  intros (x & y & dx & dy & _ & Hf & _ & _ & Hg & _)
         (x' & y' & dx' & dy' & _ & Hf' & _ & _ & Hg' & _).
  congruence.
Qed.

Lemma slides_value (b : Board) (move : string) (succ : Board) (t : ascii) :
  puzz.is_layout b -> slides b move succ t -> int t = Ok (tile_value t).
Proof.
  intros Hb Hsl. destruct (slides_int b move succ t Hb Hsl) as (n & Hn & _).
  rewrite Hn. f_equal. unfold int in Hn. unfold tile_value.
  by case_match; simplify_eq.
Qed.

Lemma get_cost_root (self : Solver) (k : Board) :
  parents self !! k = Some None -> get_cost self k = Ok 0.
Proof. intros Hk. unfold get_cost. by rewrite (get_path_root self k Hk). Qed.

Lemma least_min (best : Board * Z) (l : list (Board * Z)) (e : Board * Z) :
  e ∈ best :: l -> (pdqpq.least best l).2 <= e.2.
Proof.
  revert best e. induction l as [|x l IH]; intros best e; simpl.
  - intros ->%list_elem_of_singleton. lia.
  - intros Hin.
    assert ((pdqpq.least (if x.2 <? best.2 then x else best) l).2
            <= (if x.2 <? best.2 then x else best).2) as Hle
      by (apply IH; by left).
    apply elem_of_cons in Hin as [-> | [-> | Hin]%elem_of_cons].
    + destruct (x.2 <? best.2) eqn:Hlt; [apply Z.ltb_lt in Hlt|]; lia.
    + destruct (x.2 <? best.2) eqn:Hlt; [|apply Z.ltb_ge in Hlt]; lia.
    + apply IH. by right.
Qed.

(** The priority queue hands out a state of the least priority. *)
Lemma pop_min (q : pdqpq.Queue) (node : Board) (q' : pdqpq.Queue) :
  pdqpq.fifo q = false -> pdqpq.pop q = Ok (node, q') ->
  exists p, (node, p) ∈ pdqpq.items q
    /\ forall k c, (k, c) ∈ pdqpq.items q -> p <= c.
Proof.
  unfold pdqpq.pop. intros Hf. destruct (pdqpq.items q) as [|e l]; [done|].
  rewrite Hf. intros [= <- <-]. exists (pdqpq.least e l).2. split.
  - destruct (pdqpq.least e l) as [k p] eqn:Hl. simpl. rewrite <- Hl.
    apply least_elem.
  - intros k c Hin. by apply (least_min e l (k, c)).
Qed.

(** The cost of a state is that of its parent plus the cost of the slide. *)
Lemma get_cost_step (self : Solver) (k p : Board) (move : string) (t : ascii)
    (l : list Board) (g : Z) :
  chain (parents self) k (k :: p :: l) ->
  puzz.is_layout p -> slides p move k t ->
  get_cost self p = Ok g ->
  get_cost self k = Ok (g + tile_value t ^ 2).
Proof.
  intros Hc Hlp Hsl Hg.
  assert (chain (parents self) p (p :: l)) as Hcp.
  { inversion Hc as [|s p' l' Hs Hc']; subst.
    destruct (chain_head _ _ _ Hc') as [l'' Heq]. by injection Heq as -> ->. }
  rewrite get_cost_pairs in Hg.
  rewrite (get_path_chain self p (p :: l) Hcp (chain_NoDup _ _ _ Hcp)) in Hg.
  simpl in Hg.
  rewrite get_cost_pairs.
  rewrite (get_path_chain self k (k :: p :: l) Hc (chain_NoDup _ _ _ Hc)).
  simpl. rewrite !reverse_cons, <- app_assoc. simpl.
  unfold path_cost_spec in *. rewrite pairs_snoc, for_acc_app.
  rewrite reverse_cons in Hg. rewrite Hg. simpl.
  pose proof (slides_value p move k t Hlp Hsl) as Hint.
  destruct Hsl as (x & y & dx & dy & _ & Hf & _ & _ & Hq & _).
  unfold moved_tile. rewrite Hf. simpl. rewrite Hq. simpl. by rewrite Hint.
Qed.

(** The path of the parent map to a state is a sequence of moves of the
    cost [get_cost] gives. *)
Lemma tree_costs (start_state : Board) (self : Solver) (k : Board) :
  tree self ->
  (forall x, parents self !! x = Some None -> x = start_state) ->
  is_Some (parents self !! k) ->
  exists g, get_cost self k = Ok g /\ costs start_state g k.
Proof.
  intros Ht Hroot Hk. destruct (tree_chain self Ht k Hk) as (l & Hc & _).
  clear Hk. induction Hc as [s Hs | s p l Hs Hc (g & Hg & Hcost)].
  - pose proof (Hroot s Hs) as ->. exists 0. split; [by apply get_cost_root|].
    constructor.
  - destruct (tree_edge self Ht s p Hs) as [Hp [move Hm]].
    pose proof (tree_layout self Ht p (tree_explored self Ht p Hp)) as Hlp.
    destruct (successors_slides p move s Hlp Hm) as [_ [t Hsl]].
    exists (g + tile_value t ^ 2). split.
    + destruct (chain_head _ _ _ Hc) as [l' ->].
      apply (get_cost_step self s p move t l'); try done.
      by apply (chain_step _ s p).
    + by apply (costs_more start_state g p move s t).
Qed.

Lemma get_items (q : pdqpq.Queue) (k : Board) (c : Z) :
  NoDup (pdqpq.keys q) -> (k, c) ∈ pdqpq.items q -> pdqpq.get q k = Ok c.
Proof.
  intros Hnd Hin. unfold pdqpq.get.
  destruct (list_find (fun e => e.1 = k) (pdqpq.items q)) as [[i e]|] eqn:Hf.
  - apply list_find_Some in Hf as (Hi & He & _).
    apply list_elem_of_lookup in Hin as [j Hj].
    assert (i = j) as ->.
    { apply (NoDup_lookup (pdqpq.keys q) i j k); [done | |];
        unfold pdqpq.keys; rewrite list_lookup_fmap.
      - by rewrite Hi; simpl; rewrite He.
      - by rewrite Hj. }
    rewrite Hi in Hj. by injection Hj as ->.
  - apply list_find_None in Hf. rewrite Forall_forall in Hf.
    by destruct (Hf _ Hin).
Qed.
End ucs_basics.

Section ucs_run.
Import BreadthFirstSolver.

Lemma keys_add_iff (q : pdqpq.Queue) (s : Board) (c : Z) (k : Board) :
  k ∈ pdqpq.keys (pdqpq.add q s c) <-> k ∈ pdqpq.keys q \/ k = s.
Proof.
  split; [|apply elem_of_keys_add].
  unfold pdqpq.add, pdqpq.keys.
  destruct (pdqpq.fifo q); simpl; rewrite fmap_app, elem_of_app; simpl;
    rewrite list_elem_of_singleton; intros [Hk | ->]; auto.
  left. apply list_elem_of_fmap in Hk as (e & -> & [_ Hin]%list_elem_of_filter).
  apply list_elem_of_fmap. by exists e.
Qed.

(** What a visit of uniform-cost search does. *)
Lemma ucs_visit_cases (start_state node : Board) (self : Solver) (move : string)
    (succ : Board) (rest : list (string * Board)) (self' : Solver) :
  puzz.is_layout start_state ->
  reach UCS start_state (Visiting node ((move, succ) :: rest)) self ->
  UniformCostSolver.visit node self move succ = Ok (Next self') ->
  exists g t,
    get_cost self node = Ok g /\ slides node move succ t
    /\ ((self' = self
         /\ (succ ∈ explored self
             \/ exists cur, pdqpq.get (frontier self) succ = Ok cur
                  /\ succ ∈ pdqpq.keys (frontier self)
                  /\ cur <= g + tile_value t ^ 2))
        \/ ((succ ∉ explored self)
            /\ parents self' = <[succ := Some node]> (parents self)
            /\ explored self' = explored self
            /\ get_cost self' succ = Ok (g + tile_value t ^ 2)
            /\ (forall k, k ∈ pdqpq.keys (frontier self')
                  <-> k ∈ pdqpq.keys (frontier self) \/ k = succ)
            /\ (succ ∈ pdqpq.keys (frontier self) ->
                exists cur, pdqpq.get (frontier self) succ = Ok cur
                  /\ g + tile_value t ^ 2 < cur))).
Proof.
  intros Hl Hr.
  destruct (reach_tree UCS start_state _ self Hl Hr) as [Ht [Hn Hrest]].
  assert ((move, succ) ∈ puzz.successors node) as Hm by (apply Hrest; by left).
  pose proof (tree_explored self Ht node Hn) as Hnp.
  pose proof (tree_layout self Ht node Hnp) as Hln.
  destruct (tree_cost self node Ht Hnp) as (path & tiles & _ & _ & _ & _ & Hcost).
  set (g := Zsum ((fun t => tile_value t ^ 2) <$> tiles)) in *.
  destruct (successors_slides node move succ Hln Hm) as [Hls [t Hsl]].
  pose proof (slides_value node move succ t Hln Hsl) as Hint.
  pose proof (slides_transition_cost node move succ t _ Hsl Hint) as Htc.
  assert (forall self1, succ ∉ explored self ->
            parents self1 = <[succ := Some node]> (parents self) ->
            get_cost self1 succ = Ok (g + tile_value t ^ 2)) as Hchild.
  { intros self1 He Hp.
    by apply (get_cost_child self self1 node succ move t (tile_value t) g). }
  intros Hv. exists g, t. split; [done|]. split; [done|]. revert Hv.
  unfold UniformCostSolver.visit. rewrite Hcost, Htc. simpl.
  case_bool_decide as He; [intros [= <-]; left; split; [done | by left]|].
  destruct (pdqpq.contains (frontier self) succ) eqn:Hc.
  - apply contains_true in Hc. destruct (get_Some _ _ Hc) as [cur Hcur].
    rewrite Hcur. simpl. destruct (cur >? g + tile_value t ^ 2) eqn:Hgt.
    + rewrite Hchild by done. simpl. intros [= <-]. right. simpl.
      split; [done|]. split; [done|]. split; [done|].
      split; [by apply Hchild|]. split; [intros k; split|].
      * intros [[Hk _]%elem_of_keys_remove | ->]%keys_add_iff; auto.
      * intros [Hk | ->]; apply keys_add_iff; [|by right].
        destruct (decide (k = succ)) as [-> | Hne]; [by right|]. left.
        by apply elem_of_keys_remove.
      * intros _. exists cur. split; [done | lia].
    + intros [= <-]. left. split; [done|]. right. exists cur.
      split; [done|]. split; [done | lia].
  - apply contains_false in Hc. rewrite Hchild by done. simpl.
    intros [= <-]. right. simpl.
    split; [done|]. split; [done|]. split; [done|].
    split; [by apply Hchild|]. split; [|done].
    intros k. apply keys_add_iff.
Qed.

(** In uniform-cost search the priority of a state of the frontier is
    its cost in the parent map. *)
Lemma ucs_priorities (start_state : Board) (pt : point) (self : Solver)
    (k : Board) (c : Z) :
  puzz.is_layout start_state -> reach UCS start_state pt self ->
  (k, c) ∈ pdqpq.items (frontier self) -> get_cost self k = Ok c.
Proof.
  intros Hl Hr Hin.
  pose proof (reach_prioritised UCS start_state pt self Hl Hr k c Hin) as Hp.
  case_decide as Hk; [|done]. subst.
  apply get_cost_root, (reach_start UCS start_state pt self Hr).
  intros ->. inversion Hr; subst. simpl in Hin. by apply elem_of_nil in Hin.
Qed.

(** At the head of the loop, a sequence of moves from the start state
    ends in an explored state that costs no more, or costs no less than
    some state of the frontier. *)
Lemma frontier_bound (start_state : Board) (self : Solver) (c : Z) (x : Board) :
  puzz.is_layout start_state -> reach UCS start_state Head self ->
  ucs_inv start_state Head self ->
  costs start_state c x ->
  (x ∈ explored self /\ exists g, get_cost self x = Ok g /\ g <= c)
  \/ exists y p, (y, p) ∈ pdqpq.items (frontier self) /\ p <= c.
Proof.
  intros Hl Hr [Hex Hrel].
  induction 1 as [|c b move x t Hc IH Hm Hsl].
  - destruct (reach_start UCS start_state _ self Hr ltac:(done))
      as [_ [Hs | [Hk _]]].
    + left. split; [done|]. apply Hex; [done | constructor].
    + right. unfold pdqpq.keys in Hk.
      destruct (pdqpq.items (frontier self)) as [|[y p] [|? ?]] eqn:Hi; try done.
      simpl in Hk. injection Hk as ->.
      assert (get_cost self start_state = Ok p) as Hp.
      { apply (ucs_priorities start_state Head); [done..|]. rewrite Hi. by left. }
      rewrite get_cost_root in Hp
        by apply (reach_start UCS start_state _ self Hr ltac:(done)).
      injection Hp as <-. exists start_state, 0. split; [by left | done].
  - assert (0 <= tile_value t ^ 2) as Hw by nia.
    destruct IH as [[Hb (g & Hg & Hle)] | (y & p & Hin & Hle)].
    2: { right. exists y, p. split; [done | lia]. }
    destruct (reach_closed UCS start_state _ self Hr b move x Hb Hm)
      as [Hx | []].
    unfold met in Hx. apply elem_of_union in Hx as [Hx%elem_of_list_to_set | Hx].
    + right. destruct (Hrel b move x t Hb Hm Hsl Hx)
        as [[] | (ge & gy & Hge & Hgy & Hle')].
      unfold pdqpq.keys in Hx.
      apply list_elem_of_fmap in Hx as ([x' p] & -> & Hin). simpl in *.
      pose proof (ucs_priorities start_state Head self x' p Hl Hr Hin) as Hp.
      exists x', p. split; [done|].
      assert (ge = g) as -> by congruence. assert (gy = p) as -> by congruence.
      lia.
    + left. split; [done|]. apply Hex; [done|].
      by apply (costs_more start_state c b move x t).
Qed.

Lemma reach_ucs_inv (start_state : Board) (pt : point) (self : Solver) :
  puzz.is_layout start_state ->
  reach UCS start_state pt self -> ucs_inv start_state pt self.
Proof.
  intros Hl.
  induction 1 as [| |self Hr IH Hne|self node q Hr IH He Hp|self node Hr IH Hg
                  |self node move succ rest self' Hr IH Hv|self node Hr IH
                  |self node move succ rest Hr IH Hb Hc He Hg]; [| | | | | | |done].
  - split; simpl; [intros e c He | intros e m y t He];
      by apply elem_of_empty in He.
  - split; simpl; [intros e c He | intros e m y t He];
      by apply elem_of_empty in He.
  - destruct IH as [Hex Hrel]. split; [done|].
    intros e m y t H1 H2 H3 H4. by destruct (Hrel e m y t H1 H2 H3 H4) as [[] | ?]; right.
  - (* expanded *)
    pose proof IH as [Hex Hrel].
    set (self1 := (expand_node (set_frontier self q) node).1).
    assert (forall k, get_cost self1 k = get_cost self k) as Hsame
      by (intros k; by apply get_cost_parents).
    pose proof (reach_fifo UCS start_state _ self Hr) as Hfifo. simpl in Hfifo.
    destruct (pop_min _ _ _ Hfifo Hp) as (p & Hin & Hmin).
    destruct (pop_keys _ _ _ Hp) as (Hnode & _ & Hq).
    destruct (Hq (counted_nodup _ (reach_counted _ _ _ _ Hr))) as [_ Hkeys].
    split.
    + intros e c [->%elem_of_singleton | Hin']%elem_of_union Hc; rewrite Hsame;
        [|by apply Hex].
      destruct (frontier_bound start_state self c node Hl Hr IH Hc)
        as [[_ Hg] | (y & py & Hy & Hle)]; [done|].
      exists p. split; [by apply (ucs_priorities start_state Head)|].
      specialize (Hmin y py Hy). lia.
    + intros e m y t [->%elem_of_singleton | Hin']%elem_of_union Hm Hsl Hy;
        [by left|]. right. rewrite !Hsame.
      simpl in Hy. apply Hkeys in Hy as [Hy _].
      by destruct (Hrel e m y t Hin' Hm Hsl Hy) as [[] | ?].
  - (* visiting *)
    destruct IH as [Hex Hrel]. split; [done|].
    intros e m y t H1 H2 H3 H4.
    destruct (Hrel e m y t H1 H2 H3 H4) as [-> | ?]; [left|by right]. by split.
  - (* a visit *)
    pose proof IH as [Hex Hrel].
    destruct (reach_tree UCS start_state _ self Hl Hr) as [Ht [Hn Hrest]].
    destruct (reach_counted UCS start_state _ self Hr) as [Hnd Hdis _ _ _].
    destruct (ucs_visit_cases start_state node self move succ rest self' Hl Hr Hv)
      as (g & t & Hg & Hsl & [[-> Hskip] | (Hx & Hps & Hexp & Hgs & Hk & Hcur)]).
    + (* nothing changes *)
      split; [done|]. intros e m y t' He Hm Hsl' Hy.
      destruct (Hrel e m y t' He Hm Hsl' Hy)
        as [[-> [[= -> ->] | Hin]%elem_of_cons] | ?]; [| left; by split | by right].
      right. pose proof (slides_tile node move succ t t' Hsl Hsl') as <-.
      destruct Hskip as [Hse | (cur & Hcur & _ & Hle)];
        [by destruct (Hdis succ Hy)|].
      unfold pdqpq.keys in Hy.
      apply list_elem_of_fmap in Hy as ([y p] & Heq & Hin). simpl in Heq. subst y.
      rewrite (get_items _ _ _ Hnd Hin) in Hcur. injection Hcur as ->.
      exists g, cur. split; [done|]. split; [|done].
      by apply (ucs_priorities start_state (Visiting node ((move, succ) :: rest))).
    + (* the successor is bound to the node *)
      assert (forall k, k <> succ -> is_Some (parents self !! k) ->
                get_cost self' k = get_cost self k) as Hother.
      { intros k Hne Hk'. by apply (get_cost_other self self' node succ k). }
      assert (forall e, e ∈ explored self -> get_cost self' e = get_cost self e)
        as Hsame.
      { intros e He'. apply Hother; [by intros -> | by apply (tree_explored self Ht)]. }
      split.
      * intros e c He' Hc. rewrite Hexp in He'. rewrite Hsame by done.
        by apply Hex.
      * intros e m y t' He' Hm Hsl' Hy. rewrite Hexp in He'.
        assert (e = node -> (m, y) = (move, succ) ->
                exists ge gy, get_cost self' e = Ok ge /\ get_cost self' y = Ok gy
                  /\ gy <= ge + tile_value t' ^ 2) as Hnow.
        { intros -> [= -> ->].
          pose proof (slides_tile node move succ t t' Hsl Hsl') as <-.
          exists g, (g + tile_value t ^ 2). rewrite Hsame by done.
          split; [done|]. split; [done | lia]. }
        assert (pending (Visiting node ((move, succ) :: rest)) e m y ->
                pending (Visiting node rest) e m y
                \/ exists ge gy, get_cost self' e = Ok ge /\ get_cost self' y = Ok gy
                     /\ gy <= ge + tile_value t' ^ 2) as Hpend.
        { intros [-> [Heq | Hin]%elem_of_cons]; [right; by apply Hnow|].
          left. by split. }
        destruct (decide (y = succ)) as [-> | Hne].
        -- destruct (decide (succ ∈ pdqpq.keys (frontier self))) as [Hin | Hout].
           ++ destruct (Hrel e m succ t' He' Hm Hsl' Hin)
                as [Hpe | (ge & gy & Hge & Hgy & Hle)]; [by apply Hpend|].
              right. destruct (Hcur Hin) as (cur & Hget & Hlt).
              unfold pdqpq.keys in Hin.
              apply list_elem_of_fmap in Hin as ([y p] & Heq & Hin).
              simpl in Heq. subst y.
              rewrite (get_items _ _ _ Hnd Hin) in Hget. injection Hget as ->.
              pose proof (ucs_priorities start_state _ self succ cur Hl Hr Hin) as Hp.
              exists ge, (g + tile_value t ^ 2). rewrite Hsame by done.
              split; [done|]. split; [done|].
              assert (gy = cur) as -> by congruence. lia.
           ++ destruct (reach_closed UCS start_state _ self Hr e m succ He' Hm)
                as [Hmet | Hpe]; [|by apply Hpend].
              unfold met in Hmet. set_solver.
        -- apply Hk in Hy as [Hy | ->]; [|done].
           destruct (Hrel e m y t' He' Hm Hsl' Hy)
             as [Hpe | (ge & gy & Hge & Hgy & Hle)]; [by apply Hpend|].
           right. exists ge, gy. rewrite Hsame by done.
           rewrite Hother; [done | done | by apply (tree_frontier self Ht)].
  - (* the next turn *)
    destruct IH as [Hex Hrel]. split; [done|].
    intros e m y t H1 H2 H3 H4.
    destruct (Hrel e m y t H1 H2 H3 H4) as [[_ []%elem_of_nil] | ?]. by right.
Qed.
End ucs_run.

(** X17: the path uniform-cost search returns from a layout has the least
    cost: [path_cost] is the cost of a sequence of legal moves from the
    start state to the goal state, the sum of the squares of the tiles it
    moves, and no sequence of legal moves from the start state to the goal
    state costs less. *)
Theorem ucs_least_cost (fuel : nat) (start_state : Board) (r : results) (cost : Z) :
  puzz.is_layout start_state ->
  solve_of UCS (fresh UCS) fuel start_state = Ok r ->
  r !! "path_cost" = Some (VInt cost) ->
  costs start_state cost GOAL_STATE
  /\ forall c, costs start_state c GOAL_STATE -> cost <= c.
Proof.
  intros Hl Hs Hcost. apply solve_ends in Hs.
  destruct Hs as [Hg Hres | self Hr He Hres | self node Hr Ht Hg Hres
                 | self node succ Hr Hb Hg Hres]; [| | |done].
  - rewrite results_root in Hres by (simpl; apply lookup_insert_eq).
    injection Hres as <-. unfold trivial_success in Hcost.
    rewrite lookup_insert_ne, lookup_insert_eq in Hcost by done.
    injection Hcost as <-. simpl in Hg. rewrite <- Hg.
    split; [constructor|]. intros c Hc. by apply (costs_nonneg c start_state start_state).
  - rewrite results_failure in Hres. by injection Hres as <-.
  - destruct (results_path self node r Hres) as (path & cost' & _ & Hgc & Hrc & _).
    assert (cost' = cost) as -> by congruence.
    destruct (reach_tree UCS start_state _ self Hl Hr) as [Htree Hn]. simpl in Hn.
    rewrite <- (reach_goal UCS start_state _ self Hr), <- Hg.
    split.
    + destruct (tree_costs start_state self node Htree) as (g & Hg' & Hcs).
      * by apply (reach_root UCS start_state _ self Hr).
      * by apply (tree_explored self Htree).
      * congruence.
    + intros c Hc.
      destruct (ucs_explored _ _ _ (reach_ucs_inv start_state _ self Hl Hr) node c Hn Hc)
        as (g & Hg' & Hle).
      congruence.
Qed.

Lemma ucs_least_cost_witness :
  exists r,
    solve_of UCS (fresh UCS) 100 (puzz.EightPuzzleBoard "142375608") = Ok r
    /\ r !! "path_cost" = Some (VInt 66)
    /\ costs (puzz.EightPuzzleBoard "142375608") 66 GOAL_STATE
    /\ forall c, costs (puzz.EightPuzzleBoard "142375608") c GOAL_STATE -> 66 <= c.
Proof.
  destruct (table_column_result
              (solve_of UCS (fresh UCS) 100 (puzz.EightPuzzleBoard "142375608"))
              4 66 (Some (VInt 20)) (Some (VInt 12)))
    as (r & path & Hs & _ & _ & Hp); [by vm_compute|].
  exists r. split; [done|]. split; [done|].
  apply (ucs_least_cost 100 (puzz.EightPuzzleBoard "142375608") r 66); [|done..].
  apply (bool_decide_unpack _). by vm_compute.
Defined.
